(** * IMP toolchain: bytecode interpreter, code generator and comparison parser

    A shallow embedding of [interp.cpp], [codegen.cpp] and the expression
    part of [parser.cpp], together with the properties of the bytecode
    contract between them.

    Conventions of the embedding
    - the target is LP64 and little endian: [sizeof(size_t) = 8],
      [sizeof(unsigned) = 4], [sizeof(Opcode) = 1], a [RuntimeFn] is an
      eight byte pointer;
    - a byte is a [Z] in [0, 256); the code buffer [std::vector<uint8_t>]
      is a [list Z];
    - the runtime stack [std::vector<Value>] is a list whose HEAD is the
      back of the vector (the top of the stack);
    - a failed [assert] and behaviour the language leaves undefined are
      explicit outcomes, never silently skipped. *)

From Stdlib Require Import ZArith Lia.
From stdpp Require Import base strings list gmap fin_maps.

Local Open Scope Z_scope.
Set Warnings "-register-all".

(** ** Raw typed copies into and out of the byte stream *)

Module Bytes.

(** [memcpy] of the [n] low-order bytes of an integer, least significant
    byte first. *)
Fixpoint le_bytes (n : nat) (v : Z) : list Z :=
  match n with
  | O => []
  | S k => (v mod 256) :: le_bytes k (v / 256)
  end.

(** The unsigned integer held by a run of bytes. *)
Fixpoint le_value (bs : list Z) : Z :=
  match bs with
  | [] => 0
  | b :: r => b + 256 * le_value r
  end.

(** Conversions to the fixed-width C types. *)
Definition u32 (z : Z) : Z := z mod 2 ^ 32.
Definition u64 (z : Z) : Z := z mod 2 ^ 64.
Definition wrap64 (z : Z) : Z := (z + 2 ^ 63) mod 2 ^ 64 - 2 ^ 63.

Definition INT64_MIN : Z := - 2 ^ 63.
Definition INT64_MAX : Z := 2 ^ 63 - 1.
Definition is_int64 (z : Z) : Prop := INT64_MIN <= z <= INT64_MAX.

(** [code_[loc .. loc + n)], when it lies inside the buffer. *)
Definition slice (loc n : nat) (code : list Z) : option (list Z) :=
  let bs := take n (drop loc code) in
  if decide (length bs = n) then Some bs else None.

End Bytes.

(** ** Opcodes *)

(** Modelled from the spec: [program.h], which declares [enum class Opcode],
    is absent; the opcodes are the closed set of section 3.2, numbered in
    the order in which that section lists them, one byte each. *)
Inductive Opcode :=
  | PUSH_FUNC | PUSH_PROTO | PUSH_INT | PEEK | POP | CALL
  | ADD | SUB | MUL | DIV | MOD
  | GREATER | LOWER | GREATER_EQ | LOWER_EQ | IS_EQ
  | RET | JUMP_FALSE | JUMP | STOP.

Definition opcode_byte (op : Opcode) : Z :=
  match op with
  | PUSH_FUNC => 0 | PUSH_PROTO => 1 | PUSH_INT => 2 | PEEK => 3 | POP => 4
  | CALL => 5 | ADD => 6 | SUB => 7 | MUL => 8 | DIV => 9 | MOD => 10
  | GREATER => 11 | LOWER => 12 | GREATER_EQ => 13 | LOWER_EQ => 14
  | IS_EQ => 15 | RET => 16 | JUMP_FALSE => 17 | JUMP => 18 | STOP => 19
  end.

Definition all_opcodes : list Opcode :=
  [PUSH_FUNC; PUSH_PROTO; PUSH_INT; PEEK; POP; CALL; ADD; SUB; MUL; DIV; MOD;
   GREATER; LOWER; GREATER_EQ; LOWER_EQ; IS_EQ; RET; JUMP_FALSE; JUMP; STOP].

Definition opcode_of_byte (b : Z) : option Opcode :=
  List.find (fun op => Z.eqb (opcode_byte op) b) all_opcodes.

(** ** The interpreter ([interp.cpp]) *)

Module Interp.
Import Bytes.

(** A runtime value: the tagged union of section 3.3. *)
Inductive Value :=
  | VInt (i : Z)
  | VAddr (a : Z)
  | VProto (fn : Z).

Record State := mkState {
  prog_ : list Z;        (* the program buffer *)
  pc_ : Z;               (* the read cursor *)
  stack_ : list Value;   (* head = top of the stack *)
}.

(** What one turn of the [for (;;)] loop of [Interp::Run] does. *)
Inductive Outcome :=
  | Continue (st : State)            (* [continue]: next iteration *)
  | Return_ (st : State)             (* [STOP]: [Run] returns *)
  | Throw (msg : string)             (* [throw RuntimeError(msg)] *)
  | HostCall (fn : Z) (st : State)   (* control passes to a host primitive *)
  | Undefined.                       (* failed assertion / undefined behaviour *)

(** Modelled from the spec: [Program::Read<T>(pc)] of the absent [program.h];
    a raw typed copy of [n = sizeof(T)] bytes at the cursor, which advances
    past them.  Reading outside the buffer is undefined. *)
Definition Read (n : nat) (prog : list Z) (pc : Z) : option (Z * Z) :=
  if decide (0 <= pc) then
    match slice (Z.to_nat pc) n prog with
    | Some bs => Some (le_value bs, pc + Z.of_nat n)
    | None => None
    end
  else None.

Definition to_int64 (u : Z) : Z := wrap64 u.

(** Modelled from the spec: the stack helpers of the absent [interp.h].
    [Pop] must not underflow; [PopInt] and [PopAddr] accept only their own
    variant. *)
Definition Push (v : Value) (st : State) : State :=
  mkState (prog_ st) (pc_ st) (v :: stack_ st).

Definition Pop (st : State) : option (Value * State) :=
  match stack_ st with
  | v :: s => Some (v, mkState (prog_ st) (pc_ st) s)
  | [] => None
  end.

Definition PopInt (st : State) : option (Z * State) :=
  match Pop st with
  | Some (VInt i, st') => Some (i, st')
  | _ => None
  end.

Definition PopAddr (st : State) : option (Z * State) :=
  match Pop st with
  | Some (VAddr a, st') => Some (a, st')
  | _ => None
  end.

(** Modelled from the spec: [Value::operator bool]; a value is false iff it
    is an [Int] equal to zero. *)
Definition truthy (v : Value) : bool :=
  match v with
  | VInt i => negb (i =? 0)
  | _ => true
  end.

Definition set_pc (pc : Z) (st : State) : State :=
  mkState (prog_ st) pc (stack_ st).

(** [stack_.resize(stack_.size() - n)]: the subtraction is on [size_t], so a
    count above the size asks for an absurd length. *)
Definition shrink (n : Z) (st : State) : option State :=
  if decide (n <= Z.of_nat (length (stack_ st))) then
    Some (mkState (prog_ st) (pc_ st) (drop (Z.to_nat n) (stack_ st)))
  else None.

(** [auto rhs = PopInt(); auto lhs = PopInt();] followed by the body [k]. *)
Definition pop_operands (st : State) (k : Z → Z → State → Outcome) : Outcome :=
  match PopInt st with
  | Some (rhs, st1) =>
    match PopInt st1 with
    | Some (lhs, st2) => k rhs lhs st2
    | None => Undefined
    end
  | None => Undefined
  end.

Definition b2z (b : bool) : Z := if b then 1 else 0.

(** The body of the [switch] for an opcode already fetched; [st] has the
    cursor just past the opcode byte. *)
Definition exec (op : Opcode) (st : State) : Outcome :=
  match op with
  | PUSH_FUNC =>
    match Read 8 (prog_ st) (pc_ st) with
    | Some (a, pc') => Continue (Push (VAddr a) (set_pc pc' st))
    | None => Undefined
    end
  | PUSH_PROTO =>
    match Read 8 (prog_ st) (pc_ st) with
    | Some (fn, pc') => Continue (Push (VProto fn) (set_pc pc' st))
    | None => Undefined
    end
  | PUSH_INT =>
    match Read 8 (prog_ st) (pc_ st) with
    | Some (u, pc') => Continue (Push (VInt (to_int64 u)) (set_pc pc' st))
    | None => Undefined
    end
  | PEEK =>
    match Read 4 (prog_ st) (pc_ st) with
    | Some (idx, pc') =>
      match stack_ st !! Z.to_nat idx with
      | Some v => Continue (Push v (set_pc pc' st))
      | None => Undefined
      end
    | None => Undefined
    end
  | POP =>
    match Pop st with
    | Some (_, st') => Continue st'
    | None => Undefined
    end
  | CALL =>
    match Pop st with
    | Some (VProto fn, st') => HostCall fn st'
    | Some (VAddr a, st') => Continue (set_pc a (Push (VAddr (pc_ st')) st'))
    | Some (VInt _, _) => Throw "cannot call integer"
    | None => Undefined
    end
  | ADD =>
    pop_operands st (fun rhs lhs st' =>
      let res := wrap64 (rhs + lhs) in
      if (res <? 0) && (rhs >=? 0) && (lhs >=? 0) then Throw "overflow error"
      else if (res >=? 0) && (rhs <? 0) && (lhs <? 0) then Throw "overflow error"
      else Continue (Push (VInt res) st'))
  | SUB =>
    pop_operands st (fun rhs lhs st' =>
      let res := wrap64 (lhs - rhs) in
      if (res >? 0) && (rhs >=? 0) && (lhs <=? 0) then Throw "overflow error"
      else if (res <? 0) && (rhs <? 0) && (lhs >=? 0) then Throw "overflow error"
      else Continue (Push (VInt res) st'))
  | MUL =>
    pop_operands st (fun rhs lhs st' =>
      let res := wrap64 (rhs * lhs) in
      Continue (Push (VInt res) st'))
  | DIV =>
    pop_operands st (fun rhs lhs st' =>
      if rhs =? 0 then Throw "division by 0"
      else if (lhs =? INT64_MIN) && (rhs =? -1) then Undefined
      else Continue (Push (VInt (Z.quot lhs rhs)) st'))
  | MOD =>
    pop_operands st (fun rhs lhs st' =>
      if rhs =? 0 then Throw "division by 0"
      else if (lhs =? INT64_MIN) && (rhs =? -1) then Undefined
      else Continue (Push (VInt (Z.rem lhs rhs)) st'))
  | GREATER =>
    pop_operands st (fun rhs lhs st' =>
      Continue (Push (VInt (b2z (rhs >? lhs))) st'))
  | LOWER =>
    pop_operands st (fun rhs lhs st' =>
      Continue (Push (VInt (b2z (rhs <? lhs))) st'))
  | GREATER_EQ =>
    pop_operands st (fun rhs lhs st' =>
      Continue (Push (VInt (b2z (rhs >=? lhs))) st'))
  | LOWER_EQ =>
    pop_operands st (fun rhs lhs st' =>
      Continue (Push (VInt (b2z (rhs <=? lhs))) st'))
  | IS_EQ =>
    pop_operands st (fun rhs lhs st' =>
      Continue (Push (VInt (b2z (rhs =? lhs))) st'))
  | RET =>
    match Read 4 (prog_ st) (pc_ st) with
    | Some (depth, pc1) =>
      match Read 4 (prog_ st) pc1 with
      | Some (nargs, pc2) =>
        match Pop (set_pc pc2 st) with
        | Some (v, st1) =>
          match shrink depth st1 with
          | Some st2 =>
            match PopAddr st2 with
            | Some (a, st3) =>
              match shrink nargs (set_pc a st3) with
              | Some st4 => Continue (Push v st4)
              | None => Undefined
              end
            | None => Undefined
            end
          | None => Undefined
          end
        | None => Undefined
        end
      | None => Undefined
      end
    | None => Undefined
    end
  | JUMP_FALSE =>
    match Pop st with
    | Some (cond, st1) =>
      match Read 8 (prog_ st1) (pc_ st1) with
      | Some (addr, pc') =>
        if truthy cond then Continue (set_pc pc' st1)
        else Continue (set_pc addr st1)
      | None => Undefined
      end
    | None => Undefined
    end
  | JUMP =>
    match Read 8 (prog_ st) (pc_ st) with
    | Some (addr, _) => Continue (set_pc addr st)
    | None => Undefined
    end
  | STOP => Return_ st
  end.

(** One iteration of the loop: fetch the opcode, then dispatch.  A byte
    that is no opcode matches no [case], and the loop goes round again. *)
Definition step (st : State) : Outcome :=
  match Read 1 (prog_ st) (pc_ st) with
  | Some (b, pc') =>
    match opcode_of_byte b with
    | Some op => exec op (set_pc pc' st)
    | None => Continue (set_pc pc' st)
    end
  | None => Undefined
  end.

(** [Interp::Run], bounded by a number of iterations. *)
Fixpoint Run (fuel : nat) (st : State) : option Outcome :=
  match fuel with
  | O => None
  | S f =>
    match step st with
    | Continue st' => Run f st'
    | o => Some o
    end
  end.

(** The state in which [op], with immediates [imm], is the next thing the
    loop reads, and the stack is [stk]. *)
Definition at_op (pre : list Z) (op : Opcode) (imm post : list Z)
    (stk : list Value) : State :=
  mkState (pre ++ opcode_byte op :: imm ++ post) (Z.of_nat (length pre)) stk.

(** The operands of DIV and MOD: the quotient that does not fit. *)
Definition div_overflows (lhs rhs : Z) : Prop := lhs = INT64_MIN ∧ rhs = -1.

End Interp.

(** ** The abstract syntax tree *)

(** Modelled from the spec: [ast.h] is absent; the node kinds are those of
    section 2, with the children that [codegen.cpp] reads through the
    accessors and [parser.cpp] passes to the constructors. *)
Module Kind.
Inductive t := ADD | SUB | MUL | DIV | MOD
  | GREATER | LOWER | GREATER_EQ | LOWER_EQ | IS_EQ.
End Kind.

Inductive Expr :=
  | RefExpr (name : string)
  | BinaryExpr (kind : Kind.t) (lhs rhs : Expr)
  | CallExpr (callee : Expr) (args : list Expr)
  | IntExpr (n : Z).

Inductive Stmt :=
  | BlockStmt (body : list Stmt)
  | WhileStmt (cond : Expr) (stmt : Stmt)
  | IfStmt (cond : Expr) (stmt : Stmt) (elseStmt : option Stmt)
  | ExprStmt (e : Expr)
  | ReturnStmt (e : Expr)
  | LetStmt (name type : string) (init : option Expr).

Record FuncDecl := mkFuncDecl {
  fd_name : string;
  fd_args : list (string * string);
  fd_type : string;
  fd_body : list Stmt;
}.

Record ProtoDecl := mkProtoDecl {
  pd_name : string;
  pd_args : list (string * string);
  pd_type : string;
  pd_primitive : string;
}.

(** [std::variant<shared_ptr<FuncDecl>, shared_ptr<ProtoDecl>, shared_ptr<Stmt>>] *)
Inductive TopLevelStmt :=
  | TFunc (f : FuncDecl)
  | TProto (p : ProtoDecl)
  | TStmt (s : Stmt).

Definition Module_ := list TopLevelStmt.

Definition module_funcs (mod_ : Module_) : list FuncDecl :=
  omap (fun item => match item with TFunc f => Some f | _ => None end) mod_.
Definition module_protos (mod_ : Module_) : list ProtoDecl :=
  omap (fun item => match item with TProto p => Some p | _ => None end) mod_.
Definition module_stmts (mod_ : Module_) : list Stmt :=
  omap (fun item => match item with TStmt s => Some s | _ => None end) mod_.

(** *** Induction over the syntax tree

    [Expr] and [Stmt] nest through [list] and [option]; these principles
    give the induction hypothesis for every child. *)

Definition Expr_nested_ind (P : Expr → Prop)
    (HRef : ∀ name, P (RefExpr name))
    (HBinary : ∀ kind lhs rhs, P lhs → P rhs → P (BinaryExpr kind lhs rhs))
    (HCall : ∀ callee args, P callee → Forall P args → P (CallExpr callee args))
    (HInt : ∀ n, P (IntExpr n)) : ∀ e, P e :=
  fix F (e : Expr) : P e :=
    match e with
    | RefExpr name => HRef name
    | BinaryExpr kind lhs rhs => HBinary kind lhs rhs (F lhs) (F rhs)
    | CallExpr callee args =>
      HCall callee args (F callee)
        ((fix G (l : list Expr) : Forall P l :=
            match l with
            | [] => @List.Forall_nil _ P
            | x :: r => @List.Forall_cons _ P x r (F x) (G r)
            end) args)
    | IntExpr n => HInt n
    end.

Definition Stmt_nested_ind (P : Stmt → Prop)
    (HBlock : ∀ body, Forall P body → P (BlockStmt body))
    (HWhile : ∀ cond stmt, P stmt → P (WhileStmt cond stmt))
    (HIf : ∀ cond stmt elseStmt, P stmt →
           match elseStmt with Some e => P e | None => True end →
           P (IfStmt cond stmt elseStmt))
    (HExpr : ∀ e, P (ExprStmt e))
    (HReturn : ∀ e, P (ReturnStmt e))
    (HLet : ∀ name type init, P (LetStmt name type init)) : ∀ st, P st :=
  fix F (st : Stmt) : P st :=
    match st with
    | BlockStmt body =>
      HBlock body
        ((fix G (l : list Stmt) : Forall P l :=
            match l with
            | [] => @List.Forall_nil _ P
            | x :: r => @List.Forall_cons _ P x r (F x) (G r)
            end) body)
    | WhileStmt cond stmt => HWhile cond stmt (F stmt)
    | IfStmt cond stmt elseStmt =>
      HIf cond stmt elseStmt (F stmt)
        (match elseStmt as o
               return match o with Some e => P e | None => True end with
         | Some e0 => F e0
         | None => I
         end)
    | ExprStmt e => HExpr e
    | ReturnStmt e => HReturn e
    | LetStmt name type init => HLet name type init
    end.

(** ** The code generator ([codegen.cpp]) *)

Module Codegen.
Import Bytes.

(** Modelled from the spec: [Label] of the absent [codegen.h]; an opaque
    integer identity, minted monotonically. *)
Abbreviation Label := Z.

(** A failed [assert] aborts the translation. *)
Inductive Result (A : Type) :=
  | Ok (a : A)
  | AssertFail (msg : string).
Arguments Ok {A} a.
Arguments AssertFail {A} msg.

Definition bind {A B} (r : Result A) (k : A → Result B) : Result B :=
  match r with
  | Ok a => k a
  | AssertFail msg => AssertFail msg
  end.

Notation "'let*' p ':=' r 'in' k" := (bind r (fun p => k))
  (at level 10, p pattern, r at level 100, k at level 200).

Definition assert_ (b : bool) (msg : string) : Result unit :=
  if b then Ok tt else AssertFail msg.

(** *** Bindings and scopes *)

Inductive Binding :=
  | FUNC (Entry : Label)
  | PROTO (Fn : Z)
  | ARG (Index : Z)
  | LOCAL (Index : Z).

Inductive Scope :=
  | GlobalScope (funcs_ : gmap string Label) (protos_ : gmap string Z)
  | FuncScope (parent_ : Scope) (args_ : gmap string Z)
  | BlockScope (parent_ : Scope) (locals_ : gmap string Z).

(** [GlobalScope::Lookup], [FuncScope::Lookup] and [BlockScope::Lookup];
    [None] is the failed [assert(!"name not bound")]. *)
Definition GlobalScope_Lookup (funcs_ : gmap string Label)
    (protos_ : gmap string Z) (name : string) : option Binding :=
  match funcs_ !! name with
  | Some entry => Some (FUNC entry)
  | None =>
    match protos_ !! name with
    | Some fn => Some (PROTO fn)
    | None => None
    end
  end.

Fixpoint Lookup (scope : Scope) (name : string) : option Binding :=
  match scope with
  | GlobalScope funcs_ protos_ => GlobalScope_Lookup funcs_ protos_ name
  | FuncScope parent_ args_ =>
    match args_ !! name with
    | Some index => Some (ARG index)
    | None => Lookup parent_ name
    end
  | BlockScope parent_ locals_ =>
    match locals_ !! name with
    | Some index => Some (LOCAL index)
    | None => Lookup parent_ name
    end
  end.

(** Modelled from the spec: [Scope::AddLocal] and
    [BlockScope::NumberOfLocals] of the absent [codegen.h].  A block scope
    maps a local name to the depth snapshot taken at its declaration and
    counts the names it holds; the other scope kinds hold no locals. *)
Definition AddLocal (scope : Scope) (name : string) (depth : Z) : Scope :=
  match scope with
  | BlockScope parent_ locals_ => BlockScope parent_ (<[name := depth]> locals_)
  | _ => scope
  end.

Definition NumberOfLocals (scope : Scope) : nat :=
  match scope with
  | BlockScope _ locals_ => size locals_
  | _ => O
  end.

(** *** The generator's state *)

Record State := mkState {
  code_ : list Z;
  depth_ : Z;                              (* unsigned *)
  nextLabel_ : Z;
  funcs_ : gmap string Label;
  func_ : option FuncDecl;                 (* nullptr at top level *)
  labelToAddress_ : gmap Label nat;
  fixups_ : gmap Label (list nat);
}.

Definition new_Codegen : State :=
  mkState [] 0 0 ∅ None ∅ ∅.

Definition set_code (c : list Z) (s : State) : State :=
  mkState c (depth_ s) (nextLabel_ s) (funcs_ s) (func_ s)
          (labelToAddress_ s) (fixups_ s).
Definition set_depth (d : Z) (s : State) : State :=
  mkState (code_ s) d (nextLabel_ s) (funcs_ s) (func_ s)
          (labelToAddress_ s) (fixups_ s).
Definition set_nextLabel (n : Z) (s : State) : State :=
  mkState (code_ s) (depth_ s) n (funcs_ s) (func_ s)
          (labelToAddress_ s) (fixups_ s).
Definition set_funcs (f : gmap string Label) (s : State) : State :=
  mkState (code_ s) (depth_ s) (nextLabel_ s) f (func_ s)
          (labelToAddress_ s) (fixups_ s).
Definition set_func (f : option FuncDecl) (s : State) : State :=
  mkState (code_ s) (depth_ s) (nextLabel_ s) (funcs_ s) f
          (labelToAddress_ s) (fixups_ s).
Definition set_labelToAddress (m : gmap Label nat) (s : State) : State :=
  mkState (code_ s) (depth_ s) (nextLabel_ s) (funcs_ s) (func_ s)
          m (fixups_ s).
Definition set_fixups (m : gmap Label (list nat)) (s : State) : State :=
  mkState (code_ s) (depth_ s) (nextLabel_ s) (funcs_ s) (func_ s)
          (labelToAddress_ s) m.

(** [std::map::emplace]: inserts only when the key is absent. *)
Definition emplace `{Countable K} {V} (k : K) (v : V) (m : gmap K V) : gmap K V :=
  match m !! k with
  | Some _ => m
  | None => <[k := v]> m
  end.

(** The fixup sites recorded for a label ([fixups_[label]]). *)
Definition sites (s : State) (label : Label) : list nat :=
  default [] (fixups_ s !! label).

(** *** Emitters *)

Definition MakeLabel (s : State) : Label * State :=
  let l := nextLabel_ s + 1 in (l, set_nextLabel l s).

(** [Emit<T>(t)]: append the [sizeof(T)] bytes of [t]. *)
Definition Emit (bs : list Z) (s : State) : State :=
  set_code (code_ s ++ bs) s.

Definition Emit_Opcode (op : Opcode) : State → State := Emit [opcode_byte op].
Definition Emit_size_t (v : Z) : State → State := Emit (le_bytes 8 v).
Definition Emit_unsigned (v : Z) : State → State := Emit (le_bytes 4 v).
Definition Emit_uint64_t (v : Z) : State → State := Emit (le_bytes 8 v).
Definition Emit_RuntimeFn (fn : Z) : State → State := Emit (le_bytes 8 fn).

(** [memcpy(code_.data() + loc, &address, sizeof(unsigned))]. *)
Definition patch (address : nat) (code : list Z) (loc : nat) : list Z :=
  list_inserts loc (le_bytes 4 (Z.of_nat address)) code.

Definition EmitLabel (label : Label) (s : State) : State :=
  let address := length (code_ s) in
  let s1 :=
    match fixups_ s !! label with
    | Some _ => s
    | None => set_fixups (<[label := []]> (fixups_ s)) s
    end in
  let s2 := set_code (foldl (patch address) (code_ s1) (sites s1 label)) s1 in
  set_labelToAddress (emplace label address (labelToAddress_ s2)) s2.

Definition EmitFixup (label : Label) (s : State) : State :=
  match labelToAddress_ s !! label with
  | Some address => Emit_size_t (Z.of_nat address) s
  | None =>
    let s1 := set_fixups (<[label := sites s label ++ [length (code_ s)]]> (fixups_ s)) s in
    Emit_size_t 0 s1
  end.

(** The emitters that begin with [assert(depth_ > 0)] and [depth_ -= 1]. *)
Definition consume_one (s : State) : Result State :=
  let* _ := assert_ (0 <? depth_ s) "no elements on stack" in
  Ok (set_depth (u32 (depth_ s - 1)) s).

Definition EmitPop (s : State) : Result State :=
  let* s1 := consume_one s in Ok (Emit_Opcode POP s1).

Definition EmitCall (nargs : Z) (s : State) : State := Emit_Opcode CALL s.

Definition EmitPushFunc (entry : Label) (s : State) : State :=
  EmitFixup entry (Emit_Opcode PUSH_FUNC (set_depth (u32 (depth_ s + 1)) s)).

Definition EmitPushProto (fn : Z) (s : State) : State :=
  Emit_RuntimeFn fn (Emit_Opcode PUSH_PROTO (set_depth (u32 (depth_ s + 1)) s)).

Definition EmitPeek (index : Z) (s : State) : State :=
  Emit_unsigned index (Emit_Opcode PEEK (set_depth (u32 (depth_ s + 1)) s)).

Definition EmitInt (n : Z) (s : State) : State :=
  Emit_uint64_t n (Emit_Opcode PUSH_INT (set_depth (u32 (depth_ s + 1)) s)).

Definition arg_size (f : FuncDecl) : Z := Z.of_nat (length (fd_args f)).

Definition EmitReturn (s : State) : Result State :=
  let* s1 := consume_one s in
  let s2 := Emit_Opcode RET s1 in
  let s3 := Emit_unsigned (depth_ s2) s2 in
  Ok (Emit_unsigned (match func_ s3 with Some f => arg_size f | None => 0 end) s3).

Definition EmitBinary (op : Opcode) (s : State) : Result State :=
  let* s1 := consume_one s in Ok (Emit_Opcode op s1).

Definition EmitAdd := EmitBinary ADD.
Definition EmitSub := EmitBinary SUB.
Definition EmitMul := EmitBinary MUL.
Definition EmitDiv := EmitBinary DIV.
Definition EmitMod := EmitBinary MOD.
Definition EmitGreater := EmitBinary GREATER.
Definition EmitLower := EmitBinary LOWER.
Definition EmitGreaterEqual := EmitBinary GREATER_EQ.
Definition EmitLowerEqual := EmitBinary LOWER_EQ.
Definition EmitIsEqual := EmitBinary IS_EQ.

Definition EmitJumpFalse (label : Label) (s : State) : Result State :=
  let* s1 := consume_one s in Ok (EmitFixup label (Emit_Opcode JUMP_FALSE s1)).

Definition EmitJump (label : Label) (s : State) : State :=
  EmitFixup label (Emit_Opcode JUMP s).

(** *** Lowering of expressions *)

Definition LowerRefExpr (scope : Scope) (name : string) (s : State) : Result State :=
  match Lookup scope name with
  | Some (FUNC entry) => Ok (EmitPushFunc entry s)
  | Some (PROTO fn) => Ok (EmitPushProto fn s)
  | Some (ARG index) => Ok (EmitPeek (u32 (depth_ s + index + 1)) s)
  | Some (LOCAL index) => Ok (EmitPeek (u32 (depth_ s - index)) s)
  | None => AssertFail "name not bound"
  end.

Definition EmitKind (kind : Kind.t) : State → Result State :=
  match kind with
  | Kind.ADD => EmitAdd
  | Kind.SUB => EmitSub
  | Kind.MUL => EmitMul
  | Kind.DIV => EmitDiv
  | Kind.MOD => EmitMod
  | Kind.GREATER => EmitGreater
  | Kind.LOWER => EmitLower
  | Kind.GREATER_EQ => EmitGreaterEqual
  | Kind.LOWER_EQ => EmitLowerEqual
  | Kind.IS_EQ => EmitIsEqual
  end.

Definition LowerBinaryExpr (LowerExpr : Expr → State → Result State)
    (kind : Kind.t) (lhs rhs : Expr) (s : State) : Result State :=
  let* s1 := LowerExpr lhs s in
  let* s2 := LowerExpr rhs s1 in
  EmitKind kind s2.

(** The loop from [arg_rbegin()] to [arg_rend()]: the last argument is
    lowered first. *)
Definition LowerArgsReversed (LowerExpr : Expr → State → Result State) :=
  fix go (args : list Expr) (s : State) {struct args} : Result State :=
    match args with
    | [] => Ok s
    | a :: rest => let* s1 := go rest s in LowerExpr a s1
    end.

Definition LowerCallExpr (LowerExpr : Expr → State → Result State)
    (callee : Expr) (args : list Expr) (s : State) : Result State :=
  let* s1 := LowerArgsReversed LowerExpr args s in
  let* s2 := LowerExpr callee s1 in
  let s3 := EmitCall (Z.of_nat (length args)) s2 in
  Ok (set_depth (u32 (depth_ s3 - Z.of_nat (length args))) s3).

Definition LowerIntExpr (n : Z) (s : State) : Result State := Ok (EmitInt n s).

Fixpoint LowerExpr (scope : Scope) (expr : Expr) (s : State) {struct expr}
    : Result State :=
  match expr with
  | RefExpr name => LowerRefExpr scope name s
  | BinaryExpr kind lhs rhs => LowerBinaryExpr (LowerExpr scope) kind lhs rhs s
  | CallExpr callee args => LowerCallExpr (LowerExpr scope) callee args s
  | IntExpr n => LowerIntExpr n s
  end.

(** *** Lowering of statements

    A statement receives its scope by mutable reference ([Scope &scope]);
    the embedding returns the scope as the statement leaves it. *)

Definition LowerStmts (LowerStmt : Scope → Stmt → State → Result (Scope * State)) :=
  fix go (stmts : list Stmt) (scope : Scope) (s : State) {struct stmts}
      : Result (Scope * State) :=
    match stmts with
    | [] => Ok (scope, s)
    | stmt :: rest =>
      let* (scope1, s1) := LowerStmt scope stmt s in go rest scope1 s1
    end.

Fixpoint EmitPops (n : nat) (s : State) : Result State :=
  match n with
  | O => Ok s
  | S k => let* s1 := EmitPop s in EmitPops k s1
  end.

Definition LowerBlockStmtWith
    (LowerStmt : Scope → Stmt → State → Result (Scope * State))
    (scope : Scope) (blockStmt : list Stmt) (s : State) : Result State :=
  let depthIn := depth_ s in
  let* (blockScope, s1) := LowerStmts LowerStmt blockStmt (BlockScope scope ∅) s in
  let* s2 := EmitPops (NumberOfLocals blockScope) s1 in
  let* _ := assert_ (depth_ s2 =? depthIn) "mismatched block depth on exit" in
  Ok s2.

Definition LowerWhileStmt
    (LowerStmt : Scope → Stmt → State → Result (Scope * State))
    (scope : Scope) (cond : Expr) (stmt : Stmt) (s : State)
    : Result (Scope * State) :=
  let '(entry, s1) := MakeLabel s in
  let '(exit, s2) := MakeLabel s1 in
  let s3 := EmitLabel entry s2 in
  let* s4 := LowerExpr scope cond s3 in
  let* s5 := EmitJumpFalse exit s4 in
  let* (scope1, s6) := LowerStmt scope stmt s5 in
  let s7 := EmitJump entry s6 in
  Ok (scope1, EmitLabel exit s7).

Definition LowerIfStmt
    (LowerStmt : Scope → Stmt → State → Result (Scope * State))
    (scope : Scope) (cond : Expr) (stmt : Stmt) (elseStmt : option Stmt)
    (s : State) : Result (Scope * State) :=
  let '(entry, s1) := MakeLabel s in
  let '(elseLabel, s2) := MakeLabel s1 in
  let '(exit, s3) := MakeLabel s2 in
  let s4 := EmitLabel entry s3 in
  let* s5 := LowerExpr scope cond s4 in
  let* s6 := EmitJumpFalse elseLabel s5 in
  let* (scope1, s7) := LowerStmt scope stmt s6 in
  let s8 := EmitJump exit s7 in
  let s9 := EmitLabel elseLabel s8 in
  let* (scope2, s10) :=
    match elseStmt with
    | Some elseBranch => LowerStmt scope1 elseBranch s9
    | None => Ok (scope1, s9)
    end in
  Ok (scope2, EmitLabel exit s10).

Definition LowerLetStmt (scope : Scope) (name : string) (init : option Expr)
    (s : State) : Result (Scope * State) :=
  let* s1 :=
    match init with
    | Some e => LowerExpr scope e s
    | None => Ok s
    end in
  Ok (AddLocal scope name (u32 (depth_ s1)), s1).

Definition LowerReturnStmt (scope : Scope) (e : Expr) (s : State) : Result State :=
  let* s1 := LowerExpr scope e s in EmitReturn s1.

Definition LowerExprStmt (scope : Scope) (e : Expr) (s : State) : Result State :=
  let* s1 := LowerExpr scope e s in EmitPop s1.

Fixpoint LowerStmt (scope : Scope) (stmt : Stmt) (s : State) {struct stmt}
    : Result (Scope * State) :=
  match stmt with
  | BlockStmt body =>
    let* s1 := LowerBlockStmtWith LowerStmt scope body s in Ok (scope, s1)
  | WhileStmt cond body => LowerWhileStmt LowerStmt scope cond body s
  | IfStmt cond body elseStmt => LowerIfStmt LowerStmt scope cond body elseStmt s
  | ExprStmt e => let* s1 := LowerExprStmt scope e s in Ok (scope, s1)
  | ReturnStmt e => let* s1 := LowerReturnStmt scope e s in Ok (scope, s1)
  | LetStmt name _ init => LowerLetStmt scope name init s
  end.

Definition LowerBlockStmt : Scope → list Stmt → State → Result State :=
  LowerBlockStmtWith LowerStmt.

(** *** Functions and modules *)

(** [args[it->first] = args.size()]: the right operand of an assignment is
    sequenced first (C++17), so the index is the number of names already in
    the map. *)
Definition func_args (decl : FuncDecl) : gmap string Z :=
  foldl (fun args a => <[a.1 := u32 (Z.of_nat (size args))]> args) ∅ (fd_args decl).

Definition LowerFuncDecl (scope : Scope) (decl : FuncDecl) (s : State) : Result State :=
  match funcs_ s !! fd_name decl with
  | None => AssertFail "missing function label"
  | Some label =>
    let s1 := EmitLabel label s in
    let s2 := set_func (Some decl) s1 in
    let* _ := assert_ (depth_ s2 =? 0) "invalid stack depth in global scope" in
    let* s3 := LowerBlockStmt (FuncScope scope (func_args decl)) (fd_body decl) s2 in
    let* _ := assert_ (depth_ s3 =? 0) "invalid stack depth on function exit" in
    Ok (set_func None s3)
  end.

(** The first loop of [Translate]: record prototypes and functions. *)
Fixpoint Prepass (kRuntimeFns : gmap string Z) (mod_ : Module_)
    (protos : gmap string Z) (s : State) : Result (gmap string Z * State) :=
  match mod_ with
  | [] => Ok (protos, s)
  | TProto proto :: rest =>
    match kRuntimeFns !! pd_primitive proto with
    | None => AssertFail "missing prototype"
    | Some fn => Prepass kRuntimeFns rest (emplace (pd_name proto) fn protos) s
    end
  | TFunc func :: rest =>
    let '(label, s1) := MakeLabel s in
    Prepass kRuntimeFns rest protos
            (set_funcs (emplace (fd_name func) label (funcs_ s1)) s1)
  | TStmt _ :: rest => Prepass kRuntimeFns rest protos s
  end.

(** The second loop: the top-level statements, under the global scope. *)
Fixpoint LowerTopLevel (mod_ : Module_) (global : Scope) (s : State)
    : Result (Scope * State) :=
  match mod_ with
  | [] => Ok (global, s)
  | TStmt stmt :: rest =>
    let* (global1, s1) := LowerStmt global stmt s in LowerTopLevel rest global1 s1
  | _ :: rest => LowerTopLevel rest global s
  end.

(** The third loop: the functions. *)
Fixpoint LowerFunctions (mod_ : Module_) (global : Scope) (s : State)
    : Result State :=
  match mod_ with
  | [] => Ok s
  | TFunc decl :: rest =>
    let* s1 := LowerFuncDecl global decl s in LowerFunctions rest global s1
  | _ :: rest => LowerFunctions rest global s
  end.

(** [Translate] returns the program, into which [code_] is moved; the
    embedding also returns the generator as it stands at that point. *)
Definition Translate (kRuntimeFns : gmap string Z) (mod_ : Module_) (s : State)
    : Result (list Z * State) :=
  let* _ := assert_ (bool_decide (code_ s = [])) "expected empty code section" in
  let* (protos, s0) := Prepass kRuntimeFns mod_ ∅ s in
  let global := GlobalScope (funcs_ s0) protos in
  let* (global1, s1) := LowerTopLevel mod_ global s0 in
  let s2 := Emit_Opcode STOP s1 in
  let* s3 := LowerFunctions mod_ global1 s2 in
  Ok (code_ s3, s3).

End Codegen.

(** ** What the generator maintains

    The invariants of the emitted stream and the sample inputs used below. *)

Module CodegenSpec.
Import Bytes Codegen.

(** Every recorded fixup site is an eight byte placeholder inside the
    stream. *)
Definition sites_in_range (s : State) : Prop :=
  ∀ l loc, loc ∈ sites s l → (loc + 8 ≤ length (code_ s))%nat.

(** Offset [i] lies in the four bytes that a patch of a recorded site
    overwrites. *)
Definition in_site (s : State) (i : nat) : Prop :=
  ∃ l loc, loc ∈ sites s l ∧ (loc ≤ i < loc + 4)%nat.

(** From [s] to [s'] the generator only appends to the stream and patches
    recorded sites; bound labels stay bound. *)
Record grows (s s' : State) : Prop := mk_grows {
  grows_length : (length (code_ s) ≤ length (code_ s'))%nat;
  grows_sites : ∀ l loc, loc ∈ sites s' l →
                  loc ∈ sites s l ∨ (length (code_ s) ≤ loc)%nat;
  grows_code : ∀ i, (i < length (code_ s))%nat → ¬ in_site s i →
                 code_ s' !! i = code_ s !! i;
  grows_bound : ∀ l a, labelToAddress_ s !! l = Some a →
                  labelToAddress_ s' !! l = Some a;
  grows_funcs : funcs_ s' = funcs_ s;
}.

(** Every label that has a fixup site is bound, or is one of [Y]. *)
Definition resolved (Y : Label → Prop) (s : State) : Prop :=
  ∀ l, sites s l ≠ [] → is_Some (labelToAddress_ s !! l) ∨ Y l.

(** The labels a scope can hand out are among [Y]. *)
Definition scope_entries (scope : Scope) (Y : Label → Prop) : Prop :=
  ∀ name l, Lookup scope name = Some (FUNC l) → Y l.

(** What every lowering step maintains. *)
Definition lowers (Y : Label → Prop) (s s' : State) : Prop :=
  (sites_in_range s → sites_in_range s')
  ∧ grows s s'
  ∧ (resolved Y s → resolved Y s')
  ∧ func_ s' = func_ s.

(** [lowers] without the clause on [func_], which [LowerFuncDecl] resets. *)
Definition streams (Y : Label → Prop) (s s' : State) : Prop :=
  (sites_in_range s → sites_in_range s')
  ∧ grows s s'
  ∧ (resolved Y s → resolved Y s').

(** What the induction over statements carries. *)
Definition Stmt_lowers (stmt : Stmt) : Prop :=
  ∀ Y scope s scope' s',
    scope_entries scope Y → LowerStmt scope stmt s = Ok (scope', s') →
    lowers Y s s' ∧ scope_entries scope' Y.

(** A step that binds no label and mints none. *)
Definition same_labels (s s' : State) : Prop :=
  labelToAddress_ s' = labelToAddress_ s ∧ nextLabel_ s' = nextLabel_ s.

(** A step that keeps the bindings it finds and binds only labels above
    [L0]. *)
Definition binds_above (L0 : Z) (s s' : State) : Prop :=
  nextLabel_ s <= nextLabel_ s'
  ∧ ∀ l a, labelToAddress_ s' !! l = Some a →
      labelToAddress_ s !! l = Some a ∨ L0 < l.

(** Every function label that is bound is bound to an offset beyond [n]. *)
Definition funcs_after (n : nat) (s : State) : Prop :=
  ∀ name label a,
    funcs_ s !! name = Some label → labelToAddress_ s !! label = Some a →
    (n < a)%nat.

(** The labels of the functions are minted fresh: each is at most
    [nextLabel_], and no two names share one. *)
Definition funcs_fresh (s : State) : Prop :=
  0 <= nextLabel_ s
  ∧ (∀ n l, funcs_ s !! n = Some l → 0 < l <= nextLabel_ s)
  ∧ (∀ n1 n2 l, funcs_ s !! n1 = Some l → funcs_ s !! n2 = Some l → n1 = n2).

(** Every prototype name is bound to the runtime function of a prototype of
    that name. *)
Definition protos_from (k : gmap string Z) (mod_ : Module_)
    (protos : gmap string Z) : Prop :=
  ∀ n fn, protos !! n = Some fn →
    ∃ p, p ∈ module_protos mod_ ∧ pd_name p = n ∧ k !! pd_primitive p = Some fn.


(** The runtime stack inside a function: [vals] above the saved cursor (top
    first), the saved cursor, the arguments ([arg_0] next to the saved
    cursor), and the caller's part. *)
Definition frame (vals : list Interp.Value) (ra : Z) (args rest : list Interp.Value)
    : list Interp.Value :=
  vals ++ Interp.VAddr ra :: args ++ rest.

(** The generator after [JUMP L] at offset 0 followed by [filler]. *)
Definition after_jump (L : Label) (filler : list Z) : State :=
  Emit filler (EmitJump L new_Codegen).

(** A stream of 2^32 bytes that starts with [JUMP 7]. *)
Definition long_stream : State :=
  after_jump 7 (replicate (Z.to_nat 4294967287) 0).

(** A runtime table with one primitive, and the factorial program of the
    specification's third scenario. *)
Definition demo_runtime : gmap string Z := {[ "print_int"%string := 4096 ]}.

Definition fact : FuncDecl :=
  mkFuncDecl "fact" [("n", "int")]%string "int"
    [ IfStmt (BinaryExpr Kind.IS_EQ (RefExpr "n") (IntExpr 0))
             (BlockStmt [ReturnStmt (IntExpr 1)]) None;
      ReturnStmt
        (BinaryExpr Kind.MUL (RefExpr "n")
           (CallExpr (RefExpr "fact")
              [BinaryExpr Kind.SUB (RefExpr "n") (IntExpr 1)])) ].

Definition fact_module : Module_ :=
  [ TProto (mkProtoDecl "print_int" [("x", "int")]%string "int" "print_int");
    TFunc fact;
    TStmt (ExprStmt (CallExpr (RefExpr "print_int")
                       [CallExpr (RefExpr "fact") [IntExpr 5]])) ].

End CodegenSpec.

(** ** Tokens ([lexer.h]) *)

Module Token.

Inductive Kind :=
  | FUNC | RETURN | WHILE | IF | ELSE | LET
  | LPAREN | RPAREN | LBRACE | RBRACE | COLON | SEMI | EQUAL | COMMA
  | PLUS | MINUS | MUL | DIV | MOD
  | GREATER | LOWER | GREATER_EQ | LOWER_EQ | IS_EQ
  | INT | STRING | IDENT | END.

#[global] Instance Kind_eq_dec : EqDecision Kind.
Proof. solve_decision. Defined.

(** A token: its kind and the union of payloads. *)
Record t := mk {
  kind_ : Kind;
  IntValue : Z;
  StringValue : string;
}.

Definition GetKind (tk : t) : Kind := kind_ tk.
Definition Is (tk : t) (kind : Kind) : bool := bool_decide (GetKind tk = kind).
Definition GetIdent (tk : t) : string := StringValue tk.
Definition GetInt (tk : t) : Z := IntValue tk.

Definition Symbol (kind : Kind) : t := mk kind 0 "".
Definition Integer (n : Z) : t := mk INT n "".
Definition Ident (str : string) : t := mk IDENT 0 str.
Definition End_ : t := Symbol END.

End Token.

(** ** The expression parser ([parser.cpp]) *)

Module Parser.

(** Modelled from the spec: [lexer.cpp] is absent; the lexer is the current
    token [tk_] and the tokens still to come, and [Next] advances to the
    next one, staying on [END] at the end of the input. *)
Record Lexer := mkLexer {
  tk_ : Token.t;
  pending : list Token.t;
}.

Definition Next (lx : Lexer) : Lexer :=
  match pending lx with
  | tk :: rest => mkLexer tk rest
  | [] => mkLexer Token.End_ []
  end.

Definition Current (lx : Lexer) : Token.t := tk_ lx.

(** A parser returns its node and leaves the lexer advanced, or throws
    [ParserError]; [OutOfFuel] only bounds the recursion of the embedding. *)
Inductive Result (A : Type) :=
  | Ok (a : A) (lx : Lexer)
  | ParserError (msg : string)
  | OutOfFuel.
Arguments Ok {A} a lx.
Arguments ParserError {A} msg.
Arguments OutOfFuel {A}.

Definition bind {A B} (r : Result A) (k : A → Lexer → Result B) : Result B :=
  match r with
  | Ok a lx => k a lx
  | ParserError msg => ParserError msg
  | OutOfFuel => OutOfFuel
  end.

Definition Check (kind : Token.Kind) (lx : Lexer) : Result unit :=
  if Token.Is (Current lx) kind then Ok tt lx
  else ParserError "unexpected token".

Definition ParseTermExpr (lx : Lexer) : Result Expr :=
  let tk := Current lx in
  match Token.GetKind tk with
  | Token.IDENT => Ok (RefExpr (Token.GetIdent tk)) (Next lx)
  | Token.INT => Ok (IntExpr (Token.GetInt tk)) (Next lx)
  | _ => ParserError "unexpected token, expecting term"
  end.

(** The condition of the [while] in [ParseCompExpr]. *)
Definition is_comparison (tk : Token.t) : bool :=
  Token.Is tk Token.GREATER || Token.Is tk Token.LOWER
  || Token.Is tk Token.GREATER_EQ || Token.Is tk Token.LOWER_EQ
  || Token.Is tk Token.IS_EQ.

Section Expressions.

(** [ParseExpr], through which [ParseCallExpr] re-enters the grammar. *)
Variable ParseExpr : Lexer → Result Expr.

(** [while (!lexer_.Next().Is(RPAREN)) { args.push_back(ParseExpr()); ... }] *)
Fixpoint ArgsLoop (fuel : nat) (args : list Expr) (lx : Lexer)
    : Result (list Expr) :=
  match fuel with
  | O => OutOfFuel
  | S f =>
    let lx1 := Next lx in
    if Token.Is (Current lx1) Token.RPAREN then Ok args lx1
    else
      bind (ParseExpr lx1) (fun e lx2 =>
        let args1 := args ++ [e] in
        if negb (Token.Is (Current lx2) Token.COMMA) then Ok args1 lx2
        else ArgsLoop f args1 lx2)
  end.

Fixpoint CallLoop (n fuel : nat) (callee : Expr) (lx : Lexer) : Result Expr :=
  match fuel with
  | O => OutOfFuel
  | S f =>
    if Token.Is (Current lx) Token.LPAREN then
      bind (ArgsLoop n [] lx) (fun args lx1 =>
      bind (Check Token.RPAREN lx1) (fun _ lx2 =>
        CallLoop n f (CallExpr callee args) (Next lx2)))
    else Ok callee lx
  end.

Definition ParseCallExpr (n : nat) (lx : Lexer) : Result Expr :=
  bind (ParseTermExpr lx) (fun callee lx1 => CallLoop n n callee lx1).

Fixpoint MulDivModLoop (n fuel : nat) (term : Expr) (lx : Lexer) : Result Expr :=
  match fuel with
  | O => OutOfFuel
  | S f =>
    if Token.Is (Current lx) Token.MUL || Token.Is (Current lx) Token.DIV
       || Token.Is (Current lx) Token.MOD then
      if Token.Is (Current lx) Token.MUL then
        bind (ParseCallExpr n (Next lx)) (fun rhs lx1 =>
          MulDivModLoop n f (BinaryExpr Kind.MUL term rhs) lx1)
      else if Token.Is (Current lx) Token.DIV then
        bind (ParseCallExpr n (Next lx)) (fun rhs lx1 =>
          MulDivModLoop n f (BinaryExpr Kind.DIV term rhs) lx1)
      else
        bind (ParseCallExpr n (Next lx)) (fun rhs lx1 =>
          MulDivModLoop n f (BinaryExpr Kind.MOD term rhs) lx1)
    else Ok term lx
  end.

Definition ParseMulDivModExpr (n : nat) (lx : Lexer) : Result Expr :=
  bind (ParseCallExpr n lx) (fun term lx1 => MulDivModLoop n n term lx1).

Fixpoint AddSubLoop (n fuel : nat) (term : Expr) (lx : Lexer) : Result Expr :=
  match fuel with
  | O => OutOfFuel
  | S f =>
    if Token.Is (Current lx) Token.PLUS || Token.Is (Current lx) Token.MINUS then
      if Token.Is (Current lx) Token.PLUS then
        bind (ParseMulDivModExpr n (Next lx)) (fun rhs lx1 =>
          AddSubLoop n f (BinaryExpr Kind.ADD term rhs) lx1)
      else
        bind (ParseMulDivModExpr n (Next lx)) (fun rhs lx1 =>
          AddSubLoop n f (BinaryExpr Kind.SUB term rhs) lx1)
    else Ok term lx
  end.

Definition ParseAddSubExpr (n : nat) (lx : Lexer) : Result Expr :=
  bind (ParseMulDivModExpr n lx) (fun term lx1 => AddSubLoop n n term lx1).

(** The node kind is chosen from [Current()] AFTER the right operand has
    been parsed, as the source has it. *)
Definition comparison_kind_at (tk : Token.t) : Kind.t :=
  if Token.Is tk Token.GREATER then Kind.GREATER
  else if Token.Is tk Token.LOWER then Kind.LOWER
  else if Token.Is tk Token.GREATER_EQ then Kind.GREATER_EQ
  else if Token.Is tk Token.LOWER_EQ then Kind.LOWER_EQ
  else Kind.IS_EQ.

Fixpoint CompLoop (n fuel : nat) (term : Expr) (lx : Lexer) : Result Expr :=
  match fuel with
  | O => OutOfFuel
  | S f =>
    if is_comparison (Current lx) then
      bind (ParseAddSubExpr n (Next lx)) (fun rhs lx1 =>
        CompLoop n f (BinaryExpr (comparison_kind_at (Current lx1)) term rhs) lx1)
    else Ok term lx
  end.

Definition ParseCompExpr (n : nat) (lx : Lexer) : Result Expr :=
  bind (ParseAddSubExpr n lx) (fun term lx1 => CompLoop n n term lx1).

End Expressions.

(** Modelled from the spec: [Parser::ParseExpr] of the absent [parser.h];
    comparison is the lowest level of precedence, so an expression is a
    comparison expression. *)
Fixpoint ParseExpr (fuel : nat) (lx : Lexer) : Result Expr :=
  match fuel with
  | O => OutOfFuel
  | S f => ParseCompExpr (ParseExpr f) fuel lx
  end.

(** The lexer positioned on the first token of an input. *)
Definition lexer_of (tokens : list Token.t) : Lexer :=
  Next (mkLexer Token.End_ tokens).

End Parser.

(** ** Further properties of the generator: what they are stated with *)

Module CodegenMoreSpec.
Import Bytes Codegen CodegenSpec.

(** Two fixup sites are the same site or their eight byte placeholders do
    not overlap. *)
Definition sites_apart (locs : list nat) : Prop :=
  ∀ loc loc', loc ∈ locs → loc' ∈ locs →
    loc = loc' ∨ (loc + 8 ≤ loc')%nat ∨ (loc' + 8 ≤ loc)%nat.

(** No label beyond [nextLabel_] is bound yet. *)
Definition labels_fresh (s : State) : Prop :=
  ∀ l, is_Some (labelToAddress_ s !! l) → l <= nextLabel_ s.

(** The scope hands out [l] as the entry of some function. *)
Definition scope_entry (scope : Scope) (l : Label) : Prop :=
  ∃ name, Lookup scope name = Some (FUNC l).

End CodegenMoreSpec.

(** ** Running what the generator emits: what the statements are made of *)

Module RunSpec.
Import Bytes Interp.

(** The first [n] iterations of the loop of [Interp::Run]; an iteration
    that does not [continue] ends them. *)
Fixpoint steps (n : nat) (st : State) : Outcome :=
  match n with
  | O => Continue st
  | S m =>
    match step st with
    | Continue st' => steps m st'
    | o => o
    end
  end.

(** The opcode that [Codegen::LowerBinaryExpr] emits for a node kind. *)
Definition kind_opcode (k : Kind.t) : Opcode :=
  match k with
  | Kind.ADD => ADD
  | Kind.SUB => SUB
  | Kind.MUL => MUL
  | Kind.DIV => DIV
  | Kind.MOD => MOD
  | Kind.GREATER => GREATER
  | Kind.LOWER => LOWER
  | Kind.GREATER_EQ => GREATER_EQ
  | Kind.LOWER_EQ => LOWER_EQ
  | Kind.IS_EQ => IS_EQ
  end.

(** What evaluating an expression comes to: a value, a [RuntimeError], or
    undefined behaviour. *)
Inductive Res :=
  | Val (v : Z)
  | Fault (msg : string)
  | Undef.

(** What the [case] of the operator's opcode does with the operands [lhs]
    and [rhs] ([rhs] on top), read off [exec] itself. *)
Definition binop (k : Kind.t) (lhs rhs : Z) : Res :=
  match exec (kind_opcode k) (mkState [] 0 [VInt rhs; VInt lhs]) with
  | Continue st =>
    match stack_ st with
    | [VInt v] => Val v
    | _ => Undef
    end
  | Throw msg => Fault msg
  | _ => Undef
  end.

(** Expressions made of integer literals and binary operators only. *)
Fixpoint arith (e : Expr) : bool :=
  match e with
  | IntExpr _ => true
  | BinaryExpr _ lhs rhs => arith lhs && arith rhs
  | _ => false
  end.

(** The tree walk that the emitted code is compared with: operands left to
    right, the first fault ends the evaluation. *)
Fixpoint eval (e : Expr) : Res :=
  match e with
  | IntExpr n => Val (wrap64 n)
  | BinaryExpr k lhs rhs =>
    match eval lhs with
    | Val a =>
      match eval rhs with
      | Val b => binop k a b
      | r => r
      end
    | r => r
    end
  | _ => Undef
  end.

(** The outcome of the loop for a result, [k v] being the state reached with
    the value [v]. *)
Definition finish (r : Res) (k : Z → State) : Outcome :=
  match r with
  | Val v => Continue (k v)
  | Fault msg => Throw msg
  | Undef => Undefined
  end.

(** How the run of a piece of code ends before the end of the code, if it
    does: with the fault of an expression. *)
Definition expr_stop (e : Expr) : option Outcome :=
  match eval e with
  | Val _ => None
  | Fault msg => Some (Throw msg)
  | Undef => Some Undefined
  end.

Definition first_of {A} (f : A → option Outcome) : list A → option Outcome :=
  fix go (l : list A) : option Outcome :=
    match l with
    | [] => None
    | x :: rest =>
      match f x with
      | None => go rest
      | o => o
      end
    end.

(** Statements made of expression statements over literals and binary
    operators, [if] on such expressions, and blocks. *)
Fixpoint simple (st : Stmt) : bool :=
  match st with
  | ExprStmt e => arith e
  | IfStmt cond stmt elseStmt =>
    arith cond && simple stmt
    && match elseStmt with Some e => simple e | None => true end
  | BlockStmt body => forallb simple body
  | _ => false
  end.

(** The tree walk of such a statement: the branch of an [if] is chosen by
    the value of the condition, zero being false. *)
Fixpoint stmt_stop (st : Stmt) : option Outcome :=
  match st with
  | ExprStmt e => expr_stop e
  | IfStmt cond stmt elseStmt =>
    match eval cond with
    | Val v =>
      if v =? 0 then
        match elseStmt with
        | Some e => stmt_stop e
        | None => None
        end
      else stmt_stop stmt
    | Fault msg => Some (Throw msg)
    | Undef => Some Undefined
    end
  | BlockStmt body => first_of stmt_stop body
  | _ => None
  end.

(** A module whose top-level statements are expression statements over
    literals and binary operators; functions and prototypes may be declared. *)
Definition arith_top (item : TopLevelStmt) : bool :=
  match item with
  | TStmt (ExprStmt e) => arith e
  | TStmt _ => false
  | _ => true
  end.

Definition item_stop (item : TopLevelStmt) : option Outcome :=
  match item with
  | TStmt (ExprStmt e) => expr_stop e
  | _ => None
  end.

(** The fault of the first top-level expression statement that has one. *)
Definition module_stop (mod_ : Module_) : option Outcome :=
  first_of item_stop mod_.

(** The code [c], placed at offset [base] of any program, runs to its end
    and leaves the stack as it was, or ends with [stop]. *)
Definition runs_to (stop : option Outcome) (c : list Z) (base : nat) : Prop :=
  ∀ pre post stk, length pre = base →
    ∃ n, steps n (mkState (pre ++ c ++ post) (Z.of_nat base) stk)
         = match stop with
           | None => Continue (mkState (pre ++ c ++ post)
                                 (Z.of_nat base + Z.of_nat (length c)) stk)
           | Some o => o
           end.

(** No label beyond [nextLabel_] is bound or has a fixup site. *)
Definition clean (s : Codegen.State) : Prop :=
  ∀ l, Codegen.nextLabel_ s < l →
    Codegen.labelToAddress_ s !! l = None ∧ Codegen.sites s l = [].

(** What the induction over simple statements carries. *)
Definition Stmt_runs (st : Stmt) : Prop :=
  ∀ scope s scope' s',
    simple st = true → clean s →
    Codegen.LowerStmt scope st s = Codegen.Ok (scope', s') →
    scope' = scope ∧ Codegen.nextLabel_ s <= Codegen.nextLabel_ s' ∧ clean s'
    ∧ (∀ l, l <= Codegen.nextLabel_ s →
         Codegen.labelToAddress_ s' !! l = Codegen.labelToAddress_ s !! l
         ∧ Codegen.sites s' l = Codegen.sites s l)
    ∧ ∃ c, Codegen.code_ s' = Codegen.code_ s ++ c
        ∧ (Z.of_nat (length (Codegen.code_ s')) < 2 ^ 32 →
           runs_to (stmt_stop st) c (length (Codegen.code_ s))).

End RunSpec.

(** ** The shape of what the expression parser returns *)

Module ParserSpec.
Import Parser.

(** The level of the grammar at which a node is built: 0 for terms and
    calls, 1 for [* / %], 2 for [+ -], 3 for comparisons. *)
Definition level_of (k : Kind.t) : nat :=
  match k with
  | Kind.MUL | Kind.DIV | Kind.MOD => 1
  | Kind.ADD | Kind.SUB => 2
  | _ => 3
  end.

Definition level (e : Expr) : nat :=
  match e with
  | BinaryExpr k _ _ => level_of k
  | _ => 0
  end.

(** The left operand of an operator is built at the operator's level or
    below, the right operand strictly below; a callee is a term or a call. *)
Fixpoint shaped (e : Expr) : bool :=
  match e with
  | BinaryExpr k lhs rhs =>
    (level lhs <=? level_of k)%nat && (level rhs <? level_of k)%nat
    && shaped lhs && shaped rhs
  | CallExpr callee args =>
    (level callee =? 0)%nat && shaped callee && forallb shaped args
  | _ => true
  end.

(** The number of tokens the lexer can still deliver, the current one
    included; [END] after the last token counts for nothing. *)
Definition remaining (lx : Lexer) : nat :=
  match pending lx with
  | [] => if Token.Is (tk_ lx) Token.END then 0 else 1
  | _ :: _ => S (length (pending lx))
  end.

(** A parser that has come to an end, by a tree or by [ParserError], and in
    the first case has left fewer than [m] tokens. *)
Definition ends_below {A} (m : nat) (r : Result A) : Prop :=
  match r with
  | Ok _ lx' => (remaining lx' < m)%nat
  | ParserError _ => True
  | OutOfFuel => False
  end.

End ParserSpec.

(** ** The statement and module parser ([parser.cpp]) *)

Module ParserStmt.
Import Parser.

(** [Expect]: advance, then [Check]. *)
Definition Expect (kind : Token.Kind) (lx : Lexer) : Result unit :=
  Check kind (Next lx).

Definition GetString (tk : Token.t) : string := Token.StringValue tk.

Section Statements.

(** [ParseExpr], and [ParseStmt] for the statements inside a statement. *)
Variable ParseExpr : Lexer → Result Expr.
Variable ParseStmt : Lexer → Result Stmt.

(** [while (!lexer_.Next().Is(RBRACE)) { body.push_back(ParseStmt()); ... }] *)
Fixpoint BlockLoop (fuel : nat) (body : list Stmt) (lx : Lexer)
    : Result (list Stmt) :=
  match fuel with
  | O => OutOfFuel
  | S f =>
    let lx1 := Next lx in
    if Token.Is (Current lx1) Token.RBRACE then Ok body lx1
    else
      bind (ParseStmt lx1) (fun st lx2 =>
        let body1 := body ++ [st] in
        if negb (Token.Is (Current lx2) Token.SEMI) then Ok body1 lx2
        else BlockLoop f body1 lx2)
  end.

(** The statements of the block; [ParseModule] stores them in a [FuncDecl]. *)
Definition ParseBlockBody (n : nat) (lx : Lexer) : Result (list Stmt) :=
  bind (Check Token.LBRACE lx) (fun _ lx0 =>
  bind (BlockLoop n [] lx0) (fun body lx1 =>
  bind (Check Token.RBRACE lx1) (fun _ lx2 =>
    Ok body (Next lx2)))).

Definition ParseBlockStmt (n : nat) (lx : Lexer) : Result Stmt :=
  bind (ParseBlockBody n lx) (fun body lx1 => Ok (BlockStmt body) lx1).

Definition ParseReturnStmt (lx : Lexer) : Result Stmt :=
  bind (Check Token.RETURN lx) (fun _ lx0 =>
  bind (ParseExpr (Next lx0)) (fun e lx1 =>
    Ok (ReturnStmt e) lx1)).

Definition ParseWhileStmt (lx : Lexer) : Result Stmt :=
  bind (Check Token.WHILE lx) (fun _ lx0 =>
  bind (Expect Token.LPAREN lx0) (fun _ lx1 =>
  bind (ParseExpr (Next lx1)) (fun cond lx2 =>
  bind (Check Token.RPAREN lx2) (fun _ lx3 =>
  bind (ParseStmt (Next lx3)) (fun stmt lx4 =>
    Ok (WhileStmt cond stmt) lx4))))).

Definition ParseIfStmt (lx : Lexer) : Result Stmt :=
  bind (Check Token.IF lx) (fun _ lx0 =>
  bind (Expect Token.LPAREN lx0) (fun _ lx1 =>
  bind (ParseExpr (Next lx1)) (fun cond lx2 =>
  bind (Check Token.RPAREN lx2) (fun _ lx3 =>
  bind (ParseStmt (Next lx3)) (fun stmt lx4 =>
    if Token.Is (Current lx4) Token.ELSE then
      bind (ParseStmt (Next lx4)) (fun elseStmt lx5 =>
        Ok (IfStmt cond stmt (Some elseStmt)) lx5)
    else Ok (IfStmt cond stmt None) lx4))))).

Definition ParseLetStmt (lx : Lexer) : Result Stmt :=
  bind (Check Token.LET lx) (fun _ lx0 =>
  bind (Expect Token.IDENT lx0) (fun _ lx1 =>
  let name := Token.GetIdent (Current lx1) in
  bind (Expect Token.COLON lx1) (fun _ lx2 =>
  bind (Expect Token.IDENT lx2) (fun _ lx3 =>
  let type := Token.GetIdent (Current lx3) in
  let lx4 := Next lx3 in
  if Token.Is (Current lx4) Token.EQUAL then
    bind (ParseExpr (Next lx4)) (fun init lx5 =>
      Ok (LetStmt name type (Some init)) lx5)
  else Ok (LetStmt name type None) lx4)))).

(** The [switch] of [ParseStmt]. *)
Definition ParseStmtAt (n : nat) (lx : Lexer) : Result Stmt :=
  match Token.GetKind (Current lx) with
  | Token.RETURN => ParseReturnStmt lx
  | Token.WHILE => ParseWhileStmt lx
  | Token.IF => ParseIfStmt lx
  | Token.LBRACE => ParseBlockStmt n lx
  | Token.LET => ParseLetStmt lx
  | _ => bind (ParseExpr lx) (fun e lx1 => Ok (ExprStmt e) lx1)
  end.

End Statements.

Fixpoint ParseStmt (fuel : nat) (lx : Lexer) : Result Stmt :=
  match fuel with
  | O => OutOfFuel
  | S f => ParseStmtAt (Parser.ParseExpr fuel) (ParseStmt f) fuel lx
  end.

(** What [ParseModule] comes to: besides [ParserError], the assertion of
    [Token::GetIdent] ([lexer.h]) can fail, which the argument loop calls on
    a token it has not checked. *)
Inductive ModuleResult (A : Type) :=
  | Parsed (a : A) (lx : Lexer)
  | Throws (msg : string)
  | Aborts (msg : string)
  | NoFuel.
Arguments Parsed {A} a lx.
Arguments Throws {A} msg.
Arguments Aborts {A} msg.
Arguments NoFuel {A}.

Definition lift {A} (r : Result A) : ModuleResult A :=
  match r with
  | Ok a lx => Parsed a lx
  | ParserError msg => Throws msg
  | OutOfFuel => NoFuel
  end.

Definition mbind {A B} (r : ModuleResult A) (k : A → Lexer → ModuleResult B)
    : ModuleResult B :=
  match r with
  | Parsed a lx => k a lx
  | Throws msg => Throws msg
  | Aborts msg => Aborts msg
  | NoFuel => NoFuel
  end.

(** [while (!lexer_.Next().Is(RPAREN)) { std::string arg(Current().GetIdent());
    ... }]: the parameters of a function. *)
Fixpoint ParamLoop (fuel : nat) (args : list (string * string)) (lx : Lexer)
    : ModuleResult (list (string * string)) :=
  match fuel with
  | O => NoFuel
  | S f =>
    let lx1 := Next lx in
    if Token.Is (Current lx1) Token.RPAREN then Parsed args lx1
    else if negb (Token.Is (Current lx1) Token.IDENT) then Aborts "not an identifier"
    else
      let arg := Token.GetIdent (Current lx1) in
      mbind (lift (Expect Token.COLON lx1)) (fun _ lx2 =>
      mbind (lift (Expect Token.IDENT lx2)) (fun _ lx3 =>
      let args1 := args ++ [(arg, Token.GetIdent (Current lx3))] in
      let lx4 := Next lx3 in
      if negb (Token.Is (Current lx4) Token.COMMA) then Parsed args1 lx4
      else ParamLoop f args1 lx4))
  end.

(** The [FUNC] branch of [ParseModule]: a prototype or a declaration. *)
Definition ParseFunc (n : nat) (lx : Lexer) : ModuleResult TopLevelStmt :=
  mbind (lift (Expect Token.IDENT lx)) (fun _ lx1 =>
  let name := Token.GetIdent (Current lx1) in
  mbind (lift (Expect Token.LPAREN lx1)) (fun _ lx2 =>
  mbind (ParamLoop n [] lx2) (fun args lx3 =>
  mbind (lift (Check Token.RPAREN lx3)) (fun _ lx4 =>
  mbind (lift (Expect Token.COLON lx4)) (fun _ lx5 =>
  mbind (lift (Expect Token.IDENT lx5)) (fun _ lx6 =>
  let type := Token.GetIdent (Current lx6) in
  let lx7 := Next lx6 in
  if Token.Is (Current lx7) Token.EQUAL then
    mbind (lift (Expect Token.STRING lx7)) (fun _ lx8 =>
      Parsed (TProto (mkProtoDecl name args type (GetString (Current lx8))))
             (Next lx8))
  else
    mbind (lift (ParseBlockBody (ParseStmt n) n lx7)) (fun block lx8 =>
      Parsed (TFunc (mkFuncDecl name args type block)) lx8))))))).

(** [while (auto tk = Current()) { ... }] *)
Fixpoint ModuleLoop (n fuel : nat) (body : Module_) (lx : Lexer)
    : ModuleResult Module_ :=
  match fuel with
  | O => NoFuel
  | S f =>
    if Token.Is (Current lx) Token.END then Parsed body lx
    else if Token.Is (Current lx) Token.FUNC then
      mbind (ParseFunc n lx) (fun item lx1 => ModuleLoop n f (body ++ [item]) lx1)
    else
      mbind (lift (ParseStmt n lx)) (fun stmt lx1 =>
        ModuleLoop n f (body ++ [TStmt stmt]) lx1)
  end.

Definition ParseModule (fuel : nat) (lx : Lexer) : ModuleResult Module_ :=
  ModuleLoop fuel fuel [] lx.

(** [ends_below] for what [ParseModule] and its parts come to; a failed
    assertion is an end as well. *)
Definition module_ends_below {A} (m : nat) (r : ModuleResult A) : Prop :=
  match r with
  | Parsed _ lx' => (ParserSpec.remaining lx' < m)%nat
  | Throws _ | Aborts _ => True
  | NoFuel => False
  end.

End ParserStmt.

(** ** From tokens to a run: what the statements are made of *)

Module PipelineSpec.
Import Parser.

(** Integer literals, the binary operators and the end of the input. *)
Definition plain_kind (k : Token.Kind) : bool :=
  match k with
  | Token.INT | Token.PLUS | Token.MINUS | Token.MUL | Token.DIV | Token.MOD
  | Token.GREATER | Token.LOWER | Token.GREATER_EQ | Token.LOWER_EQ
  | Token.IS_EQ | Token.END => true
  | _ => false
  end.

Definition plain (tk : Token.t) : bool := plain_kind (Token.GetKind tk).

Definition plain_lexer (lx : Lexer) : bool :=
  plain (tk_ lx) && forallb plain (pending lx).

(** The number of stack slots the code of an expression over literals and
    binary operators needs above the slots it starts with. *)
Fixpoint stack_need (e : Expr) : nat :=
  match e with
  | IntExpr _ => 1
  | BinaryExpr _ lhs rhs => stack_need lhs `max` S (stack_need rhs)
  | _ => 0
  end.

(** A top-level expression statement as the parser builds it from such
    tokens. *)
Definition literal_item (item : TopLevelStmt) : bool :=
  match item with
  | TStmt (ExprStmt e) => RunSpec.arith e && ParserSpec.shaped e
  | _ => false
  end.

End PipelineSpec.

(** ** The layout of a translated module, in the words of the specification *)

Module LayoutSpec.
Import Bytes Codegen CodegenSpec.

(** The top-level part: the statements in source order, each lowered where
    the previous one stopped; [cs] holds, statement by statement, the bytes
    that the statement appended to the stream. *)
Fixpoint stmts_in_order (stmts : list Stmt) (scope : Scope) (s : State)
    (cs : list (list Z)) (scope' : Scope) (s' : State) : Prop :=
  match stmts, cs with
  | [], [] => scope' = scope ∧ s' = s
  | stmt :: rest, c :: cs' =>
    ∃ scope1 s1,
      LowerStmt scope stmt s = Ok (scope1, s1)
      ∧ code_ s1 = code_ s ++ c
      ∧ stmts_in_order rest scope1 s1 cs' scope' s'
  | _, _ => False
  end.

(** The functions in source order: the entry label of a function is emitted
    at the end of the stream as it stands, which writes that offset into the
    references to the function recorded so far, and the lowered body [f] is
    appended; [fs] holds the bodies, function by function. *)
Fixpoint funcs_in_order (decls : list FuncDecl) (scope : Scope) (s : State)
    (fs : list (list Z)) (s' : State) : Prop :=
  match decls, fs with
  | [], [] => s' = s
  | decl :: rest, f :: fs' =>
    ∃ label s1,
      funcs_ s !! fd_name decl = Some label
      ∧ LowerFuncDecl scope decl s = Ok s1
      ∧ code_ s1 = code_ (EmitLabel label s) ++ f
      ∧ labelToAddress_ s1 !! label
        = Some (default (length (code_ s)) (labelToAddress_ s !! label))
      ∧ funcs_in_order rest scope s1 fs' s'
  | _, _ => False
  end.

(** A step that forgets no fixup site. *)
Definition keeps_sites (s s' : State) : Prop :=
  ∀ l loc, loc ∈ sites s l → loc ∈ sites s' l.

(** Offset [i] lies in the four bytes that binding the label of a function
    overwrites: the operand of a reference to a function that was lowered
    before the function itself. *)
Definition in_call_site (s : State) (i : nat) : Prop :=
  ∃ name label loc,
    funcs_ s !! name = Some label ∧ loc ∈ sites s label
    ∧ (loc ≤ i < loc + 4)%nat.

(** What the induction over statements carries: from a clean generator,
    under a scope whose function entries were minted before, a statement
    leaves the generator clean and the stream it found untouched. *)
Definition Stmt_appends (stmt : Stmt) : Prop :=
  ∀ scope s scope' s',
    RunSpec.clean s → scope_entries scope (λ l, l <= nextLabel_ s) →
    LowerStmt scope stmt s = Ok (scope', s') →
    RunSpec.clean s' ∧ ∃ c, code_ s' = code_ s ++ c.

(** A module with two top-level statements around a function, the first of
    which calls the function. *)
Definition layout_demo : Module_ :=
  [ TStmt (ExprStmt (CallExpr (RefExpr "f") []));
    TFunc (mkFuncDecl "f" [] "int" [ReturnStmt (IntExpr 1)]);
    TStmt (ExprStmt (IntExpr 8)) ].

End LayoutSpec.

(** * Properties *)

(** ** Byte-level facts *)

Module BytesFacts.
Import Bytes.

Lemma length_le_bytes n v : length (le_bytes n v) = n.
Proof. revert v; induction n as [|n IH]; intros v; simpl; [done|]. by rewrite IH. Qed.

Lemma le_value_le_bytes n v :
  le_value (le_bytes n v) = v mod 256 ^ Z.of_nat n.
Proof.
  revert v; induction n as [|n IH]; intros v.
  - simpl. by rewrite Z.mod_1_r.
  - cbn [le_bytes le_value]. rewrite IH.
    rewrite Nat2Z.inj_succ, Z.pow_succ_r by lia.
    rewrite Z.rem_mul_r by lia. lia.
Qed.

Lemma le_value_app bs1 bs2 :
  le_value (bs1 ++ bs2) = le_value bs1 + 256 ^ Z.of_nat (length bs1) * le_value bs2.
Proof.
  induction bs1 as [|b r IH]; [simpl; lia|].
  cbn [app le_value length]. rewrite IH, Nat2Z.inj_succ, Z.pow_succ_r by lia. lia.
Qed.

Lemma wrap64_id z : is_int64 z → wrap64 z = z.
Proof.
  unfold is_int64, INT64_MIN, INT64_MAX, wrap64. intros H.
  rewrite Z.mod_small; lia.
Qed.

Lemma wrap64_range z : is_int64 (wrap64 z).
Proof.
  unfold is_int64, INT64_MIN, INT64_MAX, wrap64.
  pose proof (Z.mod_pos_bound (z + 2 ^ 63) (2 ^ 64)). lia.
Qed.

Lemma wrap64_cases z :
  - 2 ^ 64 <= z < 2 ^ 64 →
  (is_int64 z ∧ wrap64 z = z)
  ∨ (INT64_MAX < z ∧ wrap64 z = z - 2 ^ 64)
  ∨ (z < INT64_MIN ∧ wrap64 z = z + 2 ^ 64).
Proof.
  unfold is_int64, INT64_MIN, INT64_MAX, wrap64. intros Hz.
  destruct (Z_lt_le_dec z (- 2 ^ 63)) as [Hlo|Hlo];
    [|destruct (Z_lt_le_dec z (2 ^ 63)) as [Hhi|Hhi]].
  - right; right. split; [lia|].
    replace (z + 2 ^ 63) with ((z + 2 ^ 64 + 2 ^ 63) + (-1) * 2 ^ 64) by lia.
    rewrite Z.mod_add by lia. rewrite Z.mod_small; lia.
  - left. split; [lia|]. rewrite Z.mod_small; lia.
  - right; left. split; [lia|].
    replace (z + 2 ^ 63) with ((z - 2 ^ 64 + 2 ^ 63) + 1 * 2 ^ 64) by lia.
    rewrite Z.mod_add by lia. rewrite Z.mod_small; lia.
Qed.

Lemma le_bytes_mod n v : le_bytes n (v mod 256 ^ Z.of_nat n) = le_bytes n v.
Proof.
  revert v; induction n as [|n IH]; intros v; [done|].
  cbn [le_bytes]. rewrite Nat2Z.inj_succ, Z.pow_succ_r by lia.
  assert (0 < 256 ^ Z.of_nat n) by (apply Z.pow_pos_nonneg; lia).
  rewrite Z.rem_mul_r by lia.
  set (x := (v / 256) mod 256 ^ Z.of_nat n).
  rewrite (Z.mul_comm 256 x).
  rewrite Z.mod_add, Z.mod_mod by lia.
  rewrite Z.div_add by lia.
  rewrite (Z.div_small (v mod 256) 256) by (apply Z.mod_pos_bound; lia).
  rewrite Z.add_0_l. subst x. by rewrite IH.
Qed.

Lemma le_bytes_u32 v : le_bytes 4 (u32 v) = le_bytes 4 v.
Proof. apply (le_bytes_mod 4). Qed.

Lemma slice_middle (pre bs post : list Z) loc n :
  loc = length pre → n = length bs → slice loc n (pre ++ bs ++ post) = Some bs.
Proof.
  intros -> ->. unfold slice.
  rewrite drop_app_length, take_app_length.
  case_decide; [done|congruence].
Qed.

End BytesFacts.

(** ** The interpreter *)

Module InterpFacts.
Import Bytes BytesFacts Interp.

Lemma opcode_of_byte_opcode_byte op : opcode_of_byte (opcode_byte op) = Some op.
Proof. by destruct op. Qed.

Lemma Read_middle (pre bs post : list Z) n pc :
  pc = Z.of_nat (length pre) → n = length bs →
  Read n (pre ++ bs ++ post) pc = Some (le_value bs, pc + Z.of_nat n).
Proof.
  intros -> Hn. unfold Read.
  case_decide; [|lia].
  by rewrite (slice_middle pre bs post) by (done || lia).
Qed.

(** Fetching at [at_op] yields the opcode and moves the cursor past it. *)
Lemma step_at_op pre op imm post stk :
  step (at_op pre op imm post stk)
  = exec op (mkState (pre ++ opcode_byte op :: imm ++ post)
                     (Z.of_nat (length pre) + 1) stk).
Proof.
  unfold step, at_op. cbn [prog_ pc_ stack_].
  rewrite (Read_middle pre [opcode_byte op] (imm ++ post) 1) by done.
  cbn [le_value]. replace (opcode_byte op + 256 * 0) with (opcode_byte op) by lia.
  by rewrite opcode_of_byte_opcode_byte.
Qed.

(** Reading the first immediate, which starts right after the opcode. *)
Lemma Read_imm pre b imm rest n :
  n = length imm →
  Read n (pre ++ b :: imm ++ rest) (Z.of_nat (length pre) + 1)
  = Some (le_value imm, Z.of_nat (length pre) + 1 + Z.of_nat n).
Proof.
  intros Hn.
  replace (pre ++ b :: imm ++ rest) with ((pre ++ [b]) ++ imm ++ rest)
    by (by rewrite <- app_assoc).
  apply Read_middle; [|done]. rewrite length_app. simpl. lia.
Qed.

Lemma le_value_u32 v : 0 <= v < 2 ^ 32 → le_value (le_bytes 4 v) = v.
Proof. intros Hv. rewrite le_value_le_bytes. apply Z.mod_small. simpl. lia. Qed.

(** C1: GREATER applied to lhs = 5 and rhs = 3 (rhs on top) pushes 0, although
    5 > 3 holds: the comparison is evaluated as [rhs > lhs]. *)
Theorem GREATER_pushes_0_for_5_3 :
  step (at_op [] GREATER [] [] [VInt 3; VInt 5])
  = Continue (mkState [opcode_byte GREATER] 1 [VInt 0])
  ∧ 5 > 3.
Proof. split; [reflexivity|lia]. Qed.

(** For all operands the ordered comparisons are applied transposed. *)
Lemma comparisons_transposed pre post rest lhs rhs op (f : Z → Z → bool) :
  (op, f) ∈ [(GREATER, Z.gtb); (LOWER, Z.ltb); (GREATER_EQ, Z.geb);
             (LOWER_EQ, Z.leb); (IS_EQ, Z.eqb)] →
  step (at_op pre op [] post (VInt rhs :: VInt lhs :: rest))
  = Continue (mkState (pre ++ opcode_byte op :: post)
                      (Z.of_nat (length pre) + 1)
                      (VInt (b2z (f rhs lhs)) :: rest)).
Proof.
  intros Hop. rewrite step_at_op.
  repeat (apply elem_of_cons in Hop as [[= -> ->]|Hop]; [reflexivity|]).
  by apply elem_of_nil in Hop.
Qed.

Lemma ADD_exec lhs rhs st :
  is_int64 lhs → is_int64 rhs →
  exec ADD (Push (VInt rhs) (Push (VInt lhs) st))
  = if decide (is_int64 (lhs + rhs))
    then Continue (Push (VInt (lhs + rhs)) st)
    else Throw "overflow error".
Proof.
  intros Hl Hr. destruct st as [prog pc stk].
  cbn [exec pop_operands PopInt Pop stack_ prog_ pc_ Push].
  rewrite (Z.add_comm rhs lhs).
  unfold is_int64, INT64_MIN, INT64_MAX in *.
  assert (Ha : - 2 ^ 64 <= lhs + rhs < 2 ^ 64) by lia.
  destruct (wrap64_cases _ Ha) as [[Ia Ea]|[[Ia Ea]|[Ia Ea]]];
    rewrite Ea; unfold is_int64, INT64_MIN, INT64_MAX in *;
    rewrite ?Z.geb_leb;
    repeat match goal with
    | |- context [?a <? ?b] => destruct (Z.ltb_spec a b)
    | |- context [?a <=? ?b] => destruct (Z.leb_spec a b)
    end;
    cbn [andb]; case_decide; try reflexivity; lia.
Qed.

Lemma SUB_exec lhs rhs st :
  is_int64 lhs → is_int64 rhs →
  exec SUB (Push (VInt rhs) (Push (VInt lhs) st))
  = if decide (is_int64 (lhs - rhs))
    then Continue (Push (VInt (lhs - rhs)) st)
    else Throw "overflow error".
Proof.
  intros Hl Hr. destruct st as [prog pc stk].
  cbn [exec pop_operands PopInt Pop stack_ prog_ pc_ Push].
  unfold is_int64, INT64_MIN, INT64_MAX in *.
  assert (Ha : - 2 ^ 64 <= lhs - rhs < 2 ^ 64) by lia.
  destruct (wrap64_cases _ Ha) as [[Ia Ea]|[[Ia Ea]|[Ia Ea]]];
    rewrite Ea; unfold is_int64, INT64_MIN, INT64_MAX in *;
    rewrite ?Z.geb_leb, ?Z.gtb_ltb;
    repeat match goal with
    | |- context [?a <? ?b] => destruct (Z.ltb_spec a b)
    | |- context [?a <=? ?b] => destruct (Z.leb_spec a b)
    end;
    cbn [andb]; case_decide; try reflexivity; lia.
Qed.

(** C3: with two Int operands, ADD throws "overflow error" exactly when the
    mathematical sum leaves the signed 64-bit range and otherwise pushes the
    exact sum; SUB does the same for the difference lhs - rhs. *)
Theorem ADD_SUB_overflow pre post rest lhs rhs :
  is_int64 lhs → is_int64 rhs →
  let stk := VInt rhs :: VInt lhs :: rest in
  let next op v :=
    Continue (mkState (pre ++ opcode_byte op :: post)
                      (Z.of_nat (length pre) + 1) (VInt v :: rest)) in
  (step (at_op pre ADD [] post stk) = Throw "overflow error"
     ↔ ¬ is_int64 (lhs + rhs))
  ∧ (is_int64 (lhs + rhs) → step (at_op pre ADD [] post stk) = next ADD (lhs + rhs))
  ∧ (step (at_op pre SUB [] post stk) = Throw "overflow error"
     ↔ ¬ is_int64 (lhs - rhs))
  ∧ (is_int64 (lhs - rhs) → step (at_op pre SUB [] post stk) = next SUB (lhs - rhs)).
Proof.
  intros Hl Hr stk next. subst stk next. rewrite !step_at_op. cbn [app].
  pose proof (ADD_exec lhs rhs
    (mkState (pre ++ opcode_byte ADD :: post) (Z.of_nat (length pre) + 1) rest)
    Hl Hr) as Ha.
  pose proof (SUB_exec lhs rhs
    (mkState (pre ++ opcode_byte SUB :: post) (Z.of_nat (length pre) + 1) rest)
    Hl Hr) as Hs.
  unfold Push in Ha, Hs. cbn [prog_ pc_ stack_] in Ha, Hs.
  rewrite Ha, Hs. clear Ha Hs.
  repeat split; intros; repeat case_decide; try done.
Qed.

Lemma ADD_SUB_overflow_witness :
  step (at_op [] ADD [] [] [VInt 1; VInt INT64_MAX]) = Throw "overflow error"
  ∧ step (at_op [] SUB [] [] [VInt 1; VInt INT64_MAX])
    = Continue (mkState [opcode_byte SUB] 1 [VInt (INT64_MAX - 1)]).
Proof.
  assert (Hl : is_int64 INT64_MAX) by (unfold is_int64, INT64_MIN, INT64_MAX; lia).
  assert (Hr : is_int64 1) by (unfold is_int64, INT64_MIN, INT64_MAX; lia).
  pose proof (ADD_SUB_overflow [] [] [] INT64_MAX 1 Hl Hr) as (Ha & _ & _ & Hs).
  split.
  - apply Ha. unfold is_int64, INT64_MIN, INT64_MAX. lia.
  - apply Hs. unfold is_int64, INT64_MIN, INT64_MAX. lia.
Defined.

(** C5 (as stated) fails: for lhs = -2^63 and rhs = -1 the divisor is not
    zero, yet DIV does not push the truncated quotient, which is 2^63 and is
    no Int at all. *)
Lemma DIV_min_by_minus_one :
  ¬ (∀ lhs rhs, is_int64 lhs → is_int64 rhs → rhs ≠ 0 →
       step (at_op [] DIV [] [] [VInt rhs; VInt lhs])
       = Continue (mkState [opcode_byte DIV] 1 [VInt (Z.quot lhs rhs)])).
Proof.
  intros H. specialize (H INT64_MIN (-1)).
  assert (Hl : is_int64 INT64_MIN) by (unfold is_int64, INT64_MIN, INT64_MAX; lia).
  assert (Hr : is_int64 (-1)) by (unfold is_int64, INT64_MIN, INT64_MAX; lia).
  specialize (H Hl Hr ltac:(lia)). discriminate H.
Qed.

Lemma quot_in_range lhs rhs :
  is_int64 lhs → is_int64 rhs → rhs ≠ 0 → ¬ div_overflows lhs rhs →
  is_int64 (Z.quot lhs rhs) ∧ is_int64 (Z.rem lhs rhs).
Proof.
  unfold is_int64, INT64_MIN, INT64_MAX, div_overflows, INT64_MIN.
  intros Hl Hr Hz Hov.
  pose proof (Z.rem_bound_abs lhs rhs Hz) as Hrb.
  split; [|lia].
  destruct (Z.eq_dec rhs 1) as [->|H1]; [rewrite Z.quot_1_r; lia|].
  destruct (Z.eq_dec rhs (-1)) as [->|Hm1].
  { change (-1) with (- (1)). rewrite (Z.quot_opp_r lhs 1), Z.quot_1_r by lia. lia. }
  destruct (Z.eq_dec lhs 0) as [->|H0]; [rewrite Z.quot_0_l by lia; lia|].
  assert (Z.abs (Z.quot lhs rhs) < Z.abs lhs); [|lia].
  rewrite <- Z.quot_abs by lia. apply Z.quot_lt; lia.
Qed.

(** C5 (amended): DIV and MOD throw "division by 0" exactly when rhs is 0;
    when rhs is not 0 and the quotient fits (not -2^63 / -1), DIV pushes the
    truncated quotient and MOD the remainder, in place of both operands. *)
Theorem DIV_MOD_semantics pre post rest lhs rhs :
  is_int64 lhs → is_int64 rhs →
  let stk := VInt rhs :: VInt lhs :: rest in
  let next op v :=
    Continue (mkState (pre ++ opcode_byte op :: post)
                      (Z.of_nat (length pre) + 1) (VInt v :: rest)) in
  (step (at_op pre DIV [] post stk) = Throw "division by 0" ↔ rhs = 0)
  ∧ (step (at_op pre MOD [] post stk) = Throw "division by 0" ↔ rhs = 0)
  ∧ (rhs ≠ 0 → ¬ div_overflows lhs rhs →
       step (at_op pre DIV [] post stk) = next DIV (Z.quot lhs rhs)
       ∧ step (at_op pre MOD [] post stk) = next MOD (Z.rem lhs rhs)
       ∧ is_int64 (Z.quot lhs rhs) ∧ is_int64 (Z.rem lhs rhs)).
Proof.
  intros Hl Hr stk next. subst stk next. rewrite !step_at_op.
  cbn [exec pop_operands PopInt Pop stack_ prog_ pc_ app]. unfold Push.
  cbn [stack_ prog_ pc_].
  destruct (Z.eqb_spec rhs 0) as [->|Hz].
  - repeat split; intros; try done.
  - assert (Hcase : (lhs =? INT64_MIN) && (rhs =? -1) = true ↔ div_overflows lhs rhs).
    { unfold div_overflows. rewrite andb_true_iff, !Z.eqb_eq. done. }
    destruct ((lhs =? INT64_MIN) && (rhs =? -1)) eqn:E.
    + repeat split; intros; try done. all: exfalso; tauto.
    + repeat split; intros; try done.
      all: apply quot_in_range; try done.
Qed.

Lemma DIV_MOD_semantics_witness :
  step (at_op [] DIV [] [] [VInt 2; VInt (-7)])
  = Continue (mkState [opcode_byte DIV] 1 [VInt (-3)])
  ∧ step (at_op [] MOD [] [] [VInt 2; VInt (-7)])
    = Continue (mkState [opcode_byte MOD] 1 [VInt (-1)]).
Proof.
  assert (Hl : is_int64 (-7)) by (unfold is_int64, INT64_MIN, INT64_MAX; lia).
  assert (Hr : is_int64 2) by (unfold is_int64, INT64_MIN, INT64_MAX; lia).
  pose proof (DIV_MOD_semantics [] [] [] (-7) 2 Hl Hr) as (_ & _ & H).
  destruct H as (Hd & Hm & _).
  - lia.
  - unfold div_overflows, INT64_MIN. lia.
  - split; [exact Hd|exact Hm].
Defined.

(** What RET does on a stack of the shape the calling convention builds. *)
Lemma RET_step pre post v locals a args rest depth nargs :
  Z.of_nat (length locals) = depth → Z.of_nat (length args) = nargs →
  depth < 2 ^ 32 → nargs < 2 ^ 32 →
  step (at_op pre RET (le_bytes 4 depth ++ le_bytes 4 nargs) post
              (v :: locals ++ VAddr a :: args ++ rest))
  = Continue (mkState (pre ++ opcode_byte RET :: (le_bytes 4 depth ++ le_bytes 4 nargs) ++ post)
                      a (v :: rest)).
Proof.
  intros Hd Hn Hd32 Hn32. rewrite step_at_op.
  set (prog := pre ++ _). cbn [exec prog_ pc_].
  subst prog. rewrite <- (app_assoc (le_bytes 4 depth)).
  rewrite (Read_imm pre _ (le_bytes 4 depth) _ 4) by done.
  rewrite le_value_u32 by lia.
  replace (pre ++ opcode_byte RET :: le_bytes 4 depth ++ le_bytes 4 nargs ++ post)
    with ((pre ++ opcode_byte RET :: le_bytes 4 depth) ++ le_bytes 4 nargs ++ post)
    by (by rewrite <- app_assoc).
  rewrite (Read_middle _ (le_bytes 4 nargs) post 4)
    by (rewrite ?length_app; cbn [length]; rewrite ?length_le_bytes; done || lia).
  rewrite le_value_u32 by lia.
  cbn [Pop set_pc stack_ prog_ pc_]. unfold shrink. cbn [stack_ prog_ pc_].
  rewrite decide_True by (rewrite length_app; lia).
  replace (Z.to_nat depth) with (length locals) by lia.
  rewrite drop_app_length. cbn [PopAddr Pop stack_ prog_ pc_ set_pc].
  rewrite decide_True by (rewrite length_app; lia).
  replace (Z.to_nat nargs) with (length args) by lia.
  rewrite drop_app_length. unfold Push. cbn [stack_ prog_ pc_].
  by rewrite <- !app_assoc.
Qed.

(** What PEEK does: it pushes a copy of the element [idx] places below the
    top. *)
Lemma PEEK_step pre post stk idx v :
  0 <= idx < 2 ^ 32 → stk !! Z.to_nat idx = Some v →
  step (at_op pre PEEK (le_bytes 4 idx) post stk)
  = Continue (mkState (pre ++ opcode_byte PEEK :: le_bytes 4 idx ++ post)
                      (Z.of_nat (length pre) + 1 + 4) (v :: stk)).
Proof.
  intros Hidx Hv. rewrite step_at_op. cbn [exec prog_ pc_ stack_].
  rewrite (Read_imm pre _ (le_bytes 4 idx) _ 4) by done.
  rewrite le_value_u32 by lia. by rewrite Hv.
Qed.

End InterpFacts.

(** ** The code generator *)

Module CodegenFacts.
Import Bytes BytesFacts Codegen CodegenSpec.

(** *** Global lookup *)

(** C10: a name bound both as a function and as a prototype resolves to the
    FUNC binding; no lookup of that name in the global scope yields PROTO. *)
Theorem GlobalScope_Lookup_func_first funcs protos (name : string) entry fn :
  funcs !! name = Some entry → protos !! name = Some fn →
  Lookup (GlobalScope funcs protos) name = Some (FUNC entry)
  ∧ ∀ fn', Lookup (GlobalScope funcs protos) name ≠ Some (PROTO fn').
Proof.
  intros Hf Hp. cbn [Lookup]. unfold GlobalScope_Lookup. rewrite Hf.
  split; [done|]. intros fn'. discriminate.
Qed.

Lemma GlobalScope_Lookup_func_first_witness :
  Lookup (GlobalScope {[ "f"%string := 1 ]} {[ "f"%string := 4096 ]}) "f"
  = Some (FUNC 1).
Proof.
  refine (proj1 (GlobalScope_Lookup_func_first
                   {[ "f"%string := 1 ]} {[ "f"%string := 4096 ]} "f" 1 4096 _ _));
    reflexivity.
Defined.

(** *** Label fixups *)

(** Accessors of the state after the label primitives. *)
Lemma sites_set_fixups s m l : sites (set_fixups m s) l = default [] (m !! l).
Proof. done. Qed.

Lemma sites_Emit bs s l : sites (Emit bs s) l = sites s l.
Proof. done. Qed.

Lemma code_EmitLabel l s :
  code_ (EmitLabel l s) = foldl (patch (length (code_ s))) (code_ s) (sites s l).
Proof.
  unfold EmitLabel, sites. destruct (fixups_ s !! l) eqn:E; cbn.
  - by rewrite E.
  - by rewrite lookup_insert_eq.
Qed.

Lemma sites_EmitLabel l s l' : sites (EmitLabel l s) l' = sites s l'.
Proof.
  unfold EmitLabel, sites. destruct (fixups_ s !! l) eqn:E; cbn; [done|].
  destruct (decide (l = l')) as [<-|Hne].
  - by rewrite lookup_insert_eq, E.
  - by rewrite lookup_insert_ne.
Qed.

Lemma labelToAddress_EmitLabel l s :
  labelToAddress_ (EmitLabel l s)
  = emplace l (length (code_ s)) (labelToAddress_ s).
Proof. unfold EmitLabel. by destruct (fixups_ s !! l). Qed.

Lemma EmitFixup_bound l s a :
  labelToAddress_ s !! l = Some a → EmitFixup l s = Emit_size_t (Z.of_nat a) s.
Proof. unfold EmitFixup. by intros ->. Qed.

Lemma code_EmitFixup_unbound l s :
  labelToAddress_ s !! l = None →
  code_ (EmitFixup l s) = code_ s ++ le_bytes 8 0.
Proof. unfold EmitFixup. by intros ->. Qed.

Lemma sites_EmitFixup_unbound l s l' :
  labelToAddress_ s !! l = None →
  sites (EmitFixup l s) l'
  = if decide (l = l') then sites s l ++ [length (code_ s)] else sites s l'.
Proof.
  unfold EmitFixup. intros ->. unfold Emit_size_t, Emit, sites. cbn.
  case_decide as E; [subst; by rewrite lookup_insert_eq|by rewrite lookup_insert_ne].
Qed.

Lemma emplace_lookup_eq `{Countable K} {V} (k : K) (v : V) (m : gmap K V) :
  emplace k v m !! k = Some (default v (m !! k)).
Proof.
  unfold emplace. destruct (m !! k) eqn:E; cbn; [done|]. by rewrite lookup_insert_eq.
Qed.

Lemma emplace_lookup_ne `{Countable K} {V} (k k' : K) (v : V) (m : gmap K V) :
  k ≠ k' → emplace k v m !! k' = m !! k'.
Proof.
  intros Hne. unfold emplace. destruct (m !! k) eqn:E; [done|].
  by rewrite lookup_insert_ne.
Qed.

Lemma EmitLabel_single_site L filler :
  let s := after_jump L filler in
  let s' := EmitLabel L s in
  sites s L = [1%nat]
  ∧ slice 1 8 (code_ s')
    = Some (le_bytes 4 (Z.of_nat (9 + length filler)) ++ [0; 0; 0; 0])
  ∧ labelToAddress_ s' !! L = Some (9 + length filler)%nat
  ∧ code_ (EmitFixup L s')
    = code_ s' ++ le_bytes 8 (Z.of_nat (9 + length filler)).
Proof.
  cbn zeta.
  assert (Hsites : sites (after_jump L filler) L = [1%nat]).
  { unfold after_jump, EmitJump. rewrite sites_Emit.
    rewrite sites_EmitFixup_unbound by done. by rewrite decide_True. }
  assert (Hcode : code_ (after_jump L filler)
                  = opcode_byte JUMP :: le_bytes 8 0 ++ filler).
  { unfold after_jump, Emit. cbn [set_code code_]. unfold EmitJump.
    rewrite code_EmitFixup_unbound by done. by rewrite <- app_assoc. }
  assert (Hlen : length (code_ (after_jump L filler)) = (9 + length filler)%nat).
  { rewrite Hcode. cbn [length]. rewrite length_app, length_le_bytes. done. }
  assert (Hlta : labelToAddress_ (after_jump L filler) = ∅) by done.
  assert (Hbound : labelToAddress_ (EmitLabel L (after_jump L filler)) !! L
                   = Some (9 + length filler)%nat).
  { rewrite labelToAddress_EmitLabel, emplace_lookup_eq, Hlta, lookup_empty.
    cbn [default]. by rewrite Hlen. }
  split; [done|]. split; [|split; [done|]].
  - rewrite code_EmitLabel, Hsites, Hlen, Hcode. cbn [foldl]. unfold patch.
    generalize (Z.of_nat (9 + length filler)) as a. intros a.
    cbn [le_bytes app]. reflexivity.
  - by rewrite (EmitFixup_bound _ _ _ Hbound).
Qed.

Lemma EmitLabel_at_2_32 filler :
  Z.of_nat (9 + length filler) = 2 ^ 32 →
  Z.of_nat (length (code_ (after_jump 7 filler))) = 2 ^ 32
  ∧ sites (after_jump 7 filler) 7 = [1%nat]
  ∧ slice 1 8 (code_ (EmitLabel 7 (after_jump 7 filler))) = Some (le_bytes 8 0)
  ∧ le_bytes 8 0 ≠ le_bytes 8 (2 ^ 32)
  ∧ code_ (EmitFixup 7 (EmitLabel 7 (after_jump 7 filler)))
    = code_ (EmitLabel 7 (after_jump 7 filler)) ++ le_bytes 8 (2 ^ 32).
Proof.
  intros Hlen.
  pose proof (EmitLabel_single_site 7 filler) as H.
  cbn zeta in H. destruct H as (Hs & Hp & _ & Hf).
  rewrite Hlen in Hp, Hf.
  split; [|split; [exact Hs|split; [exact Hp|split; [discriminate|exact Hf]]]].
  rewrite <- Hlen. f_equal.
Qed.

(** C2: with a fixup for L recorded at offset 1 and a stream that has grown
    to 2^32 bytes, [EmitLabel L] leaves eight zero bytes at the site, the
    address 0 and not 2^32, while a later [EmitFixup L] writes 2^32 in
    full: only [sizeof(unsigned)] bytes of the address are patched. *)
Theorem EmitLabel_patches_32_bits :
  Z.of_nat (length (code_ long_stream)) = 2 ^ 32
  ∧ sites long_stream 7 = [1%nat]
  ∧ slice 1 8 (code_ (EmitLabel 7 long_stream)) = Some (le_bytes 8 0)
  ∧ le_bytes 8 0 ≠ le_bytes 8 (2 ^ 32)
  ∧ code_ (EmitFixup 7 (EmitLabel 7 long_stream))
    = code_ (EmitLabel 7 long_stream) ++ le_bytes 8 (2 ^ 32).
Proof.
  unfold long_stream. apply EmitLabel_at_2_32.
  rewrite length_replicate, Nat2Z.inj_add, Z2Nat.id by lia. reflexivity.
Qed.

(** *** Stack depth of blocks *)

(** C8: a block holding a [let] without initialiser trips the generator's
    own assertions: "no elements on stack" when entered at depth 0 (also as
    a function body), "mismatched block depth on exit" when entered at
    depth 1. *)
Theorem let_without_initialiser_breaks_block :
  LowerBlockStmt (GlobalScope ∅ ∅) [LetStmt "x" "int" None] new_Codegen
  = AssertFail "no elements on stack"
  ∧ LowerBlockStmt (GlobalScope ∅ ∅) [LetStmt "x" "int" None]
      (set_depth 1 new_Codegen)
    = AssertFail "mismatched block depth on exit"
  ∧ Translate ∅
      [TFunc (mkFuncDecl "f" [] "int"
                [LetStmt "x" "int" None; ReturnStmt (IntExpr 0)])]
      new_Codegen
    = AssertFail "no elements on stack".
Proof. repeat split; vm_compute; reflexivity. Qed.

(** *** Invariants of the emitted stream *)

Lemma grows_refl s : grows s s.
Proof. split; auto. Qed.

Lemma grows_trans s1 s2 s3 : grows s1 s2 → grows s2 s3 → grows s1 s3.
Proof.
  intros [L1 S1 C1 B1 F1] [L2 S2 C2 B2 F2]. split.
  - lia.
  - intros l loc H3. destruct (S2 _ _ H3) as [H2|H2]; [|right; lia].
    destruct (S1 _ _ H2); auto.
  - intros i Hi Hn. rewrite C2; [by apply C1|lia|].
    intros (l & loc & Hloc & Hrange).
    destruct (S1 _ _ Hloc) as [H1|H1]; [|lia].
    apply Hn. by exists l, loc.
  - auto.
  - congruence.
Qed.

Lemma lowers_refl Y s : lowers Y s s.
Proof. repeat split; auto using grows_refl. Qed.

Lemma lowers_trans Y s1 s2 s3 : lowers Y s1 s2 → lowers Y s2 s3 → lowers Y s1 s3.
Proof.
  intros (I1 & G1 & R1 & F1) (I2 & G2 & R2 & F2).
  split; [auto|]. split; [eauto using grows_trans|]. split; [auto|congruence].
Qed.

(** A change that leaves stream, fixups, bindings and [func_] alone. *)
Lemma lowers_same Y s s' :
  code_ s' = code_ s → fixups_ s' = fixups_ s →
  labelToAddress_ s' = labelToAddress_ s → funcs_ s' = funcs_ s →
  func_ s' = func_ s → lowers Y s s'.
Proof.
  intros Hc Hf Hl Hfs Hfn.
  assert (Hs : ∀ l, sites s' l = sites s l) by (intros; unfold sites; by rewrite Hf).
  repeat split; try done.
  - intros H l loc. rewrite Hs, Hc. apply H.
  - by rewrite Hc.
  - intros l loc. rewrite Hs. auto.
  - intros. by rewrite Hc.
  - intros. by rewrite Hl.
  - intros H l. rewrite Hs, Hl. apply H.
Qed.

Lemma lowers_set_depth Y d s : lowers Y s (set_depth d s).
Proof. by apply lowers_same. Qed.

Lemma lowers_set_nextLabel Y n s : lowers Y s (set_nextLabel n s).
Proof. by apply lowers_same. Qed.

Lemma lowers_Emit Y bs s : lowers Y s (Emit bs s).
Proof.
  repeat split; try done.
  - intros H l loc Hloc. unfold Emit. cbn [code_ set_code].
    rewrite length_app. specialize (H l loc Hloc). lia.
  - unfold Emit. cbn. rewrite length_app. lia.
  - auto.
  - intros i Hi _. unfold Emit. cbn. by rewrite lookup_app_l.
Qed.

Lemma lowers_EmitFixup Y l s :
  is_Some (labelToAddress_ s !! l) ∨ Y l → lowers Y s (EmitFixup l s).
Proof.
  intros HY. destruct (labelToAddress_ s !! l) as [a|] eqn:E.
  { rewrite (EmitFixup_bound _ _ _ E). apply lowers_Emit. }
  assert (Hlta : labelToAddress_ (EmitFixup l s) = labelToAddress_ s).
  { unfold EmitFixup. by rewrite E. }
  pose proof (code_EmitFixup_unbound l s E) as Hc.
  pose proof (λ l', sites_EmitFixup_unbound l s l' E) as Hs.
  repeat split.
  - intros H l' loc. rewrite Hs, Hc, length_app, length_le_bytes.
    case_decide as D.
    + intros [Hin|Hin]%elem_of_app.
      * specialize (H l loc Hin). lia.
      * apply list_elem_of_singleton in Hin as ->. lia.
    + intros Hin. specialize (H l' loc Hin). lia.
  - rewrite Hc, length_app. lia.
  - intros l' loc. rewrite Hs. case_decide as D; [subst l'|auto].
    intros [Hin|Hin]%elem_of_app; [auto|].
    apply list_elem_of_singleton in Hin as ->. auto.
  - intros i Hi _. rewrite Hc. by rewrite lookup_app_l.
  - intros l' a. by rewrite Hlta.
  - unfold EmitFixup. by rewrite E.
  - intros H l'. rewrite Hs, Hlta. case_decide as D; [subst l'|apply H].
    intros _. destruct HY as [[? HY]|HY]; [congruence|auto].
  - unfold EmitFixup. by rewrite E.
Qed.

Lemma length_foldl_patch a locs code :
  length (foldl (patch a) code locs) = length code.
Proof.
  revert code. induction locs as [|loc locs IH]; intros code; [done|].
  cbn [foldl]. rewrite IH. unfold patch. apply length_inserts.
Qed.

Lemma lookup_foldl_patch a locs code i :
  (∀ loc, loc ∈ locs → ¬ (loc ≤ i < loc + 4)%nat) →
  foldl (patch a) code locs !! i = code !! i.
Proof.
  revert code. induction locs as [|loc locs IH]; intros code Hout; [done|].
  cbn [foldl]. rewrite IH by (intros; apply Hout; by right).
  assert (Hloc : ¬ (loc ≤ i < loc + 4)%nat) by (apply Hout; by left).
  unfold patch. destruct (decide (i < loc)%nat).
  - by apply list_lookup_inserts_lt.
  - apply list_lookup_inserts_ge. rewrite length_le_bytes. lia.
Qed.

Lemma lowers_EmitLabel Y l s : lowers Y s (EmitLabel l s).
Proof.
  pose proof (code_EmitLabel l s) as Hc.
  pose proof (sites_EmitLabel l s) as Hs.
  pose proof (labelToAddress_EmitLabel l s) as Hl.
  assert (Hlen : length (code_ (EmitLabel l s)) = length (code_ s)).
  { rewrite Hc. apply length_foldl_patch. }
  assert (Hmono : ∀ l' a, labelToAddress_ s !! l' = Some a →
                          labelToAddress_ (EmitLabel l s) !! l' = Some a).
  { intros l' a Ha. rewrite Hl. destruct (decide (l = l')) as [<-|Hne].
    - rewrite emplace_lookup_eq, Ha. done.
    - by rewrite emplace_lookup_ne. }
  repeat split.
  - intros H l' loc. rewrite Hs, Hlen. apply H.
  - lia.
  - intros l' loc. rewrite Hs. auto.
  - intros i Hi Hn. rewrite Hc. apply lookup_foldl_patch.
    intros loc Hloc Hr. apply Hn. by exists l, loc.
  - done.
  - unfold EmitLabel. by destruct (fixups_ s !! l).
  - intros H l'. rewrite Hs. intros Hne.
    destruct (H l' Hne) as [[a Ha]|HY]; [left|by right].
    exists a. by apply Hmono.
  - unfold EmitLabel. by destruct (fixups_ s !! l).
Qed.

Lemma EmitLabel_binds l s : is_Some (labelToAddress_ (EmitLabel l s) !! l).
Proof. rewrite labelToAddress_EmitLabel, emplace_lookup_eq. eauto. Qed.

Lemma resolved_weaken (Y Z : Label → Prop) s :
  (∀ l, Y l → Z l) → resolved Y s → resolved Z s.
Proof. intros HYZ H l Hl. destruct (H l Hl); auto. Qed.

Lemma resolved_discharge (Y : Label → Prop) l s :
  is_Some (labelToAddress_ s !! l) →
  resolved (λ l', l' = l ∨ Y l') s → resolved Y s.
Proof. intros Hb H l' Hl'. destruct (H l' Hl') as [|[->|]]; auto. Qed.

Lemma grows_is_bound s s' l :
  grows s s' → is_Some (labelToAddress_ s !! l) → is_Some (labelToAddress_ s' !! l).
Proof. intros G [a Ha]. exists a. by apply (grows_bound _ _ G). Qed.

(** *** The emitters maintain the invariants *)

Ltac inv_bind H :=
  repeat match type of H with
  | @bind (Scope * State)%type _ ?r _ = Ok _ =>
    let E := fresh "E" in
    destruct r as [[? ?]|] eqn:E; cbn [bind] in H; [|discriminate H]
  | bind ?r _ = Ok _ =>
    let E := fresh "E" in
    destruct r eqn:E; cbn [bind] in H; [|discriminate H]
  end.

Lemma u32_add_l a b : u32 (u32 a + b) = u32 (a + b).
Proof. unfold u32. by rewrite Zplus_mod_idemp_l. Qed.

Lemma u32_sub_l a b : u32 (u32 a - b) = u32 (a - b).
Proof. unfold u32. by rewrite Zminus_mod_idemp_l. Qed.

Lemma u32_small a : 0 <= a < 2 ^ 32 → u32 a = a.
Proof. intros. unfold u32. by apply Z.mod_small. Qed.

Lemma consume_one_Ok s s1 :
  consume_one s = Ok s1 → s1 = set_depth (u32 (depth_ s - 1)) s ∧ 0 < depth_ s.
Proof.
  unfold consume_one, assert_. destruct (Z.ltb_spec 0 (depth_ s)); cbn [bind].
  - by intros [= <-].
  - discriminate.
Qed.

Lemma depth_EmitFixup l s : depth_ (EmitFixup l s) = depth_ s.
Proof. unfold EmitFixup. by destruct (labelToAddress_ s !! l). Qed.

Lemma depth_EmitLabel l s : depth_ (EmitLabel l s) = depth_ s.
Proof. unfold EmitLabel. by destruct (fixups_ s !! l). Qed.

Lemma lowers_EmitBinary Y op s s' :
  EmitBinary op s = Ok s' → lowers Y s s' ∧ depth_ s' = u32 (depth_ s - 1).
Proof.
  unfold EmitBinary. intros H. inv_bind H. injection H as <-.
  apply consume_one_Ok in E as [-> _]. split; [|done].
  eapply lowers_trans; [apply lowers_set_depth|apply lowers_Emit].
Qed.

Lemma lowers_EmitKind Y kind s s' :
  EmitKind kind s = Ok s' → lowers Y s s' ∧ depth_ s' = u32 (depth_ s - 1).
Proof. destruct kind; apply lowers_EmitBinary. Qed.

Lemma lowers_EmitPop Y s s' :
  EmitPop s = Ok s' → lowers Y s s' ∧ depth_ s' = u32 (depth_ s - 1).
Proof. apply (lowers_EmitBinary Y POP). Qed.

Lemma lowers_EmitJumpFalse Y l s s' :
  is_Some (labelToAddress_ s !! l) ∨ Y l →
  EmitJumpFalse l s = Ok s' → lowers Y s s' ∧ depth_ s' = u32 (depth_ s - 1).
Proof.
  unfold EmitJumpFalse. intros HY H. inv_bind H. injection H as <-.
  apply consume_one_Ok in E as [-> _]. split; [|by rewrite depth_EmitFixup].
  eapply lowers_trans; [apply lowers_set_depth|].
  eapply lowers_trans; [apply lowers_Emit|]. by apply lowers_EmitFixup.
Qed.

Lemma lowers_EmitJump Y l s :
  is_Some (labelToAddress_ s !! l) ∨ Y l →
  lowers Y s (EmitJump l s) ∧ depth_ (EmitJump l s) = depth_ s.
Proof.
  intros HY. unfold EmitJump. split; [|by rewrite depth_EmitFixup].
  eapply lowers_trans; [apply lowers_Emit|]. by apply lowers_EmitFixup.
Qed.

Lemma lowers_EmitReturn Y s s' :
  EmitReturn s = Ok s' → lowers Y s s' ∧ depth_ s' = u32 (depth_ s - 1).
Proof.
  unfold EmitReturn. intros H. inv_bind H. injection H as <-.
  apply consume_one_Ok in E as [-> _]. split; [|done].
  eapply lowers_trans; [apply lowers_set_depth|].
  eapply lowers_trans; [apply lowers_Emit|].
  eapply lowers_trans; apply lowers_Emit.
Qed.

Lemma lowers_EmitPushFunc Y l s :
  Y l → lowers Y s (EmitPushFunc l s)
        ∧ depth_ (EmitPushFunc l s) = u32 (depth_ s + 1).
Proof.
  intros HY. unfold EmitPushFunc. split; [|by rewrite depth_EmitFixup].
  eapply lowers_trans; [apply lowers_set_depth|].
  eapply lowers_trans; [apply lowers_Emit|]. apply lowers_EmitFixup. by right.
Qed.

Lemma lowers_push Y op bs s :
  lowers Y s (Emit bs (Emit_Opcode op (set_depth (u32 (depth_ s + 1)) s))).
Proof.
  eapply lowers_trans; [apply lowers_set_depth|].
  eapply lowers_trans; apply lowers_Emit.
Qed.

(** *** Lowering of expressions *)

Lemma LowerRefExpr_lowers Y scope name s s' :
  LowerRefExpr scope name s = Ok s' → scope_entries scope Y →
  lowers Y s s' ∧ depth_ s' = u32 (depth_ s + 1).
Proof.
  unfold LowerRefExpr. intros H HY.
  destruct (Lookup scope name) as [[entry|fn|index|index]|] eqn:E;
    [|injection H as <-; split; [apply lowers_push|done]..|discriminate].
  injection H as <-. apply lowers_EmitPushFunc. by apply (HY name).
Qed.

Lemma u32_idemp a : u32 (u32 a) = u32 a.
Proof. unfold u32. apply Z.mod_mod. lia. Qed.

Lemma LowerArgsReversed_lowers Y scope args :
  Forall (λ e, ∀ s s', LowerExpr scope e s = Ok s' →
                 lowers Y s s' ∧ depth_ s' = u32 (depth_ s + 1)) args →
  ∀ s s', LowerArgsReversed (LowerExpr scope) args s = Ok s' →
    lowers Y s s' ∧ u32 (depth_ s') = u32 (depth_ s + Z.of_nat (length args)).
Proof.
  induction 1 as [|a rest Ha _ IH]; intros s s' H.
  - injection H as <-. split; [apply lowers_refl|].
    cbn [length]. f_equal. lia.
  - cbn [LowerArgsReversed] in H. inv_bind H.
    destruct (IH _ _ E) as [L1 D1]. destruct (Ha _ _ H) as [L2 D2].
    split; [by eapply lowers_trans|].
    rewrite D2, u32_idemp, <- u32_add_l, D1, u32_add_l. f_equal.
    cbn [length]. lia.
Qed.

Lemma LowerExpr_lowers Y scope e :
  scope_entries scope Y →
  ∀ s s', LowerExpr scope e s = Ok s' →
    lowers Y s s' ∧ depth_ s' = u32 (depth_ s + 1).
Proof.
  intros HY. induction e as [name|kind lhs rhs IHl IHr|callee args IHc IHa|n]
    using Expr_nested_ind; intros s s' H.
  - by eapply LowerRefExpr_lowers.
  - cbn [LowerExpr] in H. unfold LowerBinaryExpr in H. inv_bind H.
    destruct (IHl _ _ E) as [L1 D1]. destruct (IHr _ _ E0) as [L2 D2].
    destruct (lowers_EmitKind Y _ _ _ H) as [L3 D3].
    split; [eauto using lowers_trans|].
    rewrite D3, D2, D1, u32_add_l, u32_sub_l. f_equal. lia.
  - cbn [LowerExpr] in H. unfold LowerCallExpr in H. inv_bind H.
    injection H as <-.
    destruct (LowerArgsReversed_lowers Y scope args IHa _ _ E) as [L1 D1].
    destruct (IHc _ _ E0) as [L2 D2].
    split.
    + eapply lowers_trans; [exact L1|]. eapply lowers_trans; [exact L2|].
      eapply lowers_trans; [apply lowers_Emit|apply lowers_set_depth].
    + cbn [set_depth depth_ EmitCall Emit_Opcode Emit set_code].
      rewrite D2, u32_sub_l.
      replace (depth_ a + 1 - Z.of_nat (length args))
        with (depth_ a + (1 - Z.of_nat (length args))) by lia.
      rewrite <- u32_add_l, D1, u32_add_l. f_equal. lia.
  - injection H as <-. split; [apply lowers_push|done].
Qed.

(** *** Lowering of statements *)

Lemma lowers_discharge (Y : Label → Prop) l s s' :
  lowers (λ l', l' = l ∨ Y l') s s' →
  is_Some (labelToAddress_ s' !! l) → lowers Y s s'.
Proof.
  intros (I & G & R & F) Hb. split; [done|]. split; [done|]. split; [|done].
  intros HR. apply (resolved_discharge Y l); [done|].
  apply R. revert HR. apply resolved_weaken. auto.
Qed.

Lemma lowers_grows Y s s' : lowers Y s s' → grows s s'.
Proof. by intros (_ & G & _). Qed.

Lemma scope_entries_weaken scope (Y Z : Label → Prop) :
  (∀ l, Y l → Z l) → scope_entries scope Y → scope_entries scope Z.
Proof. intros HYZ H name l Hl. eauto. Qed.

Lemma scope_entries_AddLocal scope name d Y :
  scope_entries scope Y → scope_entries (AddLocal scope name d) Y.
Proof.
  intros H name' l. destruct scope as [f p|parent args|parent locals];
    [apply H..|].
  cbn [AddLocal Lookup]. destruct (decide (name = name')) as [<-|Hne].
  - by rewrite lookup_insert_eq.
  - rewrite lookup_insert_ne by done. apply (H name').
Qed.

Lemma scope_entries_BlockScope scope Y :
  scope_entries scope Y → scope_entries (BlockScope scope ∅) Y.
Proof. intros H name l. cbn [Lookup]. rewrite lookup_empty. apply H. Qed.

Lemma scope_entries_FuncScope scope args Y :
  scope_entries scope Y → scope_entries (FuncScope scope args) Y.
Proof.
  intros H name l. cbn [Lookup]. destruct (args !! name); [done|apply H].
Qed.

Lemma scope_entries_GlobalScope funcs protos :
  scope_entries (GlobalScope funcs protos) (λ l, ∃ name, funcs !! name = Some l).
Proof.
  intros name l. cbn [Lookup]. unfold GlobalScope_Lookup.
  destruct (funcs !! name) eqn:E; [intros [= <-]; eauto|].
  by destruct (protos !! name).
Qed.

Lemma EmitPops_lowers Y n s s' : EmitPops n s = Ok s' → lowers Y s s'.
Proof.
  revert s. induction n as [|n IH]; intros s H.
  - injection H as <-. apply lowers_refl.
  - cbn [EmitPops] in H. inv_bind H.
    eapply lowers_trans; [by apply (lowers_EmitPop Y _ _ E)|by apply IH].
Qed.

Lemma LowerStmts_lowers body :
  Forall Stmt_lowers body →
  ∀ Y scope s scope' s',
    scope_entries scope Y → LowerStmts LowerStmt body scope s = Ok (scope', s') →
    lowers Y s s' ∧ scope_entries scope' Y.
Proof.
  induction 1 as [|stmt rest Hstmt _ IH]; intros Y scope s scope' s' HY H.
  - injection H as <- <-. split; [apply lowers_refl|done].
  - cbn [LowerStmts] in H. inv_bind H.
    destruct (Hstmt _ _ _ _ _ HY E) as [L1 HY1].
    destruct (IH _ _ _ _ _ HY1 H) as [L2 HY2].
    split; [by eapply lowers_trans|done].
Qed.

Lemma LowerBlockStmtWith_lowers Y scope body s s' :
  Forall Stmt_lowers body → scope_entries scope Y →
  LowerBlockStmtWith LowerStmt scope body s = Ok s' → lowers Y s s'.
Proof.
  intros Hbody HY H. unfold LowerBlockStmtWith in H. inv_bind H.
  inv_bind H. injection H as <-.
  destruct (LowerStmts_lowers body Hbody Y _ _ _ _
              (scope_entries_BlockScope _ _ HY) E) as [L1 _].
  eapply lowers_trans; [exact L1|]. by eapply EmitPops_lowers.
Qed.

Lemma LowerWhileStmt_lowers cond stmt : Stmt_lowers stmt → Stmt_lowers (WhileStmt cond stmt).
Proof.
  intros IH Y scope s scope' s' HY H.
  cbn [LowerStmt] in H. unfold LowerWhileStmt in H. cbn [MakeLabel] in H.
  set (entry := nextLabel_ s + 1) in *.
  set (s1 := set_nextLabel entry s) in *.
  set (exit := nextLabel_ s1 + 1) in *.
  set (s2 := set_nextLabel exit s1) in *.
  set (s3 := EmitLabel entry s2) in *.
  destruct (LowerExpr scope cond s3) as [s4|] eqn:E1;
    cbn [bind] in H; [|discriminate H].
  destruct (EmitJumpFalse exit s4) as [s5|] eqn:E2;
    cbn [bind] in H; [|discriminate H].
  destruct (LowerStmt scope stmt s5) as [[scope1 s6]|] eqn:E3;
    cbn [bind] in H; [|discriminate H].
  injection H as <- <-.
  set (Y1 := λ l', l' = entry ∨ Y l').
  set (Y2 := λ l', l' = exit ∨ Y1 l').
  assert (HY2 : scope_entries scope Y2).
  { revert HY. apply scope_entries_weaken. unfold Y2, Y1. auto. }
  assert (La : lowers Y2 s s3).
  { eapply lowers_trans; [apply lowers_set_nextLabel|].
    eapply lowers_trans; [apply lowers_set_nextLabel|apply lowers_EmitLabel]. }
  assert (Lb : lowers Y2 s3 (EmitLabel exit (EmitJump entry s6))).
  { eapply lowers_trans; [by apply (LowerExpr_lowers Y2 scope cond HY2 _ _ E1)|].
    eapply lowers_trans;
      [apply (lowers_EmitJumpFalse Y2 exit _ _); [right; by left|exact E2]|].
    eapply lowers_trans; [by apply (IH Y2 _ _ _ _ HY2 E3)|].
    eapply lowers_trans; [|apply lowers_EmitLabel].
    apply lowers_EmitJump. right. right. by left. }
  split; [|by apply (IH Y _ _ _ _ HY E3)].
  apply (lowers_discharge Y entry).
  - apply (lowers_discharge Y1 exit).
    + by eapply lowers_trans.
    + apply EmitLabel_binds.
  - eapply grows_is_bound; [exact (lowers_grows _ _ _ Lb)|apply EmitLabel_binds].
Qed.

Lemma LowerIfStmt_lowers cond stmt elseStmt :
  Stmt_lowers stmt →
  match elseStmt with Some e => Stmt_lowers e | None => True end →
  Stmt_lowers (IfStmt cond stmt elseStmt).
Proof.
  intros IH IHe Y scope s scope' s' HY H.
  cbn [LowerStmt] in H. unfold LowerIfStmt in H. cbn [MakeLabel] in H.
  set (entry := nextLabel_ s + 1) in *.
  set (s1 := set_nextLabel entry s) in *.
  set (elseLabel := nextLabel_ s1 + 1) in *.
  set (s2 := set_nextLabel elseLabel s1) in *.
  set (exit := nextLabel_ s2 + 1) in *.
  set (s3 := set_nextLabel exit s2) in *.
  set (s4 := EmitLabel entry s3) in *.
  destruct (LowerExpr scope cond s4) as [s5|] eqn:E1;
    cbn [bind] in H; [|discriminate H].
  destruct (EmitJumpFalse elseLabel s5) as [s6|] eqn:E2;
    cbn [bind] in H; [|discriminate H].
  destruct (LowerStmt scope stmt s6) as [[scope1 s7]|] eqn:E3;
    cbn [bind] in H; [|discriminate H].
  set (s9 := EmitLabel elseLabel (EmitJump exit s7)) in *.
  match type of H with
  | bind ?r _ = _ => destruct r as [[scope2 s10]|] eqn:E4;
                     cbn [bind] in H; [|discriminate H]
  end.
  injection H as <- <-.
  set (Y1 := λ l', l' = entry ∨ Y l').
  set (Y2 := λ l', l' = elseLabel ∨ Y1 l').
  set (Y3 := λ l', l' = exit ∨ Y2 l').
  assert (HY3 : scope_entries scope Y3).
  { revert HY. apply scope_entries_weaken. unfold Y3, Y2, Y1. auto. }
  destruct (IH Y _ _ _ _ HY E3) as [_ HYs].
  destruct (IH Y3 _ _ _ _ HY3 E3) as [Lthen HY3s].
  assert (Helse : lowers Y3 s9 s10 ∧ scope_entries scope2 Y).
  { destruct elseStmt as [e|].
    - split; [by apply (IHe Y3 _ _ _ _ HY3s E4)|by apply (IHe Y _ _ _ _ HYs E4)].
    - injection E4 as <- <-. split; [apply lowers_refl|done]. }
  destruct Helse as [Lelse HYe].
  assert (La : lowers Y3 s s4).
  { eapply lowers_trans; [apply lowers_set_nextLabel|].
    eapply lowers_trans; [apply lowers_set_nextLabel|].
    eapply lowers_trans; [apply lowers_set_nextLabel|apply lowers_EmitLabel]. }
  assert (Lb : lowers Y3 s4 s9).
  { eapply lowers_trans; [by apply (LowerExpr_lowers Y3 scope cond HY3 _ _ E1)|].
    eapply lowers_trans;
      [apply (lowers_EmitJumpFalse Y3 elseLabel _ _);
         [right; right; by left|exact E2]|].
    eapply lowers_trans; [exact Lthen|].
    eapply lowers_trans; [|apply lowers_EmitLabel].
    apply lowers_EmitJump. right. by left. }
  assert (Lc : lowers Y3 s9 (EmitLabel exit s10)).
  { eapply lowers_trans; [exact Lelse|apply lowers_EmitLabel]. }
  split; [|done].
  apply (lowers_discharge Y entry).
  - apply (lowers_discharge Y1 elseLabel).
    + apply (lowers_discharge Y2 exit).
      * eapply lowers_trans; [exact La|]. by eapply lowers_trans.
      * apply EmitLabel_binds.
    + eapply grows_is_bound; [exact (lowers_grows _ _ _ Lc)|apply EmitLabel_binds].
  - eapply grows_is_bound;
      [exact (lowers_grows _ _ _ (lowers_trans _ _ _ _ Lb Lc))|apply EmitLabel_binds].
Qed.

Lemma LowerStmt_lowers stmt : Stmt_lowers stmt.
Proof.
  induction stmt as [body IH|cond stmt IH|cond stmt elseStmt IH IHe|e|e|name type init]
    using Stmt_nested_ind.
  - intros Y scope s scope' s' HY H. cbn [LowerStmt] in H. inv_bind H.
    injection H as <- <-. split; [|done].
    by apply (LowerBlockStmtWith_lowers Y scope body).
  - by apply LowerWhileStmt_lowers.
  - by apply LowerIfStmt_lowers.
  - intros Y scope s scope' s' HY H. cbn [LowerStmt] in H.
    unfold LowerExprStmt in H. inv_bind H. injection H as <- <-.
    inv_bind E. split; [|done].
    eapply lowers_trans; [by apply (LowerExpr_lowers Y scope e HY _ _ E0)|].
    by apply (lowers_EmitPop Y).
  - intros Y scope s scope' s' HY H. cbn [LowerStmt] in H.
    unfold LowerReturnStmt in H. inv_bind H. injection H as <- <-.
    inv_bind E. split; [|done].
    eapply lowers_trans; [by apply (LowerExpr_lowers Y scope e HY _ _ E0)|].
    by apply (lowers_EmitReturn Y).
  - intros Y scope s scope' s' HY H. cbn [LowerStmt] in H.
    unfold LowerLetStmt in H. inv_bind H. injection H as <- <-.
    split; [|by apply scope_entries_AddLocal].
    destruct init as [e|].
    + by apply (LowerExpr_lowers Y scope e HY _ _ E).
    + injection E as <-. apply lowers_refl.
Qed.

(** *** Returns *)





(** *** References to arguments and locals *)

(** C7 (amended): a Ref that resolves to ARG i is lowered to
    PEEK (depth + i + 1), one that resolves to LOCAL d to PEEK (depth - d);
    on a frame with [depth] values above the saved cursor these copy
    argument i, respectively, for 1 <= d <= depth, the value in slot d above
    the saved cursor, which is the slot that a [let] with initialiser
    records for its local. *)
Theorem Ref_lowers_to_PEEK :
  (∀ scope name s i,
     Lookup scope name = Some (ARG i) →
     0 <= depth_ s → 0 <= i → depth_ s + i + 1 < 2 ^ 32 →
     ∃ s', LowerExpr scope (RefExpr name) s = Ok s'
           ∧ code_ s' = code_ s ++ opcode_byte PEEK
                          :: le_bytes 4 (depth_ s + i + 1)
           ∧ depth_ s' = depth_ s + 1)
  ∧ (∀ scope name s d,
       Lookup scope name = Some (LOCAL d) →
       0 <= d <= depth_ s → depth_ s + 1 < 2 ^ 32 →
       ∃ s', LowerExpr scope (RefExpr name) s = Ok s'
             ∧ code_ s' = code_ s ++ opcode_byte PEEK
                            :: le_bytes 4 (depth_ s - d)
             ∧ depth_ s' = depth_ s + 1)
  ∧ (∀ pre post vals ra args rest depth i v,
       Z.of_nat (length vals) = depth → depth + Z.of_nat i + 1 < 2 ^ 32 →
       args !! i = Some v →
       Interp.step
         (Interp.at_op pre PEEK (le_bytes 4 (depth + Z.of_nat i + 1)) post
                       (frame vals ra args rest))
       = Interp.Continue
           (Interp.mkState
              (pre ++ opcode_byte PEEK :: le_bytes 4 (depth + Z.of_nat i + 1) ++ post)
              (Z.of_nat (length pre) + 1 + 4)
              (v :: frame vals ra args rest)))
  ∧ (∀ pre post vals ra args rest depth d v,
       Z.of_nat (length vals) = depth → depth < 2 ^ 32 →
       1 <= d <= depth → reverse vals !! Z.to_nat (d - 1) = Some v →
       Interp.step
         (Interp.at_op pre PEEK (le_bytes 4 (depth - d)) post
                       (frame vals ra args rest))
       = Interp.Continue
           (Interp.mkState
              (pre ++ opcode_byte PEEK :: le_bytes 4 (depth - d) ++ post)
              (Z.of_nat (length pre) + 1 + 4)
              (v :: frame vals ra args rest)))
  ∧ (∀ parent locals name type e s scope' s',
       LowerStmt (BlockScope parent locals) (LetStmt name type (Some e)) s
       = Ok (scope', s') →
       0 <= depth_ s → depth_ s + 1 < 2 ^ 32 →
       depth_ s' = depth_ s + 1
       ∧ Lookup scope' name = Some (LOCAL (depth_ s + 1))).
Proof.
  split; [|split; [|split; [|split]]].
  - intros scope name s i Hl Hd Hi Hr. cbn [LowerExpr]. unfold LowerRefExpr.
    rewrite Hl. eexists. split; [done|].
    cbn [EmitPeek Emit_unsigned Emit_Opcode Emit set_code set_depth code_ depth_].
    rewrite le_bytes_u32, u32_small by lia. by rewrite <- app_assoc.
  - intros scope name s d Hl Hd Hr. cbn [LowerExpr]. unfold LowerRefExpr.
    rewrite Hl. eexists. split; [done|].
    cbn [EmitPeek Emit_unsigned Emit_Opcode Emit set_code set_depth code_ depth_].
    rewrite le_bytes_u32, u32_small by lia. by rewrite <- app_assoc.
  - intros pre post vals ra args rest depth i v Hlen Hr Hv.
    apply InterpFacts.PEEK_step; [lia|]. unfold frame.
    rewrite lookup_app_r by lia.
    replace (Z.to_nat (depth + Z.of_nat i + 1) - length vals)%nat with (S i) by lia.
    cbn [lookup list_lookup]. by apply lookup_app_l_Some.
  - intros pre post vals ra args rest depth d v Hlen Hr Hd Hv.
    apply InterpFacts.PEEK_step; [lia|]. unfold frame.
    rewrite reverse_lookup in Hv by lia.
    apply lookup_app_l_Some. rewrite <- Hv. f_equal. lia.
  - intros parent locals name type e s scope' s' H Hd Hr.
    cbn [LowerStmt] in H. unfold LowerLetStmt in H.
    destruct (LowerExpr (BlockScope parent locals) e s) as [s1|] eqn:E;
      cbn [bind] in H; [|discriminate H].
    injection H as <- <-.
    destruct (LowerExpr_lowers (λ _, True) _ e (λ _ _ _, I) s s1 E) as [_ D].
    rewrite D, u32_idemp, u32_small by lia. split; [done|].
    cbn [AddLocal Lookup]. by rewrite lookup_insert_eq.
Qed.

Lemma Ref_lowers_to_PEEK_witness :
  (∃ s', LowerExpr (FuncScope (GlobalScope ∅ ∅) {[ "n"%string := 0 ]})
           (RefExpr "n") (set_depth 2 new_Codegen) = Ok s'
         ∧ code_ s' = [] ++ opcode_byte PEEK :: le_bytes 4 (2 + 0 + 1)
         ∧ depth_ s' = 2 + 1)
  ∧ Interp.step
      (Interp.at_op [] PEEK (le_bytes 4 (2 - 1)) []
         (frame [Interp.VInt 8; Interp.VInt 7] 40 [Interp.VInt 5] []))
    = Interp.Continue
        (Interp.mkState (opcode_byte PEEK :: le_bytes 4 (2 - 1) ++ [])
           (0 + 1 + 4)
           (Interp.VInt 7 :: frame [Interp.VInt 8; Interp.VInt 7] 40 [Interp.VInt 5] [])).
Proof.
  split.
  - apply (proj1 Ref_lowers_to_PEEK
             (FuncScope (GlobalScope ∅ ∅) {[ "n"%string := 0 ]}) "n"
             (set_depth 2 new_Codegen) 0); cbn; (reflexivity || lia).
  - apply (proj1 (proj2 (proj2 (proj2 Ref_lowers_to_PEEK))) [] []
             [Interp.VInt 8; Interp.VInt 7] 40 [Interp.VInt 5] [] 2 1 (Interp.VInt 7));
      cbn; (reflexivity || lia).
Defined.

(** C7 (as stated) fails: a [let] without initialiser pushes nothing, yet
    records the current depth as the slot of its local, so the PEEK that a
    reference to it is lowered to copies no local of its own.  Declared at
    depth 0 and read on a frame with nothing above the saved cursor, PEEK 0
    copies the saved cursor; and the block
    [{ let a = 1; let a = 2; let b; b }] is lowered without a failed
    assertion, the reference to [b] becoming the PEEK 0 that copies the
    value 2 of [a]. *)
Lemma let_without_initialiser_has_no_slot :
  ¬ (∀ parent name type init s scope1 s1 s2 vals ra args rest,
       0 <= depth_ s → depth_ s + 2 < 2 ^ 32 →
       LowerStmt (BlockScope parent ∅) (LetStmt name type init) s
       = Ok (scope1, s1) →
       LowerExpr scope1 (RefExpr name) s1 = Ok s2 →
       Z.of_nat (length vals) = depth_ s1 →
       ∃ idx v,
         code_ s2 = code_ s1 ++ opcode_byte PEEK :: le_bytes 4 idx
         ∧ Interp.step
             (Interp.at_op [] PEEK (le_bytes 4 idx) [] (frame vals ra args rest))
           = Interp.Continue
               (Interp.mkState (opcode_byte PEEK :: le_bytes 4 idx) 5
                  (v :: frame vals ra args rest))
         ∧ v ∈ vals)
  ∧ (∃ scope' s',
       LowerStmt (FuncScope (GlobalScope ∅ ∅) ∅)
         (BlockStmt [ LetStmt "a" "int" (Some (IntExpr 1));
                      LetStmt "a" "int" (Some (IntExpr 2));
                      LetStmt "b" "int" None;
                      ExprStmt (RefExpr "b") ])
         new_Codegen
       = Ok (scope', s')
       ∧ code_ s'
         = opcode_byte PUSH_INT :: le_bytes 8 1
             ++ opcode_byte PUSH_INT :: le_bytes 8 2
             ++ opcode_byte PEEK :: le_bytes 4 0
             ++ [opcode_byte POP; opcode_byte POP; opcode_byte POP])
  ∧ Interp.step
      (Interp.at_op [] PEEK (le_bytes 4 0) []
         (frame [Interp.VInt 2; Interp.VInt 1] 40 [] []))
    = Interp.Continue
        (Interp.mkState (opcode_byte PEEK :: le_bytes 4 0) 5
           (Interp.VInt 2 :: frame [Interp.VInt 2; Interp.VInt 1] 40 [] [])).
Proof.
  split; [|split].
  - intros H.
    set (scope1 := BlockScope (GlobalScope ∅ ∅) (<["x"%string := u32 0]> ∅)).
    assert (E1 : LowerStmt (BlockScope (GlobalScope ∅ ∅) ∅)
                   (LetStmt "x" "int" None) new_Codegen
                 = Ok (scope1, new_Codegen)) by reflexivity.
    assert (E2 : LowerExpr scope1 (RefExpr "x") new_Codegen
                 = Ok (EmitPeek (u32 (0 - u32 0)) new_Codegen)).
    { cbn [LowerExpr]. unfold LowerRefExpr, scope1. cbn [Lookup].
      by rewrite lookup_insert_eq. }
    assert (R1 : 0 <= depth_ new_Codegen) by done.
    assert (R2 : depth_ new_Codegen + 2 < 2 ^ 32) by done.
    destruct (H _ _ _ _ _ _ _ _ [] 40 [] [] R1 R2 E1 E2 eq_refl)
      as (idx & v & _ & _ & Hv).
    by apply elem_of_nil in Hv.
  - eexists _, _. split; [vm_compute; reflexivity|]. vm_compute. reflexivity.
  - vm_compute. reflexivity.
Qed.

(** *** Which labels a step binds *)

Lemma same_labels_binds_above L0 s s' : same_labels s s' → binds_above L0 s s'.
Proof. intros [Hl Hn]. split; [lia|]. intros l a. rewrite Hl. auto. Qed.

Lemma binds_above_refl L0 s : binds_above L0 s s.
Proof. by apply same_labels_binds_above. Qed.

Lemma binds_above_trans L0 s1 s2 s3 :
  binds_above L0 s1 s2 → binds_above L0 s2 s3 → binds_above L0 s1 s3.
Proof.
  intros [N1 B1] [N2 B2]. split; [lia|].
  intros l a [H2|?]%B2; auto.
Qed.

Lemma same_labels_trans s1 s2 s3 :
  same_labels s1 s2 → same_labels s2 s3 → same_labels s1 s3.
Proof. intros [L1 N1] [L2 N2]. split; congruence. Qed.

Lemma same_labels_EmitFixup l s : same_labels s (EmitFixup l s).
Proof. unfold EmitFixup. by destruct (labelToAddress_ s !! l). Qed.

Lemma same_labels_EmitBinary op s s' : EmitBinary op s = Ok s' → same_labels s s'.
Proof.
  unfold EmitBinary. intros H. inv_bind H. injection H as <-.
  by apply consume_one_Ok in E as [-> _].
Qed.

Lemma same_labels_EmitReturn s s' : EmitReturn s = Ok s' → same_labels s s'.
Proof.
  unfold EmitReturn. intros H. inv_bind H. injection H as <-.
  by apply consume_one_Ok in E as [-> _].
Qed.

Lemma same_labels_EmitJumpFalse l s s' : EmitJumpFalse l s = Ok s' → same_labels s s'.
Proof.
  unfold EmitJumpFalse. intros H. inv_bind H. injection H as <-.
  apply consume_one_Ok in E as [-> _].
  by eapply same_labels_trans; [|apply same_labels_EmitFixup].
Qed.

Lemma same_labels_EmitJump l s : same_labels s (EmitJump l s).
Proof.
  unfold EmitJump. by eapply same_labels_trans; [|apply same_labels_EmitFixup].
Qed.

Lemma same_labels_EmitPops n s s' : EmitPops n s = Ok s' → same_labels s s'.
Proof.
  revert s. induction n as [|n IH]; intros s H.
  - by injection H as <-.
  - cbn [EmitPops] in H. inv_bind H.
    eapply same_labels_trans; [by apply (same_labels_EmitBinary POP _ _ E)|by apply IH].
Qed.

Lemma LowerArgsReversed_same_labels scope args :
  Forall (λ e, ∀ s s', LowerExpr scope e s = Ok s' → same_labels s s') args →
  ∀ s s', LowerArgsReversed (LowerExpr scope) args s = Ok s' → same_labels s s'.
Proof.
  induction 1 as [|a rest Ha _ IH]; intros s s' H.
  - by injection H as <-.
  - cbn [LowerArgsReversed] in H. inv_bind H.
    eapply same_labels_trans; [by apply IH|by apply Ha].
Qed.

Lemma LowerExpr_same_labels scope e :
  ∀ s s', LowerExpr scope e s = Ok s' → same_labels s s'.
Proof.
  induction e as [name|kind lhs rhs IHl IHr|callee args IHc IHa|n]
    using Expr_nested_ind; intros s s' H.
  - cbn [LowerExpr] in H. unfold LowerRefExpr in H.
    destruct (Lookup scope name) as [[entry|fn|index|index]|];
      [|by injection H as <-..|discriminate H].
    injection H as <-. unfold EmitPushFunc.
    by eapply same_labels_trans; [|apply same_labels_EmitFixup].
  - cbn [LowerExpr] in H. unfold LowerBinaryExpr in H. inv_bind H.
    eapply same_labels_trans; [by apply IHl|].
    eapply same_labels_trans; [by apply IHr|].
    destruct kind; by eapply same_labels_EmitBinary.
  - cbn [LowerExpr] in H. unfold LowerCallExpr in H. inv_bind H.
    injection H as <-.
    eapply same_labels_trans;
      [by apply (LowerArgsReversed_same_labels scope args IHa _ _ E)|].
    eapply same_labels_trans; [by apply IHc|done].
  - by injection H as <-.
Qed.

Lemma binds_above_EmitLabel L0 l s : L0 < l → binds_above L0 s (EmitLabel l s).
Proof.
  intros Hl. split; [unfold EmitLabel; by destruct (fixups_ s !! l)|].
  intros l' a. rewrite labelToAddress_EmitLabel.
  destruct (decide (l = l')) as [<-|Hne]; [auto|].
  rewrite emplace_lookup_ne by done. auto.
Qed.

Lemma binds_above_set_nextLabel L0 n s :
  nextLabel_ s <= n → binds_above L0 s (set_nextLabel n s).
Proof. intros Hn. split; [done|]. auto. Qed.

(** What the induction over statements carries for the bindings. *)
Ltac labels_lia :=
  repeat match goal with x := _ |- _ => subst x end;
  cbn [nextLabel_ set_nextLabel] in *; lia.

Lemma LowerStmt_binds_above L0 stmt :
  ∀ scope s scope' s',
    L0 <= nextLabel_ s → LowerStmt scope stmt s = Ok (scope', s') →
    binds_above L0 s s'.
Proof.
  induction stmt as [body IH|cond stmt IH|cond stmt elseStmt IH IHe|e|e|name type init]
    using Stmt_nested_ind; intros scope s scope' s' HL H.
  - cbn [LowerStmt] in H. inv_bind H. injection H as <- <-.
    unfold LowerBlockStmtWith in E. inv_bind E. injection E as <-.
    eapply binds_above_trans;
      [|apply same_labels_binds_above; by eapply same_labels_EmitPops].
    clear E1 E2. revert HL E0. generalize (BlockScope scope ∅). revert s.
    induction IH as [|st rest Hst _ IHrest]; intros s sc HL Hs.
    + injection Hs as <- <-. apply binds_above_refl.
    + cbn [LowerStmts] in Hs. inv_bind Hs.
      pose proof (Hst _ _ _ _ HL E) as B1.
      eapply binds_above_trans; [exact B1|].
      apply (IHrest _ _ (Z.le_trans _ _ _ HL (proj1 B1)) Hs).
  - cbn [LowerStmt] in H. unfold LowerWhileStmt in H. cbn [MakeLabel] in H.
    set (entry := nextLabel_ s + 1) in *.
    set (s1 := set_nextLabel entry s) in *.
    set (exit := nextLabel_ s1 + 1) in *.
    set (s2 := set_nextLabel exit s1) in *.
    set (s3 := EmitLabel entry s2) in *.
    destruct (LowerExpr scope cond s3) as [s4|] eqn:E1;
      cbn [bind] in H; [|discriminate H].
    destruct (EmitJumpFalse exit s4) as [s5|] eqn:E2;
      cbn [bind] in H; [|discriminate H].
    destruct (LowerStmt scope stmt s5) as [[scope1 s6]|] eqn:E3;
      cbn [bind] in H; [|discriminate H].
    injection H as <- <-.
    assert (B3 : binds_above L0 s s3).
    { eapply binds_above_trans; [apply (binds_above_set_nextLabel L0 entry); labels_lia|].
      eapply binds_above_trans;
        [apply (binds_above_set_nextLabel L0 exit); labels_lia|].
      apply binds_above_EmitLabel. labels_lia. }
    pose proof (LowerExpr_same_labels _ _ _ _ E1) as [L4 N4].
    pose proof (same_labels_EmitJumpFalse _ _ _ E2) as [L5 N5].
    assert (HL5 : L0 <= nextLabel_ s5).
    { rewrite N5, N4. destruct B3. lia. }
    pose proof (IH _ _ _ _ HL5 E3) as B6.
    eapply binds_above_trans; [exact B3|].
    eapply binds_above_trans;
      [apply same_labels_binds_above;
       eapply same_labels_trans; split; eassumption|].
    eapply binds_above_trans; [exact B6|].
    eapply binds_above_trans;
      [apply same_labels_binds_above, same_labels_EmitJump|].
    apply binds_above_EmitLabel. labels_lia.
  - cbn [LowerStmt] in H. unfold LowerIfStmt in H. cbn [MakeLabel] in H.
    set (entry := nextLabel_ s + 1) in *.
    set (s1 := set_nextLabel entry s) in *.
    set (elseLabel := nextLabel_ s1 + 1) in *.
    set (s2 := set_nextLabel elseLabel s1) in *.
    set (exit := nextLabel_ s2 + 1) in *.
    set (s3 := set_nextLabel exit s2) in *.
    set (s4 := EmitLabel entry s3) in *.
    destruct (LowerExpr scope cond s4) as [s5|] eqn:E1;
      cbn [bind] in H; [|discriminate H].
    destruct (EmitJumpFalse elseLabel s5) as [s6|] eqn:E2;
      cbn [bind] in H; [|discriminate H].
    destruct (LowerStmt scope stmt s6) as [[scope1 s7]|] eqn:E3;
      cbn [bind] in H; [|discriminate H].
    set (s9 := EmitLabel elseLabel (EmitJump exit s7)) in *.
    match type of H with
    | bind ?r _ = _ => destruct r as [[scope2 s10]|] eqn:E4;
                       cbn [bind] in H; [|discriminate H]
    end.
    injection H as <- <-.
    assert (B4 : binds_above L0 s s4).
    { eapply binds_above_trans; [apply (binds_above_set_nextLabel L0 entry); labels_lia|].
      eapply binds_above_trans;
        [apply (binds_above_set_nextLabel L0 elseLabel); labels_lia|].
      eapply binds_above_trans;
        [apply (binds_above_set_nextLabel L0 exit); labels_lia|].
      apply binds_above_EmitLabel. labels_lia. }
    pose proof (LowerExpr_same_labels _ _ _ _ E1) as S5.
    pose proof (same_labels_EmitJumpFalse _ _ _ E2) as S6.
    pose proof (same_labels_trans _ _ _ S5 S6) as [L6 N6].
    assert (HL6 : L0 <= nextLabel_ s6) by (rewrite N6; destruct B4; lia).
    pose proof (IH _ _ _ _ HL6 E3) as B7.
    assert (B9 : binds_above L0 s7 s9).
    { eapply binds_above_trans;
        [apply same_labels_binds_above, same_labels_EmitJump|].
      apply binds_above_EmitLabel. labels_lia. }
    assert (B10 : binds_above L0 s9 s10).
    { destruct elseStmt as [e|].
      - assert (HL9 : L0 <= nextLabel_ s9) by (destruct B4, B7, B9; lia).
        apply (IHe _ _ _ _ HL9 E4).
      - injection E4 as <- <-. apply binds_above_refl. }
    eapply binds_above_trans; [exact B4|].
    eapply binds_above_trans;
      [exact (same_labels_binds_above L0 _ _ (same_labels_trans _ _ _ S5 S6))|].
    eapply binds_above_trans; [exact B7|].
    eapply binds_above_trans; [exact B9|].
    eapply binds_above_trans; [exact B10|].
    apply binds_above_EmitLabel. labels_lia.
  - cbn [LowerStmt] in H. unfold LowerExprStmt in H. inv_bind H.
    injection H as <- <-. inv_bind E. apply same_labels_binds_above.
    eapply same_labels_trans;
      [by eapply LowerExpr_same_labels|by apply (same_labels_EmitBinary POP)].
  - cbn [LowerStmt] in H. unfold LowerReturnStmt in H. inv_bind H.
    injection H as <- <-. inv_bind E. apply same_labels_binds_above.
    eapply same_labels_trans;
      [by eapply LowerExpr_same_labels|by apply same_labels_EmitReturn].
  - cbn [LowerStmt] in H. unfold LowerLetStmt in H. inv_bind H.
    injection H as <- <-. apply same_labels_binds_above.
    destruct init as [e|]; [by eapply LowerExpr_same_labels|by injection E as <-].
Qed.

(** *** Translation of a module *)

Lemma lowers_streams Y s s' : lowers Y s s' → streams Y s s'.
Proof. intros (I & G & R & _). by split. Qed.

Lemma streams_refl Y s : streams Y s s.
Proof. apply lowers_streams, lowers_refl. Qed.

Lemma streams_trans Y s1 s2 s3 : streams Y s1 s2 → streams Y s2 s3 → streams Y s1 s3.
Proof.
  intros (I1 & G1 & R1) (I2 & G2 & R2).
  split; [auto|]. split; [eauto using grows_trans|auto].
Qed.

Lemma streams_set_func Y f s : streams Y s (set_func f s).
Proof.
  split; [done|]. split; [|done]. split; auto.
Qed.

Lemma elem_of_module_funcs f item rest :
  f ∈ module_funcs (item :: rest) ↔ item = TFunc f ∨ f ∈ module_funcs rest.
Proof.
  unfold module_funcs. cbn [omap list_omap].
  destruct item as [f'|p|st]; rewrite ?elem_of_cons; split.
  - intros [->|?]; auto.
  - intros [[= ->]|?]; auto.
  - auto.
  - by intros [?|?].
  - auto.
  - by intros [?|?].
Qed.

Lemma elem_of_module_protos p item rest :
  p ∈ module_protos (item :: rest) ↔ item = TProto p ∨ p ∈ module_protos rest.
Proof.
  unfold module_protos. cbn [omap list_omap].
  destruct item as [f'|p'|st]; rewrite ?elem_of_cons; split.
  - auto.
  - by intros [?|?].
  - intros [->|?]; auto.
  - intros [[= ->]|?]; auto.
  - auto.
  - by intros [?|?].
Qed.

Lemma Prepass_stream k mod_ : ∀ protos s protos' s',
  Prepass k mod_ protos s = Ok (protos', s') →
  code_ s' = code_ s ∧ fixups_ s' = fixups_ s
  ∧ labelToAddress_ s' = labelToAddress_ s ∧ func_ s' = func_ s
  ∧ depth_ s' = depth_ s
  ∧ nextLabel_ s' = nextLabel_ s + Z.of_nat (length (module_funcs mod_)).
Proof.
  induction mod_ as [|[f|p|st] rest IH]; intros protos s protos' s' H.
  - injection H as <- <-. repeat split. cbn. lia.
  - cbn [Prepass MakeLabel] in H. apply IH in H as (-> & -> & -> & -> & -> & ->).
    repeat split. unfold module_funcs. cbn. lia.
  - cbn [Prepass] in H. destruct (k !! pd_primitive p); [|discriminate H].
    by apply IH in H.
  - cbn [Prepass] in H. by apply IH in H.
Qed.

Lemma Prepass_funcs k mod_ : ∀ protos s protos' s',
  Prepass k mod_ protos s = Ok (protos', s') →
  (∀ n l, funcs_ s !! n = Some l → funcs_ s' !! n = Some l)
  ∧ (∀ f, f ∈ module_funcs mod_ → is_Some (funcs_ s' !! fd_name f))
  ∧ (funcs_fresh s → funcs_fresh s').
Proof.
  induction mod_ as [|[f|p|st] rest IH]; intros protos s protos' s' H.
  - injection H as <- <-. split; [done|]. split; [|done].
    intros f Hf. by apply elem_of_nil in Hf.
  - cbn [Prepass MakeLabel] in H. apply IH in H as (Hmono & Hdef & Hfresh).
    cbn [funcs_ set_funcs set_nextLabel nextLabel_] in *.
    set (label := nextLabel_ s + 1) in *.
    assert (Hkeep : ∀ n l, funcs_ s !! n = Some l →
                           emplace (fd_name f) label (funcs_ s) !! n = Some l).
    { intros n l Hn. destruct (decide (fd_name f = n)) as [<-|Hne].
      - by rewrite emplace_lookup_eq, Hn.
      - by rewrite emplace_lookup_ne. }
    split; [auto|]. split.
    + intros f' [[= <-]|Hin]%elem_of_module_funcs; [|auto].
      destruct (emplace_lookup_eq (fd_name f) label (funcs_ s)) as [].
      eexists. apply Hmono. apply emplace_lookup_eq.
    + intros (Hpos & Hle & Hinj). apply Hfresh. unfold funcs_fresh.
      cbn [funcs_ nextLabel_ set_funcs set_nextLabel]. fold label.
      assert (Hcases : ∀ n l, emplace (fd_name f) label (funcs_ s) !! n = Some l →
                funcs_ s !! n = Some l ∨ (n = fd_name f ∧ l = label
                                          ∧ funcs_ s !! n = None)).
      { intros n l. unfold emplace.
        destruct (funcs_ s !! fd_name f) eqn:E; [auto|].
        destruct (decide (fd_name f = n)) as [<-|Hne].
        - rewrite lookup_insert_eq. intros [= <-]. auto.
        - rewrite lookup_insert_ne by done. auto. }
      split; [lia|]. split.
      * intros n l [Hn|(-> & -> & _)]%Hcases; [|lia].
        specialize (Hle _ _ Hn). lia.
      * intros n1 n2 l [H1|(-> & -> & N1)]%Hcases [H2|(-> & E2 & N2)]%Hcases.
        -- eauto.
        -- specialize (Hle _ _ H1). lia.
        -- specialize (Hle _ _ H2). lia.
        -- done.
  - cbn [Prepass] in H. destruct (k !! pd_primitive p); [|discriminate H].
    apply IH in H as (Hmono & Hdef & Hfresh). split; [done|]. split; [|done].
    intros f' [[=]|Hin]%elem_of_module_funcs. auto.
  - cbn [Prepass] in H. apply IH in H as (Hmono & Hdef & Hfresh).
    split; [done|]. split; [|done].
    intros f' [[=]|Hin]%elem_of_module_funcs. auto.
Qed.

Lemma Prepass_protos k mod_ : ∀ protos s protos' s',
  Prepass k mod_ protos s = Ok (protos', s') →
  (∀ n fn, protos !! n = Some fn → protos' !! n = Some fn)
  ∧ (∀ p, p ∈ module_protos mod_ → is_Some (protos' !! pd_name p))
  ∧ (∀ n fn, protos' !! n = Some fn →
       protos !! n = Some fn
       ∨ ∃ p, p ∈ module_protos mod_ ∧ pd_name p = n
              ∧ k !! pd_primitive p = Some fn).
Proof.
  induction mod_ as [|[f|p|st] rest IH]; intros protos s protos' s' H.
  - injection H as <- <-. split; [done|]. split; [|auto].
    intros p Hp. by apply elem_of_nil in Hp.
  - cbn [Prepass MakeLabel] in H. apply IH in H as (Hmono & Hdef & Hsrc).
    split; [done|]. split.
    + intros p' [[=]|Hin]%elem_of_module_protos. auto.
    + intros n fn [?|(p' & Hin & ? & ?)]%Hsrc; [auto|right].
      exists p'. rewrite elem_of_module_protos. auto.
  - cbn [Prepass] in H. destruct (k !! pd_primitive p) as [fn0|] eqn:Ek;
      [|discriminate H].
    apply IH in H as (Hmono & Hdef & Hsrc).
    assert (Hkeep : ∀ n fn, protos !! n = Some fn →
                            emplace (pd_name p) fn0 protos !! n = Some fn).
    { intros n fn Hn. destruct (decide (pd_name p = n)) as [<-|Hne].
      - by rewrite emplace_lookup_eq, Hn.
      - by rewrite emplace_lookup_ne. }
    split; [auto|]. split.
    + intros p' [[= <-]|Hin]%elem_of_module_protos; [|auto].
      eexists. apply Hmono. apply emplace_lookup_eq.
    + intros n fn [Hn|(p' & Hin & ? & ?)]%Hsrc.
      * revert Hn. unfold emplace.
        destruct (protos !! pd_name p) eqn:E; [auto|].
        destruct (decide (pd_name p = n)) as [<-|Hne].
        -- rewrite lookup_insert_eq. intros [= <-]. right. exists p.
           rewrite elem_of_module_protos. auto.
        -- rewrite lookup_insert_ne by done. auto.
      * right. exists p'. rewrite elem_of_module_protos. auto.
  - cbn [Prepass] in H. apply IH in H as (Hmono & Hdef & Hsrc).
    split; [done|]. split.
    + intros p' [[=]|Hin]%elem_of_module_protos. auto.
    + intros n fn [?|(p' & Hin & ? & ?)]%Hsrc; [auto|right].
      exists p'. rewrite elem_of_module_protos. auto.
Qed.

Lemma LowerTopLevel_lowers Y mod_ : ∀ global s global' s',
  scope_entries global Y → LowerTopLevel mod_ global s = Ok (global', s') →
  lowers Y s s' ∧ scope_entries global' Y.
Proof.
  induction mod_ as [|[f|p|st] rest IH]; intros global s global' s' HY H.
  - injection H as <- <-. split; [apply lowers_refl|done].
  - by apply (IH _ _ _ _ HY H).
  - by apply (IH _ _ _ _ HY H).
  - cbn [LowerTopLevel] in H.
    destruct (LowerStmt global st s) as [[global1 s1]|] eqn:E;
      cbn [bind] in H; [|discriminate H].
    destruct (LowerStmt_lowers st Y _ _ _ _ HY E) as [L1 HY1].
    destruct (IH _ _ _ _ HY1 H) as [L2 HY2].
    split; [by eapply lowers_trans|done].
Qed.

Lemma LowerFuncDecl_streams Y scope decl s s' :
  scope_entries scope Y → LowerFuncDecl scope decl s = Ok s' →
  streams Y s s'
  ∧ ∃ label, funcs_ s !! fd_name decl = Some label
             ∧ is_Some (labelToAddress_ s' !! label).
Proof.
  intros HY H. unfold LowerFuncDecl in H.
  destruct (funcs_ s !! fd_name decl) as [label|]; [|discriminate H].
  destruct (assert_ _ _) in H; cbn [bind] in H; [|discriminate H].
  destruct (LowerBlockStmt _ _ _) as [s3|] eqn:E in H;
    cbn [bind] in H; [|discriminate H].
  destruct (assert_ _ _) in H; cbn [bind] in H; [|discriminate H].
  injection H as <-.
  pose proof (LowerStmt_lowers (BlockStmt (fd_body decl)) Y
                (FuncScope scope (func_args decl))
                (set_func (Some decl) (EmitLabel label s))
                (FuncScope scope (func_args decl)) s3
                (scope_entries_FuncScope _ _ _ HY)) as Hbody.
  cbn [LowerStmt] in Hbody. unfold LowerBlockStmt in E. rewrite E in Hbody.
  destruct (Hbody eq_refl) as [Lbody _].
  assert (S1 : streams Y s s3).
  { eapply streams_trans; [exact (lowers_streams _ _ _ (lowers_EmitLabel Y label s))|].
    eapply streams_trans; [apply streams_set_func|by apply lowers_streams]. }
  split.
  - eapply streams_trans; [exact S1|apply streams_set_func].
  - exists label. split; [done|]. cbn [set_func labelToAddress_].
    eapply grows_is_bound; [|apply (EmitLabel_binds label s)].
    eapply grows_trans; [|exact (lowers_grows _ _ _ Lbody)].
    by destruct (streams_set_func Y (Some decl) (EmitLabel label s)) as (_ & G & _).
Qed.

Lemma LowerFunctions_streams Y mod_ global : ∀ s s',
  scope_entries global Y → LowerFunctions mod_ global s = Ok s' →
  streams Y s s'
  ∧ ∀ f, f ∈ module_funcs mod_ →
      ∃ label, funcs_ s !! fd_name f = Some label
               ∧ is_Some (labelToAddress_ s' !! label).
Proof.
  induction mod_ as [|[f|p|st] rest IH]; intros s s' HY H.
  - injection H as <-. split; [apply streams_refl|].
    intros f Hf. by apply elem_of_nil in Hf.
  - cbn [LowerFunctions] in H.
    destruct (LowerFuncDecl global f s) as [s1|] eqn:E;
      cbn [bind] in H; [|discriminate H].
    destruct (LowerFuncDecl_streams Y _ _ _ _ HY E) as [S1 (label & Hl & Hb)].
    destruct (IH _ _ HY H) as [S2 Hrest].
    split; [by eapply streams_trans|].
    intros f' [[= <-]|Hin]%elem_of_module_funcs.
    + exists label. split; [done|].
      destruct S2 as (_ & G2 & _). by eapply grows_is_bound.
    + destruct (Hrest f' Hin) as (label' & Hl' & Hb').
      exists label'. split; [|done].
      destruct S1 as (_ & G1 & _). by rewrite <- (grows_funcs _ _ G1).
  - destruct (IH _ _ HY H) as [S Hrest]. split; [done|].
    intros f' [[=]|Hin]%elem_of_module_funcs. auto.
  - destruct (IH _ _ HY H) as [S Hrest]. split; [done|].
    intros f' [[=]|Hin]%elem_of_module_funcs. auto.
Qed.

Lemma LowerTopLevel_binds_above L0 mod_ : ∀ global s global' s',
  L0 <= nextLabel_ s → LowerTopLevel mod_ global s = Ok (global', s') →
  binds_above L0 s s'.
Proof.
  induction mod_ as [|[f|p|st] rest IH]; intros global s global' s' HL H.
  - injection H as <- <-. apply binds_above_refl.
  - by apply (IH _ _ _ _ HL H).
  - by apply (IH _ _ _ _ HL H).
  - cbn [LowerTopLevel] in H.
    destruct (LowerStmt global st s) as [[global1 s1]|] eqn:E;
      cbn [bind] in H; [|discriminate H].
    pose proof (LowerStmt_binds_above L0 st _ _ _ _ HL E) as B1.
    eapply binds_above_trans; [exact B1|].
    apply (IH _ _ _ _ (Z.le_trans _ _ _ HL (proj1 B1)) H).
Qed.

Lemma LowerFuncDecl_funcs_after L0 n scope decl s s' :
  L0 <= nextLabel_ s →
  (∀ name l, funcs_ s !! name = Some l → l <= L0) →
  (n < length (code_ s))%nat → funcs_after n s →
  LowerFuncDecl scope decl s = Ok s' →
  L0 <= nextLabel_ s' ∧ funcs_after n s'.
Proof.
  intros HL Hle Hn Hafter H. unfold LowerFuncDecl in H.
  destruct (funcs_ s !! fd_name decl) as [label|] eqn:El; [|discriminate H].
  destruct (assert_ _ _) in H; cbn [bind] in H; [|discriminate H].
  destruct (LowerBlockStmt _ _ _) as [s3|] eqn:E in H;
    cbn [bind] in H; [|discriminate H].
  destruct (assert_ _ _) in H; cbn [bind] in H; [|discriminate H].
  injection H as <-.
  set (s2 := set_func (Some decl) (EmitLabel label s)) in *.
  pose proof (LowerStmt_binds_above L0 (BlockStmt (fd_body decl))
                (FuncScope scope (func_args decl)) s2
                (FuncScope scope (func_args decl)) s3) as Hb.
  pose proof (LowerStmt_lowers (BlockStmt (fd_body decl)) (λ _, True)
                (FuncScope scope (func_args decl)) s2
                (FuncScope scope (func_args decl)) s3 (λ _ _ _, I)) as Hg.
  cbn [LowerStmt] in Hb, Hg. unfold LowerBlockStmt in E. rewrite E in Hb, Hg.
  assert (HL2 : L0 <= nextLabel_ s2).
  { unfold s2, EmitLabel. by destruct (fixups_ s !! label). }
  destruct (Hb HL2 eq_refl) as [Hnext Hbind].
  destruct (Hg eq_refl) as [(_ & G & _) _].
  split; [cbn; lia|].
  intros name l addr Hname Ha. cbn [set_func funcs_ labelToAddress_] in Hname, Ha.
  rewrite (grows_funcs _ _ G) in Hname.
  assert (Hname' : funcs_ s !! name = Some l).
  { revert Hname. unfold s2, EmitLabel. by destruct (fixups_ s !! label). }
  destruct (Hbind l addr Ha) as [H2|Habove]; [|specialize (Hle _ _ Hname'); lia].
  unfold s2 in H2. cbn [set_func labelToAddress_] in H2.
  rewrite labelToAddress_EmitLabel in H2.
  destruct (decide (label = l)) as [<-|Hne].
  - rewrite emplace_lookup_eq in H2. injection H2 as H2. subst addr.
    destruct (labelToAddress_ s !! label) as [old|] eqn:E0; cbn [default].
    + by apply (Hafter name label old).
    + done.
  - rewrite emplace_lookup_ne in H2 by done. by apply (Hafter name l addr).
Qed.

Lemma LowerFunctions_funcs_after L0 n mod_ global : ∀ s s',
  scope_entries global (λ _, True) →
  L0 <= nextLabel_ s →
  (∀ name l, funcs_ s !! name = Some l → l <= L0) →
  (n < length (code_ s))%nat → funcs_after n s →
  LowerFunctions mod_ global s = Ok s' → funcs_after n s'.
Proof.
  induction mod_ as [|[f|p|st] rest IH]; intros s s' HY HL Hle Hn Hafter H.
  - by injection H as <-.
  - cbn [LowerFunctions] in H.
    destruct (LowerFuncDecl global f s) as [s1|] eqn:E;
      cbn [bind] in H; [|discriminate H].
    destruct (LowerFuncDecl_funcs_after L0 n _ _ _ _ HL Hle Hn Hafter E)
      as [HL1 Hafter1].
    destruct (LowerFuncDecl_streams _ _ _ _ _ HY E) as [(_ & G & _) _].
    apply (IH s1 s' HY HL1); try done.
    + intros name l. rewrite (grows_funcs _ _ G). apply Hle.
    + pose proof (grows_length _ _ G). lia.
  - by apply (IH s s').
  - by apply (IH s s').
Qed.

Lemma funcs_fresh_new : funcs_fresh new_Codegen.
Proof.
  split; [done|]. split.
  - intros n l Hn. cbn in Hn. by rewrite lookup_empty in Hn.
  - intros n1 n2 l Hn. cbn in Hn. by rewrite lookup_empty in Hn.
Qed.

Lemma Prepass_funcs_source k mod_ : ∀ protos s protos' s',
  Prepass k mod_ protos s = Ok (protos', s') →
  ∀ n l, funcs_ s' !! n = Some l →
    funcs_ s !! n = Some l ∨ ∃ f, f ∈ module_funcs mod_ ∧ fd_name f = n.
Proof.
  induction mod_ as [|[f|p|st] rest IH]; intros protos s protos' s' H n l Hn.
  - injection H as <- <-. auto.
  - cbn [Prepass MakeLabel] in H.
    destruct (IH _ _ _ _ H n l Hn) as [Hs|(f' & Hin & Hf')].
    + cbn [funcs_ set_funcs set_nextLabel] in Hs.
      destruct (decide (fd_name f = n)) as [<-|Hne].
      * right. exists f. rewrite elem_of_module_funcs. auto.
      * rewrite emplace_lookup_ne in Hs by done. auto.
    + right. exists f'. rewrite elem_of_module_funcs. auto.
  - cbn [Prepass] in H. destruct (k !! pd_primitive p); [|discriminate H].
    destruct (IH _ _ _ _ H n l Hn) as [Hs|(f' & Hin & Hf')]; [auto|].
    right. exists f'. rewrite elem_of_module_funcs. auto.
  - cbn [Prepass] in H.
    destruct (IH _ _ _ _ H n l Hn) as [Hs|(f' & Hin & Hf')]; [auto|].
    right. exists f'. rewrite elem_of_module_funcs. auto.
Qed.

Lemma Prepass_labels k mod_ : ∀ protos s protos' s',
  Prepass k mod_ protos s = Ok (protos', s') →
  NoDup (fd_name <$> module_funcs mod_) →
  (∀ f, f ∈ module_funcs mod_ → funcs_ s !! fd_name f = None) →
  ∀ i f, module_funcs mod_ !! i = Some f →
    funcs_ s' !! fd_name f = Some (nextLabel_ s + Z.of_nat i + 1).
Proof.
  induction mod_ as [|[f0|p|st] rest IH]; intros protos s protos' s' H Hnd Hnew i f Hi.
  - done.
  - cbn [Prepass MakeLabel] in H.
    change (module_funcs (TFunc f0 :: rest)) with (f0 :: module_funcs rest) in *.
    rewrite fmap_cons in Hnd. apply NoDup_cons in Hnd as [Hnotin Hnd].
    set (s1 := set_funcs _ _) in H.
    assert (H0 : funcs_ s1 !! fd_name f0 = Some (nextLabel_ s + 1)).
    { cbn. rewrite emplace_lookup_eq, (Hnew f0) by (by left). done. }
    destruct i as [|j].
    + injection Hi as <-. rewrite Z.add_0_r.
      by apply (proj1 (Prepass_funcs _ _ _ _ _ _ H)).
    + cbn [lookup list_lookup] in Hi.
      rewrite (IH _ _ _ _ H Hnd) with (i := j); [cbn; f_equal; lia| |done].
      intros f' Hf'. cbn. rewrite emplace_lookup_ne.
      * apply Hnew. by right.
      * intros Heq. apply Hnotin. rewrite Heq. by apply list_elem_of_fmap_2.
  - cbn [Prepass] in H. destruct (k !! pd_primitive p); [|discriminate H].
    by apply (IH _ _ _ _ H Hnd Hnew).
  - cbn [Prepass] in H. by apply (IH _ _ _ _ H Hnd Hnew).
Qed.

Lemma NoDup_fmap_elem_eq {A B} (f : A → B) (l : list A) x y :
  NoDup (f <$> l) → x ∈ l → y ∈ l → f x = f y → x = y.
Proof.
  intros Hnd [i Hi]%list_elem_of_lookup [j Hj]%list_elem_of_lookup Hxy.
  assert (i = j) as ->; [|congruence].
  apply (NoDup_lookup (f <$> l) i j (f x) Hnd); rewrite list_lookup_fmap.
  - by rewrite Hi.
  - by rewrite Hj, Hxy.
Qed.

(** The three loops of [Translate] and what they leave: the pre-pass
    records every prototype and mints a label for every function; the
    stream of the second loop, with its fixup sites patched, comes first in
    the program, one STOP follows it, and every function label is bound
    behind that STOP; no label with a fixup site is left unbound. *)
Lemma Translate_stream kRuntimeFns mod_ prog final :
  Translate kRuntimeFns mod_ new_Codegen = Ok (prog, final) →
  ∃ protos s0 global1 s1,
    Prepass kRuntimeFns mod_ ∅ new_Codegen = Ok (protos, s0)
    ∧ code_ s0 = []
    ∧ nextLabel_ s0 = Z.of_nat (length (module_funcs mod_))
    ∧ funcs_fresh s0
    ∧ (∀ f, f ∈ module_funcs mod_ → is_Some (funcs_ s0 !! fd_name f))
    ∧ (NoDup (fd_name <$> module_funcs mod_) →
       ∀ i f, module_funcs mod_ !! i = Some f →
         funcs_ s0 !! fd_name f = Some (Z.of_nat i + 1))
    ∧ (∀ p, p ∈ module_protos mod_ → is_Some (protos !! pd_name p))
    ∧ protos_from kRuntimeFns mod_ protos
    ∧ (NoDup (pd_name <$> module_protos mod_) →
       ∀ p, p ∈ module_protos mod_ →
         protos !! pd_name p = kRuntimeFns !! pd_primitive p)
    ∧ LowerTopLevel mod_ (GlobalScope (funcs_ s0) protos) s0 = Ok (global1, s1)
    ∧ LowerFunctions mod_ global1 (Emit_Opcode STOP s1) = Ok final
    ∧ prog = code_ final
    ∧ (∃ top funcs_code,
         prog = top ++ opcode_byte STOP :: funcs_code
         ∧ length top = length (code_ s1)
         ∧ ∀ i, ¬ in_site s1 i → top !! i = code_ s1 !! i)
    ∧ (∀ f, f ∈ module_funcs mod_ →
         ∃ label a, funcs_ final !! fd_name f = Some label
                    ∧ labelToAddress_ final !! label = Some a
                    ∧ (length (code_ s1) < a)%nat)
    ∧ (∀ l, sites final l ≠ [] → is_Some (labelToAddress_ final !! l)).
Proof.
  intros H. unfold Translate in H. cbn [assert_ bind new_Codegen code_] in H.
  rewrite bool_decide_eq_true_2 in H by done. cbn [bind] in H.
  fold new_Codegen in H.
  destruct (Prepass kRuntimeFns mod_ ∅ new_Codegen) as [[protos s0]|] eqn:E0;
    cbn [bind] in H; [|discriminate H].
  destruct (LowerTopLevel mod_ (GlobalScope (funcs_ s0) protos) s0)
    as [[global1 s1]|] eqn:E1; cbn [bind] in H; [|discriminate H].
  destruct (LowerFunctions mod_ global1 (Emit_Opcode STOP s1)) as [s3|] eqn:E2;
    cbn [bind] in H; [|discriminate H].
  injection H as <- <-.
  exists protos, s0, global1, s1.
  destruct (Prepass_stream _ _ _ _ _ _ E0) as (Hc0 & Hf0 & Hl0 & _ & _ & Hn0).
  destruct (Prepass_funcs _ _ _ _ _ _ E0) as (_ & Hdef & Hfresh).
  destruct (Prepass_protos _ _ _ _ _ _ E0) as (_ & Hpdef & Hpsrc).
  set (Y := λ l, ∃ name, funcs_ s0 !! name = Some l).
  pose proof (scope_entries_GlobalScope (funcs_ s0) protos) as HY. fold Y in HY.
  destruct (LowerTopLevel_lowers Y _ _ _ _ _ HY E1) as [(I1 & G1 & R1 & _) HY1].
  destruct (LowerFunctions_streams Y _ _ _ _ HY1 E2) as [(I2 & G2 & R2) Hbound].
  pose proof (lowers_Emit Y [opcode_byte STOP] s1) as (Is & Gs & Rs & _).
  fold (Emit_Opcode STOP s1) in Is, Gs, Rs.
  assert (W0 : sites_in_range s0).
  { intros l loc. unfold sites. rewrite Hf0. cbn. rewrite lookup_empty.
    cbn. by intros ?%elem_of_nil. }
  assert (P0 : resolved Y s0).
  { intros l. unfold sites. rewrite Hf0. cbn. by rewrite lookup_empty. }
  assert (Hfuncs : funcs_ s3 = funcs_ s0).
  { rewrite (grows_funcs _ _ G2), (grows_funcs _ _ Gs). apply (grows_funcs _ _ G1). }
  assert (Hfb : ∀ f, f ∈ module_funcs mod_ →
            ∃ label, funcs_ s3 !! fd_name f = Some label
                     ∧ is_Some (labelToAddress_ s3 !! label)).
  { intros f Hf. destruct (Hbound f Hf) as (label & Hl & Hb).
    exists label. split; [|done].
    rewrite Hfuncs, <- (grows_funcs _ _ G1). exact Hl. }
  split; [done|]. split; [by rewrite Hc0|]. split; [by rewrite Hn0|].
  pose proof (Hfresh funcs_fresh_new) as Hfresh0.
  split; [exact Hfresh0|].
  assert (Hfrom : protos_from kRuntimeFns mod_ protos).
  { intros n fn [Hn|?]%Hpsrc; [by rewrite lookup_empty in Hn|done]. }
  split; [exact Hdef|].
  split.
  { intros Hnd i f Hi.
    rewrite (Prepass_labels _ _ _ _ _ _ E0 Hnd) with (i := i); [done| |done].
    intros f' _. cbn. apply lookup_empty. }
  split; [exact Hpdef|]. split; [exact Hfrom|].
  split.
  { intros Hnd p Hp. destruct (Hpdef p Hp) as [fn Hfn].
    destruct (Hfrom _ _ Hfn) as (p' & Hp' & Hname & Hk).
    rewrite (NoDup_fmap_elem_eq pd_name _ p' p Hnd Hp' Hp Hname) in Hk.
    by rewrite Hfn, Hk. }
  split; [done|]. split; [done|]. split; [done|].
  assert (Hafter : funcs_after (length (code_ s1)) s3).
  { destruct Hfresh0 as (_ & Hle & _).
    pose proof (LowerTopLevel_binds_above (nextLabel_ s0) _ _ _ _ _
                  (Z.le_refl _) E1) as [Hn1 Hb1].
    apply (LowerFunctions_funcs_after (nextLabel_ s0) (length (code_ s1))
             mod_ global1 (Emit_Opcode STOP s1) s3 (λ _ _ _, I)); try done.
    - intros name l. rewrite (grows_funcs _ _ Gs), (grows_funcs _ _ G1).
      intros Hl. by apply Hle in Hl as [_ ?].
    - unfold Emit_Opcode, Emit. cbn. rewrite length_app. cbn. lia.
    - intros name label a Hname Ha. exfalso.
      cbn [Emit_Opcode Emit set_code funcs_ labelToAddress_] in Hname, Ha.
      rewrite (grows_funcs _ _ G1) in Hname.
      destruct (Hb1 _ _ Ha) as [H0|Habove].
      + rewrite Hl0 in H0. cbn in H0. by rewrite lookup_empty in H0.
      + apply Hle in Hname. lia. }
  split; [|split].
  2:{ intros f Hf. destruct (Hfb f Hf) as (label & Hl & [a Ha]).
      exists label, a. split; [done|]. split; [done|].
      by apply (Hafter (fd_name f) label a). }
  - set (n := length (code_ s1)).
    assert (Hstop : code_ s3 !! n = Some (opcode_byte STOP)).
    { rewrite (grows_code _ _ G2).
      - unfold Emit_Opcode, Emit. cbn [code_ set_code].
        rewrite lookup_app_r by done. by rewrite Nat.sub_diag.
      - unfold Emit_Opcode, Emit. cbn [code_ set_code].
        rewrite length_app. cbn. lia.
      - intros (l & loc & Hloc & Hr).
        specialize (I1 W0 l loc Hloc). fold n in I1. lia. }
    exists (take n (code_ s3)), (drop (S n) (code_ s3)).
    split; [by rewrite take_drop_middle|].
    assert (Hlen : (n < length (code_ s3))%nat) by (by eapply lookup_lt_Some).
    split; [rewrite length_take; lia|].
    intros i Hi. destruct (decide (i < n)%nat) as [Hlt|Hge].
    + rewrite lookup_take_lt by done.
      apply (grows_code _ _ (grows_trans _ _ _ Gs G2)); done.
    + rewrite lookup_take_ge by lia. symmetry. apply lookup_ge_None. fold n. lia.
  - intros l Hl. destruct (R2 (Rs (R1 P0)) l Hl) as [Hb|[name Hn]]; [done|].
    assert (Hcase : ∃ f, f ∈ module_funcs mod_ ∧ fd_name f = name).
    { destruct (Prepass_funcs_source _ _ _ _ _ _ E0 name l Hn) as [Hs|?];
        [|done].
      cbn in Hs. by rewrite lookup_empty in Hs. }
    destruct Hcase as (f & Hf & <-).
    destruct (Hfb f Hf) as (label & Hl' & Hb).
    rewrite Hfuncs in Hl'. congruence.
Qed.

End CodegenFacts.

(** ** The comparison parser *)

Module ParserFacts.
Import Parser.

Lemma comparison_kind_at_other tk :
  is_comparison tk = false → comparison_kind_at tk = Kind.IS_EQ.
Proof.
  unfold is_comparison, comparison_kind_at. intros H.
  repeat (apply orb_false_iff in H as [H ?]).
  by repeat match goal with E : Token.Is _ _ = false |- _ => rewrite E; clear E end.
Qed.

(** C9: for an input [a OP b] with OP a comparison operator and no comparison
    token after [b], [ParseCompExpr] returns the node [BinaryExpr IS_EQ a b],
    whatever OP is: the kind is taken from the token that follows [b]. *)
Theorem ParseCompExpr_always_IS_EQ ParseExpr n lx a lx1 b lx2 :
  (2 ≤ n)%nat →
  ParseAddSubExpr ParseExpr n lx = Ok a lx1 →
  is_comparison (Current lx1) = true →
  ParseAddSubExpr ParseExpr n (Next lx1) = Ok b lx2 →
  is_comparison (Current lx2) = false →
  ParseCompExpr ParseExpr n lx = Ok (BinaryExpr Kind.IS_EQ a b) lx2.
Proof.
  intros Hn Ha Hop Hb Hend. unfold ParseCompExpr. rewrite Ha. cbn [bind].
  destruct n as [|[|m]]; [lia|lia|].
  cbn [CompLoop]. rewrite Hop, Hb. cbn [bind].
  by rewrite Hend, comparison_kind_at_other.
Qed.

Lemma ParseCompExpr_always_IS_EQ_witness :
  ParseCompExpr (ParseExpr 3) 3
    (lexer_of [Token.Integer 1; Token.Symbol Token.GREATER; Token.Integer 2;
               Token.Symbol Token.SEMI])
  = Ok (BinaryExpr Kind.IS_EQ (IntExpr 1) (IntExpr 2))
       (mkLexer (Token.Symbol Token.SEMI) []).
Proof.
  apply (ParseCompExpr_always_IS_EQ (ParseExpr 3) 3 _ (IntExpr 1)
           (mkLexer (Token.Symbol Token.GREATER)
                    [Token.Integer 2; Token.Symbol Token.SEMI])).
  - lia.
  - reflexivity.
  - reflexivity.
  - reflexivity.
  - reflexivity.
Defined.

End ParserFacts.

(** ** The code generator: further properties *)

Module CodegenMore.
Import Bytes BytesFacts Codegen CodegenSpec CodegenFacts CodegenMoreSpec.

(** *** Expressions only append *)

(** What an expression step does to the generator besides the depth. *)
Lemma appends_refl s : ∃ c, code_ s = code_ s ++ c.
Proof. exists []. by rewrite app_nil_r. Qed.

Lemma appends_trans s1 s2 s3 :
  (∃ c, code_ s2 = code_ s1 ++ c) → (∃ c, code_ s3 = code_ s2 ++ c) →
  ∃ c, code_ s3 = code_ s1 ++ c.
Proof.
  intros [c1 H1] [c2 H2]. exists (c1 ++ c2). by rewrite H2, H1, app_assoc.
Qed.

Lemma appends_EmitFixup l s : ∃ c, code_ (EmitFixup l s) = code_ s ++ c.
Proof. unfold EmitFixup. destruct (labelToAddress_ s !! l); by eexists. Qed.

Lemma appends_EmitBinary op s s' :
  EmitBinary op s = Ok s' → ∃ c, code_ s' = code_ s ++ c.
Proof.
  unfold EmitBinary. intros H. inv_bind H. injection H as <-.
  apply consume_one_Ok in E as [-> _]. by eexists.
Qed.

Lemma LowerArgsReversed_appends scope args :
  Forall (λ e, ∀ s s', LowerExpr scope e s = Ok s' →
                 ∃ c, code_ s' = code_ s ++ c) args →
  ∀ s s', LowerArgsReversed (LowerExpr scope) args s = Ok s' →
    ∃ c, code_ s' = code_ s ++ c.
Proof.
  induction 1 as [|a rest Ha _ IH]; intros s s' H.
  - injection H as <-. apply appends_refl.
  - cbn [LowerArgsReversed] in H. inv_bind H.
    eapply appends_trans; [by apply IH|by apply Ha].
Qed.

Lemma LowerExpr_appends_code scope e :
  ∀ s s', LowerExpr scope e s = Ok s' → ∃ c, code_ s' = code_ s ++ c.
Proof.
  induction e as [name|kind lhs rhs IHl IHr|callee args IHc IHa|n]
    using Expr_nested_ind; intros s s' H.
  - cbn [LowerExpr] in H. unfold LowerRefExpr in H.
    destruct (Lookup scope name) as [[entry|fn|index|index]|];
      [|injection H as <-; cbn; rewrite <- app_assoc; by eexists..|discriminate H].
    injection H as <-. unfold EmitPushFunc.
    eapply appends_trans; [|apply appends_EmitFixup]. by eexists.
  - cbn [LowerExpr] in H. unfold LowerBinaryExpr in H. inv_bind H.
    eapply appends_trans; [by apply IHl|].
    eapply appends_trans; [by apply IHr|].
    destruct kind; by eapply appends_EmitBinary.
  - cbn [LowerExpr] in H. unfold LowerCallExpr in H. inv_bind H.
    injection H as <-.
    eapply appends_trans;
      [by apply (LowerArgsReversed_appends scope args IHa _ _ E)|].
    eapply appends_trans; [by apply IHc|]. by eexists.
  - injection H as <-. cbn. rewrite <- app_assoc. by eexists.
Qed.

(** Lowering an expression only appends to the stream, leaves one more value
    on the modelled stack (modulo 2^32), and neither mints nor binds a label
    nor touches [funcs_] and [func_]. *)
Theorem LowerExpr_only_appends scope e s s' :
  LowerExpr scope e s = Ok s' →
  (∃ c, code_ s' = code_ s ++ c)
  ∧ depth_ s' = u32 (depth_ s + 1)
  ∧ labelToAddress_ s' = labelToAddress_ s
  ∧ nextLabel_ s' = nextLabel_ s
  ∧ funcs_ s' = funcs_ s
  ∧ func_ s' = func_ s.
Proof.
  intros H.
  destruct (LowerExpr_lowers (λ _, True) scope e (λ _ _ _, I) s s' H)
    as [(_ & G & _ & F) D].
  destruct (LowerExpr_same_labels scope e s s' H) as [L N].
  split; [by eapply LowerExpr_appends_code|].
  repeat split; try done. apply (grows_funcs _ _ G).
Qed.

Lemma LowerExpr_only_appends_witness :
  ∃ s', LowerExpr (GlobalScope ∅ ∅)
          (BinaryExpr Kind.ADD (IntExpr 1) (IntExpr 2)) new_Codegen = Ok s'
        ∧ depth_ s' = u32 (0 + 1).
Proof.
  eexists. split; [reflexivity|].
  refine (proj1 (proj2 (LowerExpr_only_appends (GlobalScope ∅ ∅)
            (BinaryExpr Kind.ADD (IntExpr 1) (IntExpr 2)) new_Codegen _ _))).
  reflexivity.
Defined.

(** *** Statements append and patch; they bind only their own labels *)

(** Lowering a statement never shortens the stream and changes an existing
    byte only inside the four bytes of a fixup site that was pending before;
    every pending site stays an eight byte placeholder inside the stream. *)
Theorem LowerStmt_keeps_stream scope stmt s scope' s' :
  LowerStmt scope stmt s = Ok (scope', s') →
  (length (code_ s) ≤ length (code_ s'))%nat
  ∧ (∀ i, (i < length (code_ s))%nat → ¬ in_site s i →
       code_ s' !! i = code_ s !! i)
  ∧ (∀ l loc, loc ∈ sites s' l →
       loc ∈ sites s l ∨ (length (code_ s) ≤ loc)%nat)
  ∧ (sites_in_range s → sites_in_range s')
  ∧ funcs_ s' = funcs_ s ∧ func_ s' = func_ s.
Proof.
  intros H.
  destruct (LowerStmt_lowers stmt (λ _, True) scope s scope' s' (λ _ _ _, I) H)
    as [(Ir & G & _ & F) _].
  split; [apply (grows_length _ _ G)|].
  split; [apply (grows_code _ _ G)|].
  split; [apply (grows_sites _ _ G)|].
  split; [done|]. split; [apply (grows_funcs _ _ G)|done].
Qed.

Lemma LowerStmt_keeps_stream_witness :
  (length (code_ new_Codegen)
   ≤ length (code_ (Emit_Opcode POP (set_depth 0 (EmitInt 7 new_Codegen)))))%nat.
Proof.
  refine (proj1 (LowerStmt_keeps_stream (GlobalScope ∅ ∅) (ExprStmt (IntExpr 7))
                   new_Codegen (GlobalScope ∅ ∅) _ _)).
  reflexivity.
Defined.

(** A statement keeps every binding it finds, binds only labels minted
    while it is lowered (above the [nextLabel_] it starts from), and never
    lowers [nextLabel_]. *)
Theorem LowerStmt_binds_own_labels scope stmt s scope' s' :
  LowerStmt scope stmt s = Ok (scope', s') →
  nextLabel_ s <= nextLabel_ s'
  ∧ (∀ l a, labelToAddress_ s !! l = Some a → labelToAddress_ s' !! l = Some a)
  ∧ (∀ l a, labelToAddress_ s' !! l = Some a →
       labelToAddress_ s !! l = Some a ∨ nextLabel_ s < l).
Proof.
  intros H.
  destruct (LowerStmt_lowers stmt (λ _, True) scope s scope' s' (λ _ _ _, I) H)
    as [(_ & G & _) _].
  destruct (LowerStmt_binds_above (nextLabel_ s) stmt scope s scope' s'
              (Z.le_refl _) H) as [N B].
  split; [done|]. split; [apply (grows_bound _ _ G)|done].
Qed.

Lemma LowerStmt_binds_own_labels_witness :
  ∃ scope' s', LowerStmt (GlobalScope ∅ ∅)
          (WhileStmt (IntExpr 0) (BlockStmt [])) new_Codegen
        = Ok (scope', s')
        ∧ nextLabel_ new_Codegen <= nextLabel_ s'.
Proof.
  destruct (LowerStmt (GlobalScope ∅ ∅) (WhileStmt (IntExpr 0) (BlockStmt []))
              new_Codegen) as [[scope' s']|msg] eqn:E.
  - exists scope', s'. split; [reflexivity|].
    exact (proj1 (LowerStmt_binds_own_labels _ _ _ _ _ E)).
  - vm_compute in E. discriminate E.
Defined.

(** After a statement, a label with a pending fixup site is bound, or was
    pending before, or is the entry of a function in scope: the jumps a
    statement emits to its own labels are all resolved when it ends. *)
Theorem LowerStmt_resolves_own_jumps scope stmt s scope' s' :
  LowerStmt scope stmt s = Ok (scope', s') →
  ∀ l, sites s' l ≠ [] →
    is_Some (labelToAddress_ s' !! l) ∨ sites s l ≠ [] ∨ scope_entry scope l.
Proof.
  intros H.
  set (Y := λ l, sites s l ≠ [] ∨ scope_entry scope l).
  assert (HY : scope_entries scope Y).
  { intros name l Hl. right. by exists name. }
  destruct (LowerStmt_lowers stmt Y scope s scope' s' HY H) as [(_ & _ & R & _) _].
  apply R. intros l Hl. right. by left.
Qed.

Lemma LowerStmt_resolves_own_jumps_witness :
  ∃ scope' s', LowerStmt (GlobalScope ∅ ∅)
          (WhileStmt (IntExpr 0) (BlockStmt [])) new_Codegen
        = Ok (scope', s')
        ∧ ∀ l, sites s' l ≠ [] →
            is_Some (labelToAddress_ s' !! l) ∨ sites new_Codegen l ≠ []
            ∨ scope_entry (GlobalScope ∅ ∅) l.
Proof.
  destruct (LowerStmt (GlobalScope ∅ ∅) (WhileStmt (IntExpr 0) (BlockStmt []))
              new_Codegen) as [[scope' s']|msg] eqn:E.
  - exists scope', s'. split; [reflexivity|].
    exact (LowerStmt_resolves_own_jumps _ _ _ _ _ E).
  - vm_compute in E. discriminate E.
Defined.

End CodegenMore.

(** ** The code generator: arguments, fixup sites, blocks and loops *)

Module CodegenLayout.
Import Bytes BytesFacts Codegen CodegenSpec CodegenFacts CodegenMoreSpec.

(** *** Argument indices *)

Lemma foldl_args_other (l : list (string * string)) : ∀ (m : gmap string Z) n,
  n ∉ l.*1 →
  foldl (λ args a, <[a.1 := u32 (Z.of_nat (size args))]> args) m l !! n = m !! n.
Proof.
  induction l as [|a l IH]; intros m n Hn; [done|].
  cbn [foldl]. rewrite fmap_cons in Hn. apply not_elem_of_cons in Hn as [Hne Hn].
  rewrite IH by done. by rewrite lookup_insert_ne.
Qed.

Lemma foldl_args_index (l : list (string * string)) : ∀ (m : gmap string Z),
  NoDup l.*1 → (∀ n, n ∈ l.*1 → m !! n = None) →
  ∀ i a, l !! i = Some a →
    foldl (λ args a, <[a.1 := u32 (Z.of_nat (size args))]> args) m l !! a.1
    = Some (u32 (Z.of_nat (size m + i))).
Proof.
  induction l as [|a0 l IH]; intros m Hnd Hnew i a Hi; [done|].
  cbn [foldl]. rewrite fmap_cons in Hnd. apply NoDup_cons in Hnd as [Hnotin Hnd].
  destruct i as [|i].
  - injection Hi as <-. rewrite foldl_args_other by done.
    rewrite lookup_insert_eq. do 2 f_equal. lia.
  - cbn [lookup list_lookup] in Hi.
    rewrite (IH _ Hnd) with (i := i); [| |done].
    + rewrite map_size_insert_None by (apply Hnew; rewrite fmap_cons; by left).
      do 2 f_equal. lia.
    + intros n Hn. rewrite lookup_insert_ne.
      * apply Hnew. rewrite fmap_cons. by right.
      * intros <-. done.
Qed.

(** When the argument names of a function are pairwise distinct, the i-th
    argument (from 0) is bound to index i, and a reference to it inside the
    function resolves to ARG i. *)
Theorem func_args_positions decl parent i name type :
  NoDup (fd_args decl).*1 →
  fd_args decl !! i = Some (name, type) →
  Z.of_nat i < 2 ^ 32 →
  func_args decl !! name = Some (Z.of_nat i)
  ∧ Lookup (FuncScope parent (func_args decl)) name = Some (ARG (Z.of_nat i)).
Proof.
  intros Hnd Hi Hr.
  assert (H : func_args decl !! name = Some (Z.of_nat i)).
  { unfold func_args.
    rewrite (foldl_args_index (fd_args decl) ∅ Hnd) with (i := i) (a := (name, type));
      [|intros; apply lookup_empty|done].
    rewrite map_size_empty, u32_small by lia. do 2 f_equal. }
  split; [done|]. cbn [Lookup]. by rewrite H.
Qed.

Lemma func_args_positions_witness :
  func_args (mkFuncDecl "f" [("a", "int"); ("b", "int")]%string "int" []) !! "b"%string
  = Some 1.
Proof.
  refine (proj1 (func_args_positions
            (mkFuncDecl "f" [("a", "int"); ("b", "int")]%string "int" [])
            (GlobalScope ∅ ∅) 1 "b" "int" _ _ _)).
  - by apply (bool_decide_unpack _).
  - reflexivity.
  - reflexivity.
Defined.

(** *** What [EmitLabel] writes *)

Lemma lookup_patch_in a code loc k :
  (loc + 4 ≤ length code)%nat → (k < 4)%nat →
  patch a code loc !! (loc + k)%nat = le_bytes 4 (Z.of_nat a) !! k.
Proof.
  intros Hlen Hk. unfold patch.
  rewrite list_lookup_inserts by (rewrite ?length_le_bytes; lia).
  f_equal. lia.
Qed.

Lemma lookup_patch_out a code loc i :
  ¬ (loc ≤ i < loc + 4)%nat → patch a code loc !! i = code !! i.
Proof.
  intros Hout. unfold patch. destruct (decide (i < loc)%nat).
  - by apply list_lookup_inserts_lt.
  - apply list_lookup_inserts_ge. rewrite length_le_bytes. lia.
Qed.

Lemma length_patch a code loc : length (patch a code loc) = length code.
Proof. apply length_inserts. Qed.

Lemma lookup_foldl_patch_in a locs : ∀ code loc k,
  sites_apart locs → loc ∈ locs →
  (loc + 4 ≤ length code)%nat → (k < 4)%nat →
  foldl (patch a) code locs !! (loc + k)%nat = le_bytes 4 (Z.of_nat a) !! k.
Proof.
  induction locs as [|loc0 locs IH]; intros code loc k Hap Hin Hlen Hk.
  - by apply elem_of_nil in Hin.
  - cbn [foldl].
    assert (Hap' : sites_apart locs).
    { intros x y Hx Hy. apply Hap; by right. }
    destruct (decide (loc ∈ locs)) as [Hrest|Hrest].
    + apply IH; [done|done|by rewrite length_patch|done].
    + apply elem_of_cons in Hin as [->|Hin]; [|done].
      rewrite lookup_foldl_patch.
      * by apply lookup_patch_in.
      * intros loc' Hloc' Hr.
        destruct (Hap loc0 loc') as [->|[?|?]]; [by left|by right|done|lia|lia].
Qed.

Lemma lookup_foldl_patch_high a locs code loc k :
  sites_apart locs → loc ∈ locs → (4 ≤ k < 8)%nat →
  foldl (patch a) code locs !! (loc + k)%nat = code !! (loc + k)%nat.
Proof.
  intros Hap Hin Hk. apply lookup_foldl_patch.
  intros loc' Hloc' Hr. destruct (Hap loc loc') as [->|[?|?]]; [done|done|lia..].
Qed.

(** [EmitLabel] writes the low four bytes of the stream offset into every
    site recorded for the label and leaves the site's other four bytes as
    they are: a placeholder of eight zero bytes then reads as the offset
    modulo 2^32, and as the offset itself while the stream is shorter than
    2^32 bytes. *)
Theorem EmitLabel_resolves_sites l s loc :
  sites_apart (sites s l) → loc ∈ sites s l →
  slice loc 8 (code_ s) = Some (le_bytes 8 0) →
  slice loc 8 (code_ (EmitLabel l s))
  = Some (le_bytes 4 (Z.of_nat (length (code_ s))) ++ [0; 0; 0; 0])
  ∧ (Z.of_nat (length (code_ s)) < 2 ^ 32 →
     slice loc 8 (code_ (EmitLabel l s))
     = Some (le_bytes 8 (Z.of_nat (length (code_ s))))).
Proof.
  intros Hap Hin Hzero.
  assert (Hlen : (loc + 8 ≤ length (code_ s))%nat).
  { unfold slice in Hzero. case_decide as Hl; [|done].
    rewrite length_take, length_drop in Hl. lia. }
  assert (Hold : ∀ k, (k < 8)%nat → code_ s !! (loc + k)%nat = Some 0).
  { intros k Hk. unfold slice in Hzero. case_decide; [|done].
    injection Hzero as Hz.
    rewrite <- (lookup_drop (code_ s) loc k), <- (lookup_take_lt _ 8) by done.
    rewrite Hz. by repeat (destruct k as [|k]; [done|]; try lia). }
  assert (Hslice : slice loc 8 (code_ (EmitLabel l s))
                   = Some (le_bytes 4 (Z.of_nat (length (code_ s))) ++ [0; 0; 0; 0])).
  { rewrite code_EmitLabel. unfold slice.
    rewrite decide_True
      by (rewrite length_take, length_drop, length_foldl_patch; lia).
    f_equal. apply list_eq. intros k.
    destruct (decide (k < 8)%nat) as [Hk|Hk].
    - rewrite lookup_take_lt, lookup_drop by done.
      destruct (decide (k < 4)%nat) as [Hk4|Hk4].
      + rewrite (lookup_foldl_patch_in _ _ _ loc k) by (done || lia).
        rewrite lookup_app_l by (rewrite length_le_bytes; lia). done.
      + rewrite (lookup_foldl_patch_high _ _ _ loc k) by (done || lia).
        rewrite Hold by done.
        rewrite lookup_app_r by (rewrite length_le_bytes; lia).
        rewrite length_le_bytes.
        by repeat (destruct k as [|k]; [done || lia|]; try lia).
    - rewrite lookup_take_ge by lia. symmetry. apply lookup_ge_None.
      rewrite length_app, length_le_bytes. cbn. lia. }
  split; [done|]. intros Hsmall. rewrite Hslice. f_equal.
  generalize (Z.of_nat (length (code_ s))) Hsmall (Nat2Z.is_nonneg (length (code_ s))).
  intros a Ha Ha0. change 8%nat with (4 + 4)%nat.
  cbn [le_bytes app Nat.add]. do 4 f_equal.
  assert (H0 : a / 256 / 256 / 256 / 256 = 0).
  { rewrite !Z.div_div by lia. apply Z.div_small. lia. }
  rewrite H0. reflexivity.
Qed.

Lemma EmitLabel_resolves_sites_witness :
  slice 1 8 (code_ (EmitLabel 7 (after_jump 7 [4; 4])))
  = Some (le_bytes 8 (Z.of_nat (length (code_ (after_jump 7 [4; 4]))))).
Proof.
  refine (proj2 (EmitLabel_resolves_sites 7 (after_jump 7 [4; 4]) 1 _ _ _) _).
  - vm_compute. intros loc loc' Hl Hl'.
    apply list_elem_of_singleton in Hl as ->.
    apply list_elem_of_singleton in Hl' as ->. by left.
  - vm_compute. by left.
  - reflexivity.
  - vm_compute. reflexivity.
Defined.

(** *** Blocks *)

Lemma EmitPops_spec n : ∀ s,
  0 <= depth_ s < 2 ^ 32 →
  if decide (Z.of_nat n <= depth_ s) then
    ∃ s', EmitPops n s = Ok s'
          ∧ code_ s' = code_ s ++ replicate n (opcode_byte POP)
          ∧ depth_ s' = depth_ s - Z.of_nat n
  else EmitPops n s = AssertFail "no elements on stack".
Proof.
  induction n as [|n IH]; intros s Hd.
  - rewrite decide_True by lia. exists s. cbn. rewrite app_nil_r.
    repeat split. lia.
  - cbn [EmitPops]. unfold EmitPop, consume_one, assert_.
    destruct (Z.ltb_spec 0 (depth_ s)) as [Hpos|Hpos]; cbn [bind].
    + set (s1 := Emit_Opcode POP (set_depth (u32 (depth_ s - 1)) s)).
      assert (Hd1 : depth_ s1 = depth_ s - 1) by (cbn; apply u32_small; lia).
      specialize (IH s1 ltac:(lia)). rewrite Hd1 in IH.
      destruct (decide (Z.of_nat n <= depth_ s - 1)) as [D1|D1];
        destruct (decide (Z.of_nat (S n) <= depth_ s)) as [D|D]; try lia.
      * destruct IH as (s' & -> & Hc & Hdep). exists s'.
        split; [done|]. split; [|lia].
        rewrite Hc. cbn. by rewrite <- app_assoc.
      * exact IH.
    + rewrite decide_False by lia. done.
Qed.

(** Given how its statements were lowered, a block is lowered without a
    failed assertion exactly when the depth after its statements is the depth
    at entry plus the number of locals it declared; it then appends one POP
    per local and restores the depth. *)
Theorem LowerBlockStmt_balance scope body s blockScope s1 :
  LowerStmts LowerStmt body (BlockScope scope ∅) s = Ok (blockScope, s1) →
  0 <= depth_ s → 0 <= depth_ s1 < 2 ^ 32 →
  ((∃ s', LowerBlockStmt scope body s = Ok s')
   ↔ depth_ s1 = depth_ s + Z.of_nat (NumberOfLocals blockScope))
  ∧ (∀ s', LowerBlockStmt scope body s = Ok s' →
       code_ s' = code_ s1 ++ replicate (NumberOfLocals blockScope) (opcode_byte POP)
       ∧ depth_ s' = depth_ s).
Proof.
  intros Hbody Hd Hd1. unfold LowerBlockStmt, LowerBlockStmtWith.
  rewrite Hbody. cbn [bind].
  pose proof (EmitPops_spec (NumberOfLocals blockScope) s1 Hd1) as Hp.
  case_decide as D.
  - destruct Hp as (s2 & -> & Hc & Hdep). cbn [bind]. unfold assert_.
    destruct (Z.eqb_spec (depth_ s2) (depth_ s)) as [Heq|Hne]; cbn [bind].
    + split; [split; [lia|by eexists]|]. by intros s' [= <-].
    + split; [split; [by intros [s' ?]|lia]|]. by intros s' ?.
  - rewrite Hp. cbn [bind]. split; [split; [by intros [s' ?]|lia]|]. by intros s' ?.
Qed.

Lemma LowerBlockStmt_balance_witness :
  ∃ s', LowerBlockStmt (GlobalScope ∅ ∅) [LetStmt "x" "int" (Some (IntExpr 1))]
          new_Codegen = Ok s'.
Proof.
  refine (proj2 (proj1 (LowerBlockStmt_balance (GlobalScope ∅ ∅)
            [LetStmt "x" "int" (Some (IntExpr 1))] new_Codegen
            (BlockScope (GlobalScope ∅ ∅) {[ "x"%string := 1 ]})
            (EmitInt 1 new_Codegen) _ _ _)) _).
  - vm_compute. reflexivity.
  - vm_compute. discriminate.
  - vm_compute. split; [discriminate|reflexivity].
  - vm_compute. reflexivity.
Defined.

(** *** Loops *)

Lemma foldl_patch_app a locs : ∀ code tail,
  (∀ loc, loc ∈ locs → (loc + 4 ≤ length code)%nat) →
  foldl (patch a) (code ++ tail) locs = foldl (patch a) code locs ++ tail.
Proof.
  induction locs as [|loc locs IH]; intros code tail Hin; [done|].
  cbn [foldl]. rewrite <- IH.
  - f_equal. unfold patch. apply list_eq. intros i.
    assert (Hloc : (loc + 4 ≤ length code)%nat) by (apply Hin; by left).
    destruct (decide (i < length code)%nat) as [Hi|Hi].
    + rewrite lookup_app_l by (by rewrite length_inserts).
      destruct (decide (loc ≤ i < loc + 4)%nat).
      * rewrite !list_lookup_inserts
          by (rewrite ?length_le_bytes, ?length_app; lia). done.
      * fold (patch a (code ++ tail) loc). fold (patch a code loc).
        rewrite !lookup_patch_out by done. by rewrite lookup_app_l.
    + rewrite lookup_app_r by (rewrite length_inserts; lia).
      rewrite length_inserts.
      rewrite list_lookup_inserts_ge by (rewrite length_le_bytes; lia).
      by rewrite lookup_app_r by lia.
  - intros loc' Hloc'. rewrite length_patch. apply Hin. by right.
Qed.

(** A [while] binds its first label to the offset at which the loop starts
    and its second label to the offset at which it ends, and the last
    instruction it emits is [JUMP] to the loop's start. *)
Theorem LowerWhileStmt_back_edge scope cond body s scope' s' :
  LowerStmt scope (WhileStmt cond body) s = Ok (scope', s') →
  sites_in_range s → labels_fresh s →
  labelToAddress_ s' !! (nextLabel_ s + 1) = Some (length (code_ s))
  ∧ labelToAddress_ s' !! (nextLabel_ s + 2) = Some (length (code_ s'))
  ∧ ∃ c, code_ s' = c ++ opcode_byte JUMP
                      :: le_bytes 8 (Z.of_nat (length (code_ s))).
Proof.
  intros H Hrange Hfresh.
  cbn [LowerStmt] in H. unfold LowerWhileStmt in H. cbn [MakeLabel] in H.
  set (entry := nextLabel_ s + 1) in *.
  set (s1 := set_nextLabel entry s) in *.
  set (exit := nextLabel_ s1 + 1) in *.
  set (s2 := set_nextLabel exit s1) in *.
  set (s3 := EmitLabel entry s2) in *.
  destruct (LowerExpr scope cond s3) as [s4|] eqn:E1;
    cbn [bind] in H; [|discriminate H].
  destruct (EmitJumpFalse exit s4) as [s5|] eqn:E2;
    cbn [bind] in H; [|discriminate H].
  destruct (LowerStmt scope body s5) as [[scope1 s6]|] eqn:E3;
    cbn [bind] in H; [|discriminate H].
  injection H as <- <-.
  assert (Hexit : exit = nextLabel_ s + 2) by (unfold exit, s1, entry; cbn; lia).
  rewrite <- Hexit.
  (* the entry label is bound to the start of the loop *)
  assert (Hunb : ∀ l, nextLabel_ s < l → labelToAddress_ s !! l = None).
  { intros l Hl. destruct (labelToAddress_ s !! l) eqn:E; [|done].
    specialize (Hfresh l ltac:(eauto)). lia. }
  assert (B3 : labelToAddress_ s3 !! entry = Some (length (code_ s))).
  { unfold s3. rewrite labelToAddress_EmitLabel, emplace_lookup_eq.
    cbn [s2 s1 set_nextLabel labelToAddress_ code_].
    rewrite Hunb by (unfold entry; lia). done. }
  assert (U3 : labelToAddress_ s3 !! exit = None).
  { unfold s3. rewrite labelToAddress_EmitLabel, emplace_lookup_ne
      by (unfold exit, s1, entry; cbn; lia).
    cbn [s2 s1 set_nextLabel labelToAddress_]. apply Hunb. lia. }
  pose proof (LowerExpr_same_labels _ _ _ _ E1) as [L4 N4].
  pose proof (same_labels_EmitJumpFalse _ _ _ E2) as [L5 N5].
  assert (N3 : nextLabel_ s3 = exit).
  { unfold s3, EmitLabel. by destruct (fixups_ s2 !! entry). }
  destruct (LowerStmt_binds_above exit body scope s5 scope1 s6
              ltac:(rewrite N5, N4, N3; lia) E3) as [_ B6].
  destruct (LowerStmt_lowers body (λ _, True) scope s5 scope1 s6 (λ _ _ _, I) E3)
    as [(I6 & G6 & _) _].
  assert (Be6 : labelToAddress_ s6 !! entry = Some (length (code_ s))).
  { apply (grows_bound _ _ G6). by rewrite L5, L4. }
  assert (Ue6 : labelToAddress_ s6 !! exit = None).
  { destruct (labelToAddress_ s6 !! exit) as [a|] eqn:E; [|done].
    destruct (B6 _ _ E) as [H5|?]; [|lia]. rewrite L5, L4, U3 in H5. done. }
  (* the stream just before the exit label is emitted *)
  set (s7 := EmitJump entry s6) in *.
  assert (C7 : code_ s7 = (code_ s6 ++ [opcode_byte JUMP])
                          ++ le_bytes 8 (Z.of_nat (length (code_ s)))).
  { unfold s7, EmitJump. rewrite (EmitFixup_bound _ _ (length (code_ s))) by done.
    done. }
  assert (L7 : labelToAddress_ s7 = labelToAddress_ s6)
    by apply (same_labels_EmitJump entry s6).
  assert (S7 : ∀ l, sites s7 l = sites s6 l).
  { intros l. unfold s7, EmitJump.
    rewrite (EmitFixup_bound _ _ (length (code_ s))) by done. done. }
  assert (R6 : sites_in_range s6).
  { apply I6.
    destruct (lowers_EmitJumpFalse (λ _, True) exit s4 s5 (or_intror I) E2)
      as [(I5 & _) _].
    destruct (LowerExpr_lowers (λ _, True) scope cond (λ _ _ _, I) s3 s4 E1)
      as [(I4 & _) _].
    apply I5, I4. apply (lowers_EmitLabel (λ _, True)).
    by apply (lowers_same (λ _, True) s s2). }
  split; [|split].
  - rewrite labelToAddress_EmitLabel, emplace_lookup_ne
      by (unfold exit, s1, entry; cbn; lia).
    by rewrite L7.
  - rewrite labelToAddress_EmitLabel, emplace_lookup_eq, L7, Ue6. cbn [default].
    f_equal. rewrite code_EmitLabel. by rewrite length_foldl_patch.
  - rewrite code_EmitLabel, C7, <- app_assoc, S7.
    rewrite foldl_patch_app.
    + eexists. reflexivity.
    + intros loc Hloc. specialize (R6 _ _ Hloc). lia.
Qed.

Lemma LowerWhileStmt_back_edge_witness :
  ∃ scope' s',
    LowerStmt (GlobalScope ∅ ∅) (WhileStmt (IntExpr 0) (BlockStmt [])) new_Codegen
    = Ok (scope', s')
    ∧ labelToAddress_ s' !! (nextLabel_ new_Codegen + 1)
      = Some (length (code_ new_Codegen)).
Proof.
  destruct (LowerStmt (GlobalScope ∅ ∅) (WhileStmt (IntExpr 0) (BlockStmt []))
              new_Codegen) as [[scope' s']|msg] eqn:E.
  - exists scope', s'. split; [reflexivity|].
    refine (proj1 (LowerWhileStmt_back_edge _ _ _ _ _ _ E _ _)).
    + intros l loc Hl. vm_compute in Hl. by apply elem_of_nil in Hl.
    + intros l [a Ha]. vm_compute in Ha. discriminate Ha.
  - vm_compute in E. discriminate E.
Defined.

End CodegenLayout.

(** ** Running what the generator emits *)

Module RunFacts.
Import Bytes BytesFacts Interp InterpFacts Codegen CodegenSpec CodegenFacts RunSpec.

Lemma steps_add n m st :
  steps (n + m) st
  = match steps n st with
    | Continue st' => steps m st'
    | o => o
    end.
Proof.
  revert st; induction n as [|n IH]; intros st; [done|].
  cbn [Nat.add steps]. destruct (step st); auto.
Qed.

Lemma EmitKind_kind_opcode k : EmitKind k = EmitBinary (kind_opcode k).
Proof. by destruct k. Qed.

Lemma exec_binop k prog pc lhs rhs stk :
  exec (kind_opcode k) (Interp.mkState prog pc (VInt rhs :: VInt lhs :: stk))
  = finish (binop k lhs rhs) (λ v, Interp.mkState prog pc (VInt v :: stk)).
Proof.
  unfold binop, finish.
  destruct k;
    cbn [kind_opcode exec pop_operands PopInt Pop stack_ prog_ pc_ Push];
    repeat match goal with
    | |- context [if ?b then _ else _] => destruct b
    end; reflexivity.
Qed.

Lemma PUSH_INT_step pre post stk n :
  step (at_op pre PUSH_INT (le_bytes 8 n) post stk)
  = Continue (Interp.mkState (pre ++ opcode_byte PUSH_INT :: le_bytes 8 n ++ post)
                      (Z.of_nat (length pre) + 9) (VInt (wrap64 n) :: stk)).
Proof.
  rewrite step_at_op. cbn [exec prog_ pc_].
  rewrite Read_imm by (by rewrite length_le_bytes).
  unfold Push, set_pc. cbn [prog_ pc_ stack_]. f_equal. f_equal; [lia|].
  f_equal. unfold to_int64. rewrite le_value_le_bytes.
  unfold wrap64. f_equal.
  change (256 ^ Z.of_nat 8) with (2 ^ 64).
  rewrite <- (Zplus_mod_idemp_l n). done.
Qed.

Lemma arith_code scope e s s' :
  arith e = true →
  LowerExpr scope e s = Ok s' →
  ∃ c, code_ s' = code_ s ++ c ∧ fixups_ s' = fixups_ s
    ∧ ∀ pre post stk, ∃ n,
        steps n (Interp.mkState (pre ++ c ++ post) (Z.of_nat (length pre)) stk)
        = finish (eval e)
            (λ v, Interp.mkState (pre ++ c ++ post)
                          (Z.of_nat (length pre) + Z.of_nat (length c)) (VInt v :: stk)).
Proof.
  revert s s'. induction e as [name|k lhs IHl rhs IHr|callee args|n];
    intros s s' Ha H; try discriminate Ha.
  - cbn [arith] in Ha. apply andb_prop in Ha as [Hal Har].
    cbn [LowerExpr] in H. unfold LowerBinaryExpr in H.
    destruct (LowerExpr scope lhs s) as [s1|] eqn:E1;
      cbn [bind] in H; [|discriminate H].
    destruct (LowerExpr scope rhs s1) as [s2|] eqn:E2;
      cbn [bind] in H; [|discriminate H].
    rewrite EmitKind_kind_opcode in H. unfold EmitBinary in H.
    destruct (consume_one s2) as [s3|] eqn:E3;
      cbn [bind] in H; [|discriminate H].
    injection H as <-.
    destruct (IHl _ _ Hal E1) as (c1 & C1 & F1 & R1).
    destruct (IHr _ _ Har E2) as (c2 & C2 & F2 & R2).
    apply consume_one_Ok in E3 as [-> _].
    exists (c1 ++ c2 ++ [opcode_byte (kind_opcode k)]). split.
    { cbn. rewrite C2, C1. by rewrite <- !app_assoc. }
    split; [cbn; congruence|].
    intros pre post stk. cbn [eval].
    destruct (R1 pre ((c2 ++ [opcode_byte (kind_opcode k)]) ++ post) stk)
      as [n1 S1].
    rewrite <- !app_assoc in S1.
    rewrite <- !app_assoc.
    destruct (eval lhs) as [a|msg|]; cbn [finish] in S1 |- *;
      [|by exists n1|by exists n1].
    destruct (R2 (pre ++ c1) ([opcode_byte (kind_opcode k)] ++ post)
                 (VInt a :: stk)) as [n2 S2].
    rewrite <- !app_assoc in S2.
    rewrite length_app, Nat2Z.inj_add in S2.
    rewrite !length_app, !Nat2Z.inj_add. cbn [app] in S1, S2 |- *.
    destruct (eval rhs) as [b|msg|]; cbn [finish] in S2 |- *.
    + exists (n1 + (n2 + 1))%nat.
      rewrite steps_add, S1, steps_add, S2. cbn [steps].
      pose proof (step_at_op ((pre ++ c1) ++ c2) (kind_opcode k) [] post
                    (VInt b :: VInt a :: stk)) as St.
      unfold at_op in St. rewrite <- !app_assoc in St.
      rewrite ?length_app, ?Nat2Z.inj_add in St. cbn [app] in St.
      rewrite ?Z.add_assoc in St |- *. rewrite St, exec_binop.
      destruct (binop k a b); cbn [finish]; try done.
      do 2 f_equal. cbn [length]. lia.
    + exists (n1 + n2)%nat. by rewrite steps_add, S1.
    + exists (n1 + n2)%nat. by rewrite steps_add, S1.
  - injection H as <-. exists (opcode_byte PUSH_INT :: le_bytes 8 n).
    split; [by cbn; rewrite <- app_assoc|]. split; [done|].
    intros pre post stk. exists 1%nat. cbn [steps eval finish].
    pose proof (PUSH_INT_step pre post stk n) as St. unfold at_op in St.
    cbn [app]. rewrite St. do 2 f_equal; cbn [length]; rewrite ?length_le_bytes; lia.
Qed.

(** The code of an expression made of literals and binary operators runs
    wherever it is placed and whatever the stack holds: it either leaves the
    value of the tree walk on top of the untouched stack, with the cursor
    just past the code, or ends with the fault of the tree walk. *)
Theorem arithmetic_code_runs scope e s s' :
  arith e = true →
  LowerExpr scope e s = Ok s' →
  ∃ c, code_ s' = code_ s ++ c
    ∧ ∀ pre post stk, ∃ n,
        steps n (Interp.mkState (pre ++ c ++ post) (Z.of_nat (length pre)) stk)
        = finish (eval e)
            (λ v, Interp.mkState (pre ++ c ++ post)
                          (Z.of_nat (length pre) + Z.of_nat (length c)) (VInt v :: stk)).
Proof.
  intros Ha H. destruct (arith_code _ _ _ _ Ha H) as (c & C & _ & R). eauto.
Qed.

Lemma arithmetic_code_runs_witness :
  ∃ c, code_ (Emit_Opcode ADD
         (set_depth 1 (EmitInt 2 (EmitInt 1 new_Codegen))))
       = code_ new_Codegen ++ c
    ∧ ∀ pre post stk, ∃ n,
        steps n (Interp.mkState (pre ++ c ++ post) (Z.of_nat (length pre)) stk)
        = Continue (Interp.mkState (pre ++ c ++ post)
                      (Z.of_nat (length pre) + Z.of_nat (length c)) (VInt 3 :: stk)).
Proof.
  exact (arithmetic_code_runs (GlobalScope ∅ ∅)
           (BinaryExpr Kind.ADD (IntExpr 1) (IntExpr 2)) new_Codegen
           _ eq_refl eq_refl).
Defined.

(** On two [Int] operands that fit 64 bits, a binary opcode that lets the
    loop continue has replaced the operands by one [Int] that fits 64 bits,
    and has touched neither the rest of the stack nor the cursor. *)
Theorem binary_opcode_result_fits k prog pc lhs rhs stk st' :
  is_int64 lhs → is_int64 rhs →
  exec (kind_opcode k) (Interp.mkState prog pc (VInt rhs :: VInt lhs :: stk))
  = Continue st' →
  ∃ v, is_int64 v ∧ st' = Interp.mkState prog pc (VInt v :: stk).
Proof.
  intros Hl Hr.
  assert (Hb : ∀ b : bool, is_int64 (b2z b))
    by (intros []; unfold is_int64, INT64_MIN, INT64_MAX; cbn; lia).
  destruct k;
    cbn [kind_opcode exec pop_operands PopInt Pop stack_ prog_ pc_ Push];
    repeat match goal with
    | |- context [if ?b then _ else _] => destruct b eqn:?
    end; intros [= <-]; eexists; (split; [|reflexivity]);
    try apply wrap64_range; try apply Hb.
  - apply quot_in_range; try done; unfold div_overflows; lia.
  - apply quot_in_range; try done; unfold div_overflows; lia.
Qed.

Lemma binary_opcode_result_fits_witness :
  ∃ v, is_int64 v
     ∧ Interp.mkState [] 0 [VInt (-3)] = Interp.mkState [] 0 [VInt v].
Proof.
  apply (binary_opcode_result_fits Kind.DIV [] 0 (-7) 2 [] _).
  - vm_compute. split; discriminate.
  - vm_compute. split; discriminate.
  - reflexivity.
Defined.

(** *** Expression statements and whole modules *)

Lemma expr_stop_finish e (k : Z → Interp.State) o :
  expr_stop e = Some o → finish (eval e) k = o.
Proof. unfold expr_stop. destruct (eval e); cbn; congruence. Qed.

Lemma expr_stop_None e : expr_stop e = None → ∃ v, eval e = Val v.
Proof. unfold expr_stop. destruct (eval e); [eauto|done..]. Qed.

Lemma ExprStmt_code scope e s scope' s' :
  arith e = true →
  LowerStmt scope (ExprStmt e) s = Ok (scope', s') →
  scope' = scope ∧ same_labels s s'
  ∧ ∃ c, code_ s' = code_ s ++ c ∧ fixups_ s' = fixups_ s
    ∧ ∀ pre post stk, ∃ n,
        steps n (Interp.mkState (pre ++ c ++ post) (Z.of_nat (length pre)) stk)
        = match expr_stop e with
          | None => Continue (Interp.mkState (pre ++ c ++ post)
                      (Z.of_nat (length pre) + Z.of_nat (length c)) stk)
          | Some o => o
          end.
Proof.
  intros Ha H. cbn [LowerStmt] in H. unfold LowerExprStmt, EmitPop in H.
  destruct (LowerExpr scope e s) as [s1|] eqn:E1; cbn [bind] in H; [|discriminate H].
  destruct (consume_one s1) as [s2|] eqn:E2; cbn [bind] in H; [|discriminate H].
  injection H as <- <-. split; [done|].
  apply consume_one_Ok in E2 as [-> _].
  split; [exact (LowerExpr_same_labels _ _ _ _ E1)|].
  destruct (arith_code _ _ _ _ Ha E1) as (c & C & F & R).
  exists (c ++ [opcode_byte POP]). split; [cbn; by rewrite C, <- app_assoc|].
  split; [done|]. intros pre post stk.
  destruct (R pre ([opcode_byte POP] ++ post) stk) as [n S1].
  rewrite <- !app_assoc. cbn [app] in S1 |- *.
  destruct (expr_stop e) as [o|] eqn:Es.
  { exists n. by rewrite S1, (expr_stop_finish _ _ _ Es). }
  apply expr_stop_None in Es as [v Ev]. rewrite Ev in S1. cbn [finish] in S1.
  exists (n + 1)%nat. rewrite steps_add, S1. cbn [steps].
  pose proof (step_at_op (pre ++ c) POP [] post (VInt v :: stk)) as St.
  unfold at_op in St. rewrite <- !app_assoc in St.
  rewrite length_app, Nat2Z.inj_add in St. cbn [app] in St.
  rewrite St. cbn [exec Pop stack_ prog_ pc_].
  do 2 f_equal. rewrite length_app, Nat2Z.inj_add. cbn [length]. lia.
Qed.

(** An expression statement over literals and binary operators leaves the
    stack as it found it: its code either runs to its end with the stack
    unchanged, or ends with the fault of the expression. *)
Theorem expression_statement_restores_stack scope e s scope' s' :
  arith e = true →
  LowerStmt scope (ExprStmt e) s = Ok (scope', s') →
  ∃ c, code_ s' = code_ s ++ c
    ∧ ∀ pre post stk, ∃ n,
        steps n (Interp.mkState (pre ++ c ++ post) (Z.of_nat (length pre)) stk)
        = finish (eval e)
            (λ _, Interp.mkState (pre ++ c ++ post)
                    (Z.of_nat (length pre) + Z.of_nat (length c)) stk).
Proof.
  intros Ha H. destruct (ExprStmt_code _ _ _ _ _ Ha H) as (_ & _ & c & C & _ & R).
  exists c. split; [done|]. intros pre post stk.
  destruct (R pre post stk) as [n S]. exists n. rewrite S.
  unfold expr_stop. by destruct (eval e).
Qed.

Lemma expression_statement_restores_stack_witness :
  ∃ c, code_ (Emit_Opcode POP (set_depth 0 (EmitInt 7 new_Codegen)))
       = code_ new_Codegen ++ c
    ∧ ∀ pre post stk, ∃ n,
        steps n (Interp.mkState (pre ++ c ++ post) (Z.of_nat (length pre)) stk)
        = Continue (Interp.mkState (pre ++ c ++ post)
                      (Z.of_nat (length pre) + Z.of_nat (length c)) stk).
Proof.
  exact (expression_statement_restores_stack (GlobalScope ∅ ∅) (IntExpr 7)
           new_Codegen _ _ eq_refl eq_refl).
Defined.

Lemma LowerTopLevel_code mod_ : ∀ global s global' s',
  forallb arith_top mod_ = true →
  LowerTopLevel mod_ global s = Ok (global', s') →
  global' = global
  ∧ ∃ c, code_ s' = code_ s ++ c ∧ fixups_ s' = fixups_ s
    ∧ ∀ pre post stk, ∃ n,
        steps n (Interp.mkState (pre ++ c ++ post) (Z.of_nat (length pre)) stk)
        = match module_stop mod_ with
          | None => Continue (Interp.mkState (pre ++ c ++ post)
                      (Z.of_nat (length pre) + Z.of_nat (length c)) stk)
          | Some o => o
          end.
Proof.
  induction mod_ as [|[f|p|st] rest IH]; intros global s global' s' Ha H.
  - injection H as <- <-. split; [done|]. exists []. rewrite app_nil_r.
    split; [done|]. split; [done|]. intros pre post stk. exists 0%nat.
    cbn. do 2 f_equal. lia.
  - cbn in Ha. by apply (IH global s).
  - cbn in Ha. by apply (IH global s).
  - cbn [forallb] in Ha. apply andb_prop in Ha as [Hst Hrest].
    destruct st as [| | |e| |]; try discriminate Hst. cbn [arith_top] in Hst.
    cbn [LowerTopLevel] in H.
    destruct (LowerStmt global (ExprStmt e) s) as [[global1 s1]|] eqn:E1;
      cbn [bind] in H; [|discriminate H].
    destruct (ExprStmt_code _ _ _ _ _ Hst E1) as (-> & _ & c1 & C1 & F1 & R1).
    destruct (IH _ _ _ _ Hrest H) as (-> & c2 & C2 & F2 & R2).
    split; [done|]. exists (c1 ++ c2).
    split; [by rewrite C2, C1, <- app_assoc|]. split; [congruence|].
    intros pre post stk.
    destruct (R1 pre (c2 ++ post) stk) as [n1 S1].
    destruct (R2 (pre ++ c1) post stk) as [n2 S2].
    rewrite <- !app_assoc in S2 |- *.
    rewrite length_app, Nat2Z.inj_add in S2.
    rewrite length_app, Nat2Z.inj_add, Z.add_assoc.
    unfold module_stop in *. cbn [first_of item_stop].
    destruct (expr_stop e) as [o|]; [by exists n1|].
    exists (n1 + n2)%nat. by rewrite steps_add, S1.
Qed.

Lemma expr_stop_ends e o : expr_stop e = Some o → ∀ st, o ≠ Continue st.
Proof. unfold expr_stop. destruct (eval e); intros [= <-]; done. Qed.

Lemma module_stop_ends mod_ o : module_stop mod_ = Some o → ∀ st, o ≠ Continue st.
Proof.
  unfold module_stop. induction mod_ as [|item rest IH]; [done|].
  cbn [first_of]. destruct (item_stop item) as [o'|] eqn:E; [|done].
  intros [= <-]. destruct item as [| |[]]; try done. by eapply expr_stop_ends.
Qed.

Lemma steps_Run n : ∀ st o,
  steps n st = o → (∀ st', o ≠ Continue st') → Run n st = Some o.
Proof.
  induction n as [|n IH]; intros st o H Ho.
  - cbn in H. by destruct (Ho st).
  - cbn [steps] in H. cbn [Run].
    destruct (step st) as [st1| | | |]; try (by subst o). by apply IH.
Qed.

Lemma grows_prefix s s' :
  grows s s' → (∀ l, sites s l = []) → ∃ tail, code_ s' = code_ s ++ tail.
Proof.
  intros G Hs. exists (drop (length (code_ s)) (code_ s')).
  rewrite <- (take_drop (length (code_ s)) (code_ s')) at 1. f_equal.
  apply list_eq. intros i.
  destruct (decide (i < length (code_ s))%nat) as [Hi|Hi].
  - rewrite lookup_take_lt by done. apply (grows_code _ _ G); [done|].
    intros (l & loc & Hloc & _). rewrite Hs in Hloc. by apply elem_of_nil in Hloc.
  - rewrite lookup_take_ge by lia. symmetry. apply lookup_ge_None. lia.
Qed.

Lemma Translate_runs_aux kRuntimeFns mod_ s prog final :
  forallb arith_top mod_ = true →
  fixups_ s = ∅ →
  Translate kRuntimeFns mod_ s = Ok (prog, final) →
  ∃ fuel,
    match module_stop mod_ with
    | None => ∃ pc, Run fuel (Interp.mkState prog 0 [])
                    = Some (Return_ (Interp.mkState prog pc []))
    | Some o => Run fuel (Interp.mkState prog 0 []) = Some o
    end.
Proof.
  intros Ha Hf H. unfold Translate, assert_ in H.
  case_bool_decide as Hc; cbn [bind] in H; [|discriminate H].
  destruct (Prepass kRuntimeFns mod_ ∅ s) as [[protos s0]|] eqn:E0;
    cbn [bind] in H; [|discriminate H].
  destruct (LowerTopLevel mod_ (GlobalScope (funcs_ s0) protos) s0)
    as [[global1 s1]|] eqn:E1; cbn [bind] in H; [|discriminate H].
  destruct (LowerFunctions mod_ global1 (Emit_Opcode STOP s1)) as [s3|] eqn:E3;
    cbn [bind] in H; [|discriminate H].
  injection H as <- <-.
  destruct (Prepass_stream _ _ _ _ _ _ E0) as (C0 & F0 & _).
  destruct (LowerTopLevel_code _ _ _ _ _ Ha E1) as (-> & c & C1 & F1 & R).
  destruct (LowerFunctions_streams _ _ _ _ _
              (scope_entries_GlobalScope _ _) E3) as [(_ & G & _) _].
  destruct (grows_prefix _ _ G) as [tail T].
  { intros l. unfold sites. cbn. by rewrite F1, F0, Hf, lookup_empty. }
  unfold Emit_Opcode, Emit in T. cbn [code_ set_code] in T.
  rewrite C1, C0, Hc in T. cbn [app] in T. rewrite <- app_assoc in T.
  cbn [app] in T.
  destruct (R [] (opcode_byte STOP :: tail) []) as [n S].
  cbn [app length] in S. change (Z.of_nat 0) with 0 in S. rewrite <- T in S.
  destruct (module_stop mod_) as [o|] eqn:Ef.
  - exists n. apply steps_Run; [done|]. by eapply module_stop_ends.
  - exists (n + 1)%nat. eexists. apply steps_Run; [|done].
    rewrite steps_add, S. cbn [steps].
    pose proof (step_at_op c STOP [] tail []) as St. unfold at_op in St.
    cbn [app] in St. rewrite <- T in St. rewrite Z.add_0_l.
    rewrite St. cbn [exec]. reflexivity.
Qed.

(** A module whose top-level statements are expression statements over
    literals and binary operators, once translated by a generator that has
    no fixup pending, runs from offset 0 on an empty stack to the [STOP] that
    follows the top-level code and returns with the stack empty, unless a
    statement faults: then the run ends with the first such fault. *)
Theorem Translate_arithmetic_runs kRuntimeFns mod_ s prog final :
  forallb arith_top mod_ = true →
  fixups_ s = ∅ →
  Translate kRuntimeFns mod_ s = Ok (prog, final) →
  ∃ fuel,
    match module_stop mod_ with
    | None => ∃ pc, Run fuel (Interp.mkState prog 0 [])
                    = Some (Return_ (Interp.mkState prog pc []))
    | Some o => Run fuel (Interp.mkState prog 0 []) = Some o
    end.
Proof. apply Translate_runs_aux. Qed.

Lemma Translate_arithmetic_runs_witness :
  ∃ fuel pc,
    Run fuel (Interp.mkState
                (opcode_byte PUSH_INT :: le_bytes 8 7
                 ++ [opcode_byte POP; opcode_byte STOP]) 0 [])
    = Some (Return_ (Interp.mkState
                (opcode_byte PUSH_INT :: le_bytes 8 7
                 ++ [opcode_byte POP; opcode_byte STOP]) pc [])).
Proof.
  exact (Translate_arithmetic_runs ∅ [TStmt (ExprStmt (IntExpr 7))] new_Codegen
           _ _ eq_refl eq_refl eq_refl).
Defined.

End RunFacts.

(** ** Calls in the interpreter *)

Module InterpMore.
Import Bytes BytesFacts Interp InterpFacts.

(** [CALL] on a function address saves the cursor of the instruction that
    follows it and enters the callee; a [RET] of the same program that finds
    [depth] locals above that saved cursor and was told the number of
    arguments of the call resumes right after the [CALL], the arguments
    gone and the returned value on top of the caller's stack. *)
Theorem CALL_RET_round_trip pre post pre' post' callee args rest v locals :
  pre ++ opcode_byte CALL :: post
  = pre' ++ opcode_byte RET
      :: (le_bytes 4 (Z.of_nat (length locals))
          ++ le_bytes 4 (Z.of_nat (length args))) ++ post' →
  Z.of_nat (length locals) < 2 ^ 32 → Z.of_nat (length args) < 2 ^ 32 →
  ∃ st1,
    step (at_op pre CALL [] post (VAddr callee :: args ++ rest)) = Continue st1
    ∧ pc_ st1 = callee
    ∧ prog_ st1 = pre ++ opcode_byte CALL :: post
    ∧ step (mkState (prog_ st1) (Z.of_nat (length pre'))
                    (v :: locals ++ stack_ st1))
      = Continue (mkState (pre ++ opcode_byte CALL :: post)
                          (Z.of_nat (length pre) + 1) (v :: rest)).
Proof.
  intros Hprog Hl Ha. eexists. split.
  { rewrite step_at_op. cbn [exec Pop stack_ prog_ pc_ set_pc Push app].
    reflexivity. }
  cbn [pc_ prog_ stack_]. split; [done|]. split; [done|].
  rewrite Hprog.
  exact (RET_step pre' post' v locals (Z.of_nat (length pre) + 1) args rest
           _ _ eq_refl eq_refl Hl Ha).
Qed.

Lemma CALL_RET_round_trip_witness :
  ∃ st1,
    step (at_op [] CALL [] (opcode_byte RET :: le_bytes 4 0 ++ le_bytes 4 1)
                [VAddr 1; VInt 5]) = Continue st1
    ∧ pc_ st1 = 1
    ∧ prog_ st1 = opcode_byte CALL :: opcode_byte RET :: le_bytes 4 0 ++ le_bytes 4 1
    ∧ step (mkState (prog_ st1) 1 (VInt 9 :: stack_ st1))
      = Continue (mkState (opcode_byte CALL :: opcode_byte RET
                             :: le_bytes 4 0 ++ le_bytes 4 1) 1 [VInt 9]).
Proof.
  apply (CALL_RET_round_trip [] (opcode_byte RET :: le_bytes 4 0 ++ le_bytes 4 1)
           [opcode_byte CALL] [] 1 [VInt 5] [] (VInt 9) []).
  - reflexivity.
  - vm_compute. reflexivity.
  - vm_compute. reflexivity.
Defined.

End InterpMore.

(** ** The expression parser: errors, shape of the tree, termination *)

Module ParserMore.
Import Parser ParserSpec.

Lemma expression_must_start_with_term_aux ParseExpr n lx :
  Token.GetKind (Current lx) ≠ Token.IDENT →
  Token.GetKind (Current lx) ≠ Token.INT →
  ParseCompExpr ParseExpr n lx = ParserError "unexpected token, expecting term".
Proof.
  intros Hi Hn.
  assert (Ht : ParseTermExpr lx = ParserError "unexpected token, expecting term").
  { unfold ParseTermExpr. by destruct (Token.GetKind (Current lx)). }
  unfold ParseCompExpr, ParseAddSubExpr, ParseMulDivModExpr, ParseCallExpr.
  by rewrite Ht.
Qed.

(** An expression starts with an identifier or an integer literal: on any
    other token (a parenthesis, a sign, the end of the input) every level of
    the grammar throws the error of [ParseTermExpr], whatever [ParseExpr]
    is. *)
Theorem expression_must_start_with_term ParseExpr n lx :
  Token.GetKind (Current lx) ≠ Token.IDENT →
  Token.GetKind (Current lx) ≠ Token.INT →
  ParseCompExpr ParseExpr n lx = ParserError "unexpected token, expecting term"
  ∧ ParseAddSubExpr ParseExpr n lx = ParserError "unexpected token, expecting term"
  ∧ ParseMulDivModExpr ParseExpr n lx = ParserError "unexpected token, expecting term"
  ∧ ParseCallExpr ParseExpr n lx = ParserError "unexpected token, expecting term".
Proof.
  intros Hi Hn.
  assert (Ht : ParseTermExpr lx = ParserError "unexpected token, expecting term").
  { unfold ParseTermExpr. by destruct (Token.GetKind (Current lx)). }
  unfold ParseCompExpr, ParseAddSubExpr, ParseMulDivModExpr, ParseCallExpr.
  by rewrite Ht.
Qed.

Lemma expression_must_start_with_term_witness :
  ParseCompExpr (ParseExpr 3) 4
    (lexer_of [Token.Symbol Token.LPAREN; Token.Integer 1; Token.Symbol Token.RPAREN])
  = ParserError "unexpected token, expecting term".
Proof.
  apply (expression_must_start_with_term (ParseExpr 3) 4
           (lexer_of [Token.Symbol Token.LPAREN; Token.Integer 1;
                      Token.Symbol Token.RPAREN])); discriminate.
Defined.

Section Shape.

Variable PE : Lexer → Result Expr.
Hypothesis PE_shaped : ∀ lx e lx', PE lx = Ok e lx' → shaped e = true.

Lemma ParseTermExpr_shaped lx e lx' :
  ParseTermExpr lx = Ok e lx' → shaped e = true ∧ level e = 0%nat.
Proof.
  unfold ParseTermExpr.
  destruct (Token.GetKind (Current lx)); try discriminate; by intros [= <- _].
Qed.

Lemma ArgsLoop_shaped f : ∀ args lx args' lx',
  forallb shaped args = true →
  ArgsLoop PE f args lx = Ok args' lx' → forallb shaped args' = true.
Proof.
  induction f as [|f IH]; intros args lx args' lx' Ha H; [discriminate H|].
  cbn [ArgsLoop] in H.
  destruct (Token.Is (Current (Next lx)) Token.RPAREN); [by injection H as <- _|].
  destruct (PE (Next lx)) as [e lx2| |] eqn:E; cbn [bind] in H; try discriminate H.
  assert (Ha' : forallb shaped (args ++ [e]) = true).
  { rewrite forallb_app, Ha. cbn. by rewrite (PE_shaped _ _ _ E). }
  destruct (negb (Token.Is (Current lx2) Token.COMMA)).
  - by injection H as <- _.
  - by apply (IH _ _ _ _ Ha' H).
Qed.

Lemma CallLoop_shaped n f : ∀ callee lx e lx',
  shaped callee = true → level callee = 0%nat →
  CallLoop PE n f callee lx = Ok e lx' → shaped e = true ∧ level e = 0%nat.
Proof.
  induction f as [|f IH]; intros callee lx e lx' Hs Hl H; [discriminate H|].
  cbn [CallLoop] in H.
  destruct (Token.Is (Current lx) Token.LPAREN); [|by injection H as <- _].
  destruct (ArgsLoop PE n [] lx) as [args lx1| |] eqn:E1;
    cbn [bind] in H; try discriminate H.
  destruct (Check Token.RPAREN lx1) as [u lx2| |] eqn:E2;
    cbn [bind] in H; try discriminate H.
  apply (IH _ _ _ _) in H; [done| |done].
  cbn [shaped]. rewrite Hl, Hs. cbn.
  by apply (ArgsLoop_shaped n [] lx args lx1 eq_refl E1).
Qed.

Lemma ParseCallExpr_shaped n lx e lx' :
  ParseCallExpr PE n lx = Ok e lx' → shaped e = true ∧ level e = 0%nat.
Proof.
  unfold ParseCallExpr.
  destruct (ParseTermExpr lx) as [callee lx1| |] eqn:E; cbn [bind]; try discriminate.
  destruct (ParseTermExpr_shaped _ _ _ E). by apply CallLoop_shaped.
Qed.

Lemma shaped_binary k lhs rhs :
  shaped lhs = true → shaped rhs = true →
  (level lhs ≤ level_of k)%nat → (level rhs < level_of k)%nat →
  shaped (BinaryExpr k lhs rhs) = true.
Proof.
  intros Hl Hr H1 H2. cbn [shaped]. rewrite Hl, Hr.
  apply Nat.leb_le in H1. apply Nat.ltb_lt in H2. by rewrite H1, H2.
Qed.

Lemma MulDivModLoop_shaped n f : ∀ term lx e lx',
  shaped term = true → (level term ≤ 1)%nat →
  MulDivModLoop PE n f term lx = Ok e lx' → shaped e = true ∧ (level e ≤ 1)%nat.
Proof.
  induction f as [|f IH]; intros term lx e lx' Hs Hl H; [discriminate H|].
  cbn [MulDivModLoop] in H.
  destruct (Token.Is (Current lx) Token.MUL || Token.Is (Current lx) Token.DIV
            || Token.Is (Current lx) Token.MOD); [|by injection H as <- _].
  destruct (ParseCallExpr PE n (Next lx)) as [rhs lx1| |] eqn:E;
    [|repeat case_match; discriminate H..].
  destruct (ParseCallExpr_shaped _ _ _ _ E) as [Hr Hr0].
  cbn [bind] in H.
  repeat case_match; apply IH in H; try done;
    apply shaped_binary; cbn [level_of]; try done; lia.
Qed.

Lemma ParseMulDivModExpr_shaped n lx e lx' :
  ParseMulDivModExpr PE n lx = Ok e lx' → shaped e = true ∧ (level e ≤ 1)%nat.
Proof.
  unfold ParseMulDivModExpr.
  destruct (ParseCallExpr PE n lx) as [term lx1| |] eqn:E; cbn [bind]; try discriminate.
  destruct (ParseCallExpr_shaped _ _ _ _ E) as [Hs Hl].
  apply MulDivModLoop_shaped; [done|lia].
Qed.

Lemma AddSubLoop_shaped n f : ∀ term lx e lx',
  shaped term = true → (level term ≤ 2)%nat →
  AddSubLoop PE n f term lx = Ok e lx' → shaped e = true ∧ (level e ≤ 2)%nat.
Proof.
  induction f as [|f IH]; intros term lx e lx' Hs Hl H; [discriminate H|].
  cbn [AddSubLoop] in H.
  destruct (Token.Is (Current lx) Token.PLUS || Token.Is (Current lx) Token.MINUS);
    [|by injection H as <- _].
  destruct (ParseMulDivModExpr PE n (Next lx)) as [rhs lx1| |] eqn:E;
    [|repeat case_match; discriminate H..].
  destruct (ParseMulDivModExpr_shaped _ _ _ _ E) as [Hr Hr0].
  cbn [bind] in H.
  repeat case_match; apply IH in H; try done;
    apply shaped_binary; cbn [level_of]; try done; lia.
Qed.

Lemma ParseAddSubExpr_shaped n lx e lx' :
  ParseAddSubExpr PE n lx = Ok e lx' → shaped e = true ∧ (level e ≤ 2)%nat.
Proof.
  unfold ParseAddSubExpr.
  destruct (ParseMulDivModExpr PE n lx) as [term lx1| |] eqn:E;
    cbn [bind]; try discriminate.
  destruct (ParseMulDivModExpr_shaped _ _ _ _ E) as [Hs Hl].
  apply AddSubLoop_shaped; [done|lia].
Qed.

Lemma level_of_comparison_kind_at tk : level_of (comparison_kind_at tk) = 3%nat.
Proof. unfold comparison_kind_at. by repeat case_match. Qed.

Lemma level_le_3 e : (level e ≤ 3)%nat.
Proof. destruct e as [|[] ? ?| |]; cbn; lia. Qed.

Lemma CompLoop_shaped n f : ∀ term lx e lx',
  shaped term = true →
  CompLoop PE n f term lx = Ok e lx' → shaped e = true.
Proof.
  induction f as [|f IH]; intros term lx e lx' Hs H; [discriminate H|].
  cbn [CompLoop] in H.
  destruct (is_comparison (Current lx)); [|by injection H as <- _].
  destruct (ParseAddSubExpr PE n (Next lx)) as [rhs lx1| |] eqn:E;
    cbn [bind] in H; try discriminate H.
  destruct (ParseAddSubExpr_shaped _ _ _ _ E) as [Hr Hr0].
  apply IH in H; [done|].
  apply shaped_binary; rewrite ?level_of_comparison_kind_at; try done.
  - apply level_le_3.
  - lia.
Qed.

Lemma ParseCompExpr_shaped n lx e lx' :
  ParseCompExpr PE n lx = Ok e lx' → shaped e = true.
Proof.
  unfold ParseCompExpr.
  destruct (ParseAddSubExpr PE n lx) as [term lx1| |] eqn:E;
    cbn [bind]; try discriminate.
  destruct (ParseAddSubExpr_shaped _ _ _ _ E) as [Hs Hl].
  by apply CompLoop_shaped.
Qed.

End Shape.

Lemma ParseExpr_shaped fuel : ∀ lx e lx',
  ParseExpr fuel lx = Ok e lx' → shaped e = true.
Proof.
  induction fuel as [|f IH]; intros lx e lx' H; [discriminate H|].
  cbn [ParseExpr] in H. by apply (ParseCompExpr_shaped (ParseExpr f) IH) in H.
Qed.

(** Every tree the expression parser returns nests to the left: the right
    operand of an operator is built strictly below the operator's level of
    the grammar, the left operand at that level or below, and what is
    called is a term or another call, also inside call arguments. *)
Theorem ParseExpr_left_nested fuel lx e lx' :
  ParseExpr fuel lx = Ok e lx' → shaped e = true.
Proof. apply ParseExpr_shaped. Qed.

Lemma ParseExpr_left_nested_witness :
  shaped (BinaryExpr Kind.SUB
            (BinaryExpr Kind.SUB (IntExpr 1) (IntExpr 2))
            (BinaryExpr Kind.MUL (IntExpr 3) (RefExpr "x"))) = true.
Proof.
  apply (ParseExpr_left_nested 3
           (lexer_of [Token.Integer 1; Token.Symbol Token.MINUS; Token.Integer 2;
                      Token.Symbol Token.MINUS; Token.Integer 3;
                      Token.Symbol Token.MUL; Token.Ident "x"])
           _ (mkLexer Token.End_ [])).
  vm_compute. reflexivity.
Defined.

(** *** Termination *)

Lemma remaining_Next lx : (remaining (Next lx) ≤ pred (remaining lx))%nat.
Proof.
  destruct lx as [tk [|t rest]]; unfold Next, remaining; cbn [pending tk_].
  - change (Token.Is Token.End_ Token.END) with true. cbn. lia.
  - destruct rest; [case_match|]; cbn; lia.
Qed.

Lemma remaining_pos lx k :
  k ≠ Token.END → Token.Is (Current lx) k = true → (1 ≤ remaining lx)%nat.
Proof.
  intros Hk H. unfold Token.Is in H. apply bool_decide_eq_true in H.
  destruct lx as [tk [|t rest]]; unfold remaining; cbn in *; [|lia].
  unfold Token.Is. rewrite bool_decide_false by congruence. lia.
Qed.

Lemma ends_below_bind {A B} m m' (r : Result A) (k : A → Lexer → Result B) :
  ends_below m r →
  (∀ a lx1, r = Ok a lx1 → (remaining lx1 < m)%nat → ends_below m' (k a lx1)) →
  ends_below m' (bind r k).
Proof. destruct r; cbn; auto. Qed.

Lemma ends_below_mono {A} m m' (r : Result A) :
  (m ≤ m')%nat → ends_below m r → ends_below m' r.
Proof. destruct r; cbn; lia. Qed.

Lemma ParseTermExpr_ends lx : ends_below (remaining lx) (ParseTermExpr lx).
Proof.
  unfold ParseTermExpr.
  destruct (Token.GetKind (Current lx)) eqn:E; cbn; try done;
    pose proof (remaining_Next lx);
    (assert (1 ≤ remaining lx)%nat; [|lia]).
  - apply (remaining_pos lx Token.INT); [done|].
    unfold Token.Is. by apply bool_decide_eq_true.
  - apply (remaining_pos lx Token.IDENT); [done|].
    unfold Token.Is. by apply bool_decide_eq_true.
Qed.

Section Termination.

Variable PE : Lexer → Result Expr.
Variable bound : nat.
Hypothesis PE_ends :
  ∀ lx, (remaining lx < bound)%nat → ends_below (remaining lx) (PE lx).

Lemma ArgsLoop_ends f : ∀ args lx,
  (1 ≤ remaining lx)%nat → (remaining lx ≤ bound)%nat → (remaining lx ≤ f)%nat →
  ends_below (remaining lx) (ArgsLoop PE f args lx).
Proof.
  induction f as [|f IH]; intros args lx H1 HB Hf; [lia|].
  cbn [ArgsLoop]. pose proof (remaining_Next lx) as HN.
  destruct (Token.Is (Current (Next lx)) Token.RPAREN); [cbn; lia|].
  apply (ends_below_bind (remaining (Next lx))); [apply PE_ends; lia|].
  intros e lx2 _ H2.
  destruct (Token.Is (Current lx2) Token.COMMA) eqn:Ec; cbn [negb]; [|cbn; lia].
  apply (ends_below_mono (remaining lx2)); [lia|].
  apply IH; [by apply (remaining_pos lx2 Token.COMMA)|lia|lia].
Qed.

Lemma CallLoop_ends n f : ∀ callee lx,
  (remaining lx ≤ bound)%nat → (remaining lx ≤ n)%nat → (remaining lx < f)%nat →
  ends_below (S (remaining lx)) (CallLoop PE n f callee lx).
Proof.
  induction f as [|f IH]; intros callee lx HB Hn Hf; [lia|].
  cbn [CallLoop].
  destruct (Token.Is (Current lx) Token.LPAREN) eqn:El; [|cbn; lia].
  apply (ends_below_bind (remaining lx)).
  { apply ArgsLoop_ends; [by apply (remaining_pos lx Token.LPAREN)|done..]. }
  intros args lx1 _ H1. unfold Check.
  destruct (Token.Is (Current lx1) Token.RPAREN); cbn [bind]; [|done].
  pose proof (remaining_Next lx1).
  apply (ends_below_mono (S (remaining (Next lx1)))); [lia|].
  apply IH; lia.
Qed.

Lemma ParseCallExpr_ends n lx :
  (remaining lx ≤ bound)%nat → (remaining lx ≤ n)%nat →
  ends_below (remaining lx) (ParseCallExpr PE n lx).
Proof.
  intros HB Hn. unfold ParseCallExpr.
  apply (ends_below_bind (remaining lx)); [apply ParseTermExpr_ends|].
  intros callee lx1 _ H1.
  apply (ends_below_mono (S (remaining lx1))); [lia|].
  apply CallLoop_ends; lia.
Qed.

Lemma MulDivModLoop_ends n f : ∀ term lx,
  (remaining lx ≤ bound)%nat → (remaining lx ≤ n)%nat → (remaining lx < f)%nat →
  ends_below (S (remaining lx)) (MulDivModLoop PE n f term lx).
Proof.
  induction f as [|f IH]; intros term lx HB Hn Hf; [lia|].
  cbn [MulDivModLoop]. pose proof (remaining_Next lx) as HN.
  assert (Hstep : ∀ k,
    ends_below (S (remaining lx))
      (bind (ParseCallExpr PE n (Next lx)) (λ rhs lx1,
         MulDivModLoop PE n f (BinaryExpr k term rhs) lx1))).
  { intros k. apply (ends_below_bind (remaining (Next lx)));
      [apply ParseCallExpr_ends; lia|].
    intros rhs lx1 _ H1.
    apply (ends_below_mono (S (remaining lx1))); [lia|]. apply IH; lia. }
  repeat case_match; try apply Hstep. cbn; lia.
Qed.

Lemma ParseMulDivModExpr_ends n lx :
  (remaining lx ≤ bound)%nat → (remaining lx ≤ n)%nat →
  ends_below (remaining lx) (ParseMulDivModExpr PE n lx).
Proof.
  intros HB Hn. unfold ParseMulDivModExpr.
  apply (ends_below_bind (remaining lx)); [by apply ParseCallExpr_ends|].
  intros term lx1 _ H1.
  apply (ends_below_mono (S (remaining lx1))); [lia|].
  apply MulDivModLoop_ends; lia.
Qed.

Lemma AddSubLoop_ends n f : ∀ term lx,
  (remaining lx ≤ bound)%nat → (remaining lx ≤ n)%nat → (remaining lx < f)%nat →
  ends_below (S (remaining lx)) (AddSubLoop PE n f term lx).
Proof.
  induction f as [|f IH]; intros term lx HB Hn Hf; [lia|].
  cbn [AddSubLoop]. pose proof (remaining_Next lx) as HN.
  assert (Hstep : ∀ k,
    ends_below (S (remaining lx))
      (bind (ParseMulDivModExpr PE n (Next lx)) (λ rhs lx1,
         AddSubLoop PE n f (BinaryExpr k term rhs) lx1))).
  { intros k. apply (ends_below_bind (remaining (Next lx)));
      [apply ParseMulDivModExpr_ends; lia|].
    intros rhs lx1 _ H1.
    apply (ends_below_mono (S (remaining lx1))); [lia|]. apply IH; lia. }
  repeat case_match; try apply Hstep. cbn; lia.
Qed.

Lemma ParseAddSubExpr_ends n lx :
  (remaining lx ≤ bound)%nat → (remaining lx ≤ n)%nat →
  ends_below (remaining lx) (ParseAddSubExpr PE n lx).
Proof.
  intros HB Hn. unfold ParseAddSubExpr.
  apply (ends_below_bind (remaining lx)); [by apply ParseMulDivModExpr_ends|].
  intros term lx1 _ H1.
  apply (ends_below_mono (S (remaining lx1))); [lia|].
  apply AddSubLoop_ends; lia.
Qed.

Lemma CompLoop_ends n f : ∀ term lx,
  (remaining lx ≤ bound)%nat → (remaining lx ≤ n)%nat → (remaining lx < f)%nat →
  ends_below (S (remaining lx)) (CompLoop PE n f term lx).
Proof.
  induction f as [|f IH]; intros term lx HB Hn Hf; [lia|].
  cbn [CompLoop]. pose proof (remaining_Next lx) as HN.
  destruct (is_comparison (Current lx)); [|cbn; lia].
  apply (ends_below_bind (remaining (Next lx)));
    [apply ParseAddSubExpr_ends; lia|].
  intros rhs lx1 _ H1.
  apply (ends_below_mono (S (remaining lx1))); [lia|]. apply IH; lia.
Qed.

Lemma ParseCompExpr_ends n lx :
  (remaining lx ≤ bound)%nat → (remaining lx ≤ n)%nat →
  ends_below (remaining lx) (ParseCompExpr PE n lx).
Proof.
  intros HB Hn. unfold ParseCompExpr.
  apply (ends_below_bind (remaining lx)); [by apply ParseAddSubExpr_ends|].
  intros term lx1 _ H1.
  apply (ends_below_mono (S (remaining lx1))); [lia|].
  apply CompLoop_ends; lia.
Qed.

End Termination.

Lemma ParseExpr_ends fuel : ∀ lx,
  (remaining lx < fuel)%nat → ends_below (remaining lx) (ParseExpr fuel lx).
Proof.
  induction fuel as [|f IH]; intros lx Hf; [lia|].
  cbn [ParseExpr]. apply (ParseCompExpr_ends (ParseExpr f) f IH); lia.
Qed.

(** The expression parser comes to an end on every input: with more fuel
    than tokens left it returns a tree or throws [ParserError], never runs
    out of fuel, and a tree has cost it at least one token. *)
Theorem ParseExpr_terminates fuel lx :
  (remaining lx < fuel)%nat →
  ParseExpr fuel lx ≠ OutOfFuel
  ∧ ∀ e lx', ParseExpr fuel lx = Ok e lx' → (remaining lx' < remaining lx)%nat.
Proof.
  intros Hf. pose proof (ParseExpr_ends fuel lx Hf) as H.
  destruct (ParseExpr fuel lx); cbn in H; [|done..].
  split; [done|]. by intros ? ? [= <- <-].
Qed.

Lemma ParseExpr_terminates_witness :
  ParseExpr 4 (lexer_of [Token.Integer 1; Token.Symbol Token.PLUS; Token.Integer 2])
  ≠ OutOfFuel.
Proof.
  apply (ParseExpr_terminates 4
           (lexer_of [Token.Integer 1; Token.Symbol Token.PLUS; Token.Integer 2])).
  vm_compute. lia.
Defined.

End ParserMore.

(** ** The statement and module parser *)

Module ParserStmtFacts.
Import Parser ParserSpec ParserMore ParserStmt.

Lemma Check_Ok kind lx u lx' :
  Check kind lx = Ok u lx' → lx' = lx ∧ Token.Is (Current lx) kind = true.
Proof.
  unfold Check. destruct (Token.Is (Current lx) kind); [|discriminate].
  by intros [= _ <-].
Qed.

Ltac inv_parse H :=
  repeat match type of H with
  | bind ?r _ = Ok _ _ =>
    let E := fresh "E" in
    destruct r eqn:E; cbn [bind] in H; [|discriminate H..]
  end.

(** An [if] that the parser returns without an [else] branch is not
    followed by [else]: an [else] always goes to the nearest [if] that is
    still open. *)
Theorem else_goes_to_nearest_if fuel lx cond stmt lx' :
  ParseStmt fuel lx = Ok (IfStmt cond stmt None) lx' →
  Token.Is (Current lx') Token.ELSE = false.
Proof.
  destruct fuel as [|f]; [discriminate|]. cbn [ParseStmt]. unfold ParseStmtAt.
  destruct (Token.GetKind (Current lx));
    unfold ParseReturnStmt, ParseWhileStmt, ParseIfStmt, ParseBlockStmt,
           ParseLetStmt;
    intros H; inv_parse H; try discriminate H.
  - destruct (Token.Is (Current _) Token.ELSE) eqn:Ee.
    + inv_parse H. discriminate H.
    + by injection H as _ _ <-.
  - by case_match; inv_parse H.
Qed.

Lemma else_goes_to_nearest_if_witness :
  Token.Is (Current (mkLexer Token.End_ [])) Token.ELSE = false.
Proof.
  apply (else_goes_to_nearest_if 4
           (lexer_of [Token.Symbol Token.IF; Token.Symbol Token.LPAREN;
                      Token.Ident "c"; Token.Symbol Token.RPAREN; Token.Ident "x"])
           (RefExpr "c") (ExprStmt (RefExpr "x"))).
  vm_compute. reflexivity.
Defined.

(** *** Errors of the module parser *)

(** Where a top-level item should start, a token that starts neither a
    statement nor an expression, such as the [;] after a top-level
    statement, makes [ParseModule] throw. *)
Theorem top_level_rejects_stray_token n f body lx :
  Token.GetKind (Current lx) ∉
    [Token.END; Token.FUNC; Token.RETURN; Token.WHILE; Token.IF; Token.LBRACE;
     Token.LET; Token.IDENT; Token.INT] →
  ModuleLoop (S n) (S f) body lx = Throws "unexpected token, expecting term".
Proof.
  intros Hk. cbn [ModuleLoop ParseStmt]. unfold Token.Is, ParseStmtAt.
  rewrite !bool_decide_false by (intros E; apply Hk; rewrite E; set_solver).
  assert (He : Parser.ParseExpr (S n) lx
               = ParserError "unexpected token, expecting term").
  { cbn [Parser.ParseExpr].
    apply (expression_must_start_with_term_aux (Parser.ParseExpr n) (S n) lx);
      intros E; apply Hk; rewrite E; set_solver. }
  destruct (Token.GetKind (Current lx)) eqn:Ek;
    try (exfalso; apply Hk; set_solver); by rewrite He.
Qed.

Lemma top_level_rejects_stray_token_witness :
  ModuleLoop 3 2 [TStmt (ExprStmt (RefExpr "x"))]
    (lexer_of [Token.Symbol Token.SEMI; Token.Ident "y"])
  = Throws "unexpected token, expecting term".
Proof.
  apply (top_level_rejects_stray_token 2 1 [TStmt (ExprStmt (RefExpr "x"))]
           (lexer_of [Token.Symbol Token.SEMI; Token.Ident "y"])).
  by apply (bool_decide_unpack _).
Defined.

(** In the parameter list of a function, a token that is neither [)] nor an
    identifier is read with [GetIdent] unchecked: the assertion of
    [GetIdent] fails, no [ParserError] is thrown. *)
Theorem parameter_must_be_identifier n f body lx :
  Token.Is (Current lx) Token.FUNC = true →
  Token.Is (Current (Next lx)) Token.IDENT = true →
  Token.Is (Current (Next (Next lx))) Token.LPAREN = true →
  Token.Is (Current (Next (Next (Next lx)))) Token.RPAREN = false →
  Token.Is (Current (Next (Next (Next lx)))) Token.IDENT = false →
  ModuleLoop (S n) (S f) body lx = Aborts "not an identifier".
Proof.
  intros Hf Hi Hl Hr Hni. cbn [ModuleLoop].
  assert (He : Token.Is (Current lx) Token.END = false).
  { unfold Token.Is in *. apply bool_decide_eq_true in Hf.
    rewrite bool_decide_false; [done|]. by rewrite Hf. }
  rewrite He, Hf. unfold ParseFunc, Expect, Check.
  rewrite Hi. cbn [lift mbind]. rewrite Hl. cbn [lift mbind ParamLoop].
  by rewrite Hr, Hni.
Qed.

Lemma parameter_must_be_identifier_witness :
  ModuleLoop 1 1 []
    (lexer_of [Token.Symbol Token.FUNC; Token.Ident "f"; Token.Symbol Token.LPAREN;
               Token.Integer 1; Token.Symbol Token.RPAREN])
  = Aborts "not an identifier".
Proof.
  by apply (parameter_must_be_identifier 0 0 []
           (lexer_of [Token.Symbol Token.FUNC; Token.Ident "f";
                      Token.Symbol Token.LPAREN; Token.Integer 1;
                      Token.Symbol Token.RPAREN])).
Defined.

(** *** Termination *)

Lemma Check_ends kind lx : ends_below (S (remaining lx)) (Check kind lx).
Proof. unfold Check. case_match; cbn; lia. Qed.

Lemma remaining_Next_lt lx kind :
  kind ≠ Token.END → Token.Is (Current lx) kind = true →
  (remaining (Next lx) < remaining lx)%nat.
Proof.
  intros Hk H. pose proof (remaining_pos lx kind Hk H).
  pose proof (remaining_Next lx). lia.
Qed.

(** [Check] at [lx], then [k] on the same lexer, of which the current token
    is then known. *)
Lemma ends_below_Check {B} m kind lx (k : unit → Lexer → Result B) :
  kind ≠ Token.END →
  ((1 ≤ remaining lx)%nat → Token.Is (Current lx) kind = true →
   ends_below m (k tt lx)) →
  ends_below m (bind (Check kind lx) k).
Proof.
  intros Hk H. unfold Check.
  destruct (Token.Is (Current lx) kind) eqn:E; cbn [bind]; [|done].
  apply H; [|done]. by apply (remaining_pos lx kind).
Qed.

Section Termination.

Variable PE : Lexer → Result Expr.
Variable PS : Lexer → Result Stmt.
Variable bound : nat.
Hypothesis PE_ends :
  ∀ lx, (remaining lx ≤ bound)%nat → ends_below (remaining lx) (PE lx).
Hypothesis PS_ends :
  ∀ lx, (remaining lx < bound)%nat → ends_below (remaining lx) (PS lx).

Lemma BlockLoop_ends f : ∀ body lx,
  (1 ≤ remaining lx)%nat → (remaining lx ≤ bound)%nat → (remaining lx ≤ f)%nat →
  ends_below (remaining lx) (BlockLoop PS f body lx).
Proof.
  induction f as [|f IH]; intros body lx H1 HB Hf; [lia|].
  cbn [BlockLoop]. pose proof (remaining_Next lx) as HN.
  destruct (Token.Is (Current (Next lx)) Token.RBRACE); [cbn; lia|].
  apply (ends_below_bind (remaining (Next lx))); [apply PS_ends; lia|].
  intros st lx2 _ H2.
  destruct (Token.Is (Current lx2) Token.SEMI) eqn:Ec; cbn [negb]; [|cbn; lia].
  apply (ends_below_mono (remaining lx2)); [lia|].
  apply IH; [by apply (remaining_pos lx2 Token.SEMI)|lia|lia].
Qed.

Lemma ParseBlockBody_ends n lx :
  (remaining lx ≤ bound)%nat → (remaining lx ≤ n)%nat →
  ends_below (remaining lx) (ParseBlockBody PS n lx).
Proof.
  intros HB Hn. unfold ParseBlockBody.
  apply ends_below_Check; [done|]. intros H1 _.
  apply (ends_below_bind (remaining lx)); [by apply BlockLoop_ends|].
  intros body lx1 _ Hlt.
  apply ends_below_Check; [done|]. intros _ _. cbn.
  pose proof (remaining_Next lx1). lia.
Qed.

Lemma ParseStmtAt_ends n lx :
  (remaining lx ≤ bound)%nat → (remaining lx ≤ n)%nat →
  ends_below (remaining lx) (ParseStmtAt PE PS n lx).
Proof.
  intros HB Hn. unfold ParseStmtAt.
  assert (Hexpr : ends_below (remaining lx)
            (bind (PE lx) (λ e lx1, Ok (ExprStmt e) lx1))).
  { apply (ends_below_bind (remaining lx)); [by apply PE_ends|]. by intros. }
  destruct (Token.GetKind (Current lx)); try apply Hexpr.
  - (* RETURN *)
    unfold ParseReturnStmt. apply ends_below_Check; [done|]. intros H1 _.
    pose proof (remaining_Next lx).
    apply (ends_below_bind (remaining (Next lx))); [apply PE_ends; lia|].
    intros e lx1 _ He. cbn. lia.
  - (* WHILE *)
    unfold ParseWhileStmt, Expect. apply ends_below_Check; [done|]. intros H1 _.
    pose proof (remaining_Next lx).
    apply ends_below_Check; [done|]. intros _ _.
    pose proof (remaining_Next (Next lx)).
    apply (ends_below_bind (remaining (Next (Next lx)))); [apply PE_ends; lia|].
    intros cond lx2 _ Hcond.
    apply ends_below_Check; [done|]. intros _ _.
    pose proof (remaining_Next lx2).
    apply (ends_below_bind (remaining (Next lx2))); [apply PS_ends; lia|].
    intros stmt lx4 _ Hstmt. cbn. lia.
  - (* IF *)
    unfold ParseIfStmt, Expect. apply ends_below_Check; [done|]. intros H1 _.
    pose proof (remaining_Next lx).
    apply ends_below_Check; [done|]. intros _ _.
    pose proof (remaining_Next (Next lx)).
    apply (ends_below_bind (remaining (Next (Next lx)))); [apply PE_ends; lia|].
    intros cond lx2 _ Hcond.
    apply ends_below_Check; [done|]. intros _ _.
    pose proof (remaining_Next lx2).
    apply (ends_below_bind (remaining (Next lx2))); [apply PS_ends; lia|].
    intros stmt lx4 _ Hstmt.
    destruct (Token.Is (Current lx4) Token.ELSE); [|cbn; lia].
    pose proof (remaining_Next lx4).
    apply (ends_below_bind (remaining (Next lx4))); [apply PS_ends; lia|].
    intros elseStmt lx5 _ Helse. cbn. lia.
  - (* LET *)
    unfold ParseLetStmt, Expect. apply ends_below_Check; [done|]. intros H1 _.
    pose proof (remaining_Next lx).
    apply ends_below_Check; [done|]. intros _ _.
    pose proof (remaining_Next (Next lx)).
    apply ends_below_Check; [done|]. intros _ _.
    pose proof (remaining_Next (Next (Next lx))).
    apply ends_below_Check; [done|]. intros _ _.
    pose proof (remaining_Next (Next (Next (Next lx)))).
    destruct (Token.Is _ Token.EQUAL); [|cbn; lia].
    pose proof (remaining_Next (Next (Next (Next (Next lx))))).
    apply (ends_below_bind (remaining (Next (Next (Next (Next (Next lx)))))));
      [apply PE_ends; lia|].
    intros init lx5 _ Hinit. cbn. lia.
  - (* LBRACE *)
    unfold ParseBlockStmt.
    apply (ends_below_bind (remaining lx)); [by apply ParseBlockBody_ends|].
    by intros.
Qed.

End Termination.

Lemma ParseStmt_ends fuel : ∀ lx,
  (remaining lx < fuel)%nat → ends_below (remaining lx) (ParseStmt fuel lx).
Proof.
  induction fuel as [|f IH]; intros lx Hf; [lia|].
  cbn [ParseStmt]. apply (ParseStmtAt_ends _ _ f); [|done|lia|lia].
  intros lx1 H1. apply ParseExpr_ends. lia.
Qed.

Lemma lift_ends {A} m (r : Result A) :
  ends_below m r → module_ends_below m (lift r).
Proof. by destruct r. Qed.

Lemma module_ends_below_bind {A B} m m' (r : ModuleResult A)
    (k : A → Lexer → ModuleResult B) :
  module_ends_below m r →
  (∀ a lx1, r = Parsed a lx1 → (remaining lx1 < m)%nat →
     module_ends_below m' (k a lx1)) →
  module_ends_below m' (mbind r k).
Proof. destruct r; cbn; auto. Qed.

Lemma module_ends_below_mono {A} m m' (r : ModuleResult A) :
  (m ≤ m')%nat → module_ends_below m r → module_ends_below m' r.
Proof. destruct r; cbn; lia. Qed.

Lemma module_ends_below_Check {B} m kind lx (k : unit → Lexer → ModuleResult B) :
  kind ≠ Token.END →
  ((1 ≤ remaining lx)%nat → Token.Is (Current lx) kind = true →
   module_ends_below m (k tt lx)) →
  module_ends_below m (mbind (lift (Check kind lx)) k).
Proof.
  intros Hk H. unfold Check.
  destruct (Token.Is (Current lx) kind) eqn:E; cbn [lift mbind]; [|done].
  apply H; [|done]. by apply (remaining_pos lx kind).
Qed.

Lemma ParamLoop_ends f : ∀ args lx,
  (1 ≤ remaining lx)%nat → (remaining lx ≤ f)%nat →
  module_ends_below (remaining lx) (ParamLoop f args lx).
Proof.
  induction f as [|f IH]; intros args lx H1 Hf; [lia|].
  cbn [ParamLoop]. pose proof (remaining_Next lx) as HN.
  destruct (Token.Is (Current (Next lx)) Token.RPAREN); [cbn; lia|].
  destruct (Token.Is (Current (Next lx)) Token.IDENT); cbn [negb]; [|done].
  unfold Expect.
  apply module_ends_below_Check; [done|]. intros _ _.
  pose proof (remaining_Next (Next lx)).
  apply module_ends_below_Check; [done|]. intros _ _.
  pose proof (remaining_Next (Next (Next lx))).
  pose proof (remaining_Next (Next (Next (Next lx)))).
  destruct (Token.Is (Current (Next (Next (Next (Next lx))))) Token.COMMA) eqn:Ec;
    cbn [negb]; [|cbn; lia].
  apply (module_ends_below_mono (remaining (Next (Next (Next (Next lx)))))); [lia|].
  apply IH; [by apply (remaining_pos _ Token.COMMA)|lia].
Qed.

Lemma ParseFunc_ends n lx :
  (1 ≤ remaining lx)%nat → (remaining lx ≤ n)%nat →
  module_ends_below (remaining lx) (ParseFunc n lx).
Proof.
  intros H1 Hn. unfold ParseFunc, Expect.
  pose proof (remaining_Next lx).
  apply module_ends_below_Check; [done|]. intros _ _.
  pose proof (remaining_Next (Next lx)).
  apply module_ends_below_Check; [done|]. intros H2 _.
  apply (module_ends_below_bind (remaining (Next (Next lx))));
    [apply ParamLoop_ends; lia|].
  intros args lx3 _ H3.
  apply module_ends_below_Check; [done|]. intros _ _.
  pose proof (remaining_Next lx3).
  apply module_ends_below_Check; [done|]. intros _ _.
  pose proof (remaining_Next (Next lx3)).
  apply module_ends_below_Check; [done|]. intros _ _.
  pose proof (remaining_Next (Next (Next lx3))).
  destruct (Token.Is _ Token.EQUAL).
  - apply module_ends_below_Check; [done|]. intros _ _. cbn.
    pose proof (remaining_Next (Next (Next (Next lx3)))).
    pose proof (remaining_Next (Next (Next (Next (Next lx3))))). lia.
  - apply (module_ends_below_bind (remaining (Next (Next (Next lx3))))).
    + apply lift_ends.
      apply (ParseBlockBody_ends (ParseStmt n) n (ParseStmt_ends n)); lia.
    + intros block lx8 _ H8. cbn. lia.
Qed.

Lemma ModuleLoop_ends n f : ∀ body lx,
  (remaining lx < n)%nat → (remaining lx < f)%nat →
  module_ends_below (S (remaining lx)) (ModuleLoop n f body lx).
Proof.
  induction f as [|f IH]; intros body lx Hn Hf; [lia|].
  cbn [ModuleLoop].
  destruct (Token.Is (Current lx) Token.END); [cbn; lia|].
  destruct (Token.Is (Current lx) Token.FUNC) eqn:Ef.
  - apply (module_ends_below_bind (remaining lx)).
    + apply ParseFunc_ends; [by apply (remaining_pos lx Token.FUNC)|lia].
    + intros item lx1 _ H1.
      apply (module_ends_below_mono (S (remaining lx1))); [lia|]. apply IH; lia.
  - apply (module_ends_below_bind (remaining lx)).
    + apply lift_ends, ParseStmt_ends. lia.
    + intros stmt lx1 _ H1.
      apply (module_ends_below_mono (S (remaining lx1))); [lia|]. apply IH; lia.
Qed.

(** The module parser comes to an end on every input: with more fuel than
    tokens left it returns a module, throws [ParserError] or fails the
    assertion of [GetIdent]; it never runs out of fuel. *)
Theorem ParseModule_terminates fuel lx :
  (remaining lx < fuel)%nat → ParseModule fuel lx ≠ NoFuel.
Proof.
  intros Hf. pose proof (ModuleLoop_ends fuel fuel [] lx Hf Hf) as H.
  unfold ParseModule. by destruct (ModuleLoop fuel fuel [] lx).
Qed.

Lemma ParseModule_terminates_witness :
  ParseModule 3 (lexer_of [Token.Ident "x"; Token.Ident "y"]) ≠ NoFuel.
Proof.
  apply (ParseModule_terminates 3 (lexer_of [Token.Ident "x"; Token.Ident "y"])).
  vm_compute. lia.
Defined.

(** A statement is parsed to an end as well, and a statement that is
    returned has cost at least one token. *)
Theorem ParseStmt_terminates fuel lx :
  (remaining lx < fuel)%nat →
  ParseStmt fuel lx ≠ OutOfFuel
  ∧ ∀ st lx', ParseStmt fuel lx = Ok st lx' → (remaining lx' < remaining lx)%nat.
Proof.
  intros Hf. pose proof (ParseStmt_ends fuel lx Hf) as H.
  destruct (ParseStmt fuel lx); cbn in H; [|done..].
  split; [done|]. by intros ? ? [= <- <-].
Qed.

Lemma ParseStmt_terminates_witness :
  ParseStmt 4 (lexer_of [Token.Symbol Token.LBRACE; Token.Ident "x";
                         Token.Symbol Token.RBRACE]) ≠ OutOfFuel.
Proof.
  apply (ParseStmt_terminates 4
           (lexer_of [Token.Symbol Token.LBRACE; Token.Ident "x";
                      Token.Symbol Token.RBRACE])).
  vm_compute. lia.
Defined.

End ParserStmtFacts.

(** ** Running [if]: fixups, labels and jumps together *)

Module ControlFacts.
Import Bytes BytesFacts Interp InterpFacts Codegen CodegenSpec CodegenFacts
       RunSpec RunFacts.

Lemma nextLabel_EmitLabel l s : nextLabel_ (EmitLabel l s) = nextLabel_ s.
Proof. unfold EmitLabel. by destruct (fixups_ s !! l). Qed.

Ltac norm_app_in H :=
  repeat (progress (cbn [app] in H) || rewrite <- app_assoc in H).

Lemma le_bytes_8_small a :
  0 <= a < 2 ^ 32 → le_bytes 4 a ++ [0; 0; 0; 0] = le_bytes 8 a.
Proof.
  intros Ha. change 8%nat with (4 + 4)%nat.
  cbn [le_bytes app Nat.add]. do 4 f_equal.
  assert (H0 : a / 256 / 256 / 256 / 256 = 0).
  { rewrite !Z.div_div by lia. apply Z.div_small. lia. }
  rewrite H0. reflexivity.
Qed.

(** Patching the placeholder that follows [pre]. *)
Lemma patch_placeholder a (pre post : list Z) :
  Z.of_nat a < 2 ^ 32 →
  patch a (pre ++ le_bytes 8 0 ++ post) (length pre)
  = pre ++ le_bytes 8 (Z.of_nat a) ++ post.
Proof.
  intros Ha. unfold patch.
  rewrite <- (Nat.add_0_r (length pre)), list_inserts_app_r. f_equal.
  change (le_bytes 8 0) with ([0; 0; 0; 0] ++ [0; 0; 0; 0]).
  rewrite <- app_assoc, list_inserts_0_r by (by rewrite length_le_bytes).
  rewrite app_assoc, le_bytes_8_small by lia. done.
Qed.

Lemma le_value_size_t a : 0 <= a < 2 ^ 32 → le_value (le_bytes 8 a) = a.
Proof.
  intros Ha. rewrite le_value_le_bytes. apply Z.mod_small.
  change (256 ^ Z.of_nat 8) with (2 ^ 64). lia.
Qed.

Lemma JUMP_step pre post stk a :
  0 <= a < 2 ^ 32 →
  step (at_op pre JUMP (le_bytes 8 a) post stk)
  = Continue (Interp.mkState (pre ++ opcode_byte JUMP :: le_bytes 8 a ++ post) a stk).
Proof.
  intros Ha. rewrite step_at_op. cbn [exec prog_ pc_].
  rewrite Read_imm by (by rewrite length_le_bytes).
  by rewrite le_value_size_t.
Qed.

Lemma JUMP_FALSE_step pre post stk a v :
  0 <= a < 2 ^ 32 →
  step (at_op pre JUMP_FALSE (le_bytes 8 a) post (VInt v :: stk))
  = Continue (Interp.mkState (pre ++ opcode_byte JUMP_FALSE :: le_bytes 8 a ++ post)
                (if v =? 0 then a else Z.of_nat (length pre) + 9) stk).
Proof.
  intros Ha. rewrite step_at_op. cbn [exec Pop prog_ pc_ stack_].
  rewrite Read_imm by (by rewrite length_le_bytes).
  rewrite le_value_size_t by done. cbn [truthy].
  destruct (v =? 0); cbn [negb]; unfold set_pc; cbn [prog_ pc_ stack_];
    do 2 f_equal. lia.
Qed.

(** What a jump to a label that is not bound yet leaves behind. *)
Lemma EmitJump_unbound l s :
  labelToAddress_ s !! l = None →
  code_ (EmitJump l s) = code_ s ++ opcode_byte JUMP :: le_bytes 8 0
  ∧ (∀ l', sites (EmitJump l s) l'
           = if decide (l = l') then sites s l ++ [S (length (code_ s))]
             else sites s l')
  ∧ same_labels s (EmitJump l s).
Proof.
  intros Hu. unfold EmitJump. split; [|split].
  - rewrite code_EmitFixup_unbound by done. cbn. by rewrite <- app_assoc.
  - intros l'. rewrite sites_EmitFixup_unbound by done. cbn [code_ Emit_Opcode Emit set_code].
    rewrite length_app. cbn [length]. rewrite Nat.add_1_r. done.
  - apply same_labels_EmitJump.
Qed.

Lemma EmitJumpFalse_unbound l s s' :
  labelToAddress_ s !! l = None →
  EmitJumpFalse l s = Ok s' →
  code_ s' = code_ s ++ opcode_byte JUMP_FALSE :: le_bytes 8 0
  ∧ (∀ l', sites s' l'
           = if decide (l = l') then sites s l ++ [S (length (code_ s))]
             else sites s l')
  ∧ same_labels s s'.
Proof.
  intros Hu H. pose proof (same_labels_EmitJumpFalse _ _ _ H) as SL.
  unfold EmitJumpFalse in H.
  destruct (consume_one s) as [s1|] eqn:E; cbn [bind] in H; [|discriminate H].
  injection H as <-. apply consume_one_Ok in E as [-> _].
  split; [|split; [|done]].
  - rewrite code_EmitFixup_unbound by done. cbn. by rewrite <- app_assoc.
  - intros l'. rewrite sites_EmitFixup_unbound by done.
    cbn [code_ Emit_Opcode Emit set_code set_depth].
    rewrite length_app. cbn [length]. rewrite Nat.add_1_r. done.
Qed.

Lemma runs_to_nil base : runs_to None [] base.
Proof.
  intros pre post stk Hpre. exists 0%nat. cbn. do 2 f_equal. lia.
Qed.

Lemma runs_to_app stop1 stop2 c1 c2 base :
  runs_to stop1 c1 base → runs_to stop2 c2 (base + length c1) →
  runs_to (match stop1 with None => stop2 | Some o => Some o end) (c1 ++ c2) base.
Proof.
  intros R1 R2 pre post stk Hpre.
  destruct (R1 pre (c2 ++ post) stk Hpre) as [n1 S1].
  destruct (R2 (pre ++ c1) post stk) as [n2 S2]; [rewrite length_app; lia|].
  rewrite <- !app_assoc in S2 |- *.
  destruct stop1 as [o|]; [by exists n1|].
  exists (n1 + n2)%nat. rewrite steps_add, S1.
  rewrite Nat2Z.inj_add in S2. rewrite S2.
  destruct stop2; [done|]. rewrite length_app, Nat2Z.inj_add.
  do 2 f_equal. lia.
Qed.

Lemma Stmt_runs_ExprStmt e : Stmt_runs (ExprStmt e).
Proof.
  intros scope s scope' s' Hs Hc H. cbn [simple] in Hs.
  destruct (ExprStmt_code _ _ _ _ _ Hs H) as (-> & [SL SN] & c & C & F & R).
  split; [done|]. split; [lia|]. split.
  { intros l Hl. rewrite SN in Hl. destruct (Hc l Hl) as [Hu Hsi].
    unfold sites in *. by rewrite SL, F. }
  split.
  { intros l _. unfold sites. by rewrite SL, F. }
  exists c. split; [done|]. intros _ pre post stk Hpre.
  destruct (R pre post stk) as [n S]. exists n. cbn [stmt_stop].
  by rewrite <- Hpre.
Qed.

Lemma LowerStmts_runs body : Forall Stmt_runs body →
  ∀ scope s scope' s',
    forallb simple body = true → clean s →
    LowerStmts LowerStmt body scope s = Ok (scope', s') →
    scope' = scope ∧ nextLabel_ s <= nextLabel_ s' ∧ clean s'
    ∧ (∀ l, l <= nextLabel_ s →
         labelToAddress_ s' !! l = labelToAddress_ s !! l
         ∧ sites s' l = sites s l)
    ∧ ∃ c, code_ s' = code_ s ++ c
        ∧ (Z.of_nat (length (code_ s')) < 2 ^ 32 →
           runs_to (first_of stmt_stop body) c (length (code_ s))).
Proof.
  induction 1 as [|st rest Hst _ IH]; intros scope s scope' s' Hs Hc H.
  - injection H as <- <-. split; [done|]. split; [lia|]. split; [done|].
    split; [done|]. exists []. rewrite app_nil_r. split; [done|].
    intros _. apply runs_to_nil.
  - cbn [forallb] in Hs. apply andb_prop in Hs as [Hs1 Hs2].
    cbn [LowerStmts] in H.
    destruct (LowerStmt scope st s) as [[scope1 s1]|] eqn:E1;
      cbn [bind] in H; [|discriminate H].
    destruct (Hst _ _ _ _ Hs1 Hc E1) as (-> & N1 & Hc1 & U1 & c1 & C1 & R1).
    destruct (IH _ _ _ _ Hs2 Hc1 H) as (-> & N2 & Hc2 & U2 & c2 & C2 & R2).
    split; [done|]. split; [lia|]. split; [done|]. split.
    { intros l Hl. destruct (U1 l Hl) as [<- <-]. apply U2. lia. }
    exists (c1 ++ c2). split; [by rewrite C2, C1, <- app_assoc|].
    intros Hlen. cbn [first_of].
    assert (Hlen1 : Z.of_nat (length (code_ s1)) < 2 ^ 32).
    { rewrite C2, length_app in Hlen. lia. }
    specialize (R1 Hlen1). specialize (R2 Hlen).
    rewrite C1, length_app in R2.
    exact (runs_to_app _ _ _ _ _ R1 R2).
Qed.

Lemma Stmt_runs_BlockStmt body : Forall Stmt_runs body → Stmt_runs (BlockStmt body).
Proof.
  intros Hbody scope s scope' s' Hs Hc H. cbn [simple] in Hs.
  cbn [LowerStmt] in H. unfold LowerBlockStmtWith in H.
  destruct (LowerStmts LowerStmt body (BlockScope scope ∅) s)
    as [[blockScope s1]|] eqn:E1; cbn [bind] in H; [|discriminate H].
  destruct (LowerStmts_runs body Hbody _ _ _ _ Hs Hc E1)
    as (-> & N & Hc1 & U & c & C & R).
  assert (Hn : NumberOfLocals (BlockScope scope ∅) = 0%nat)
    by apply map_size_empty.
  rewrite Hn in H. cbn [EmitPops bind] in H.
  unfold assert_ in H. destruct (depth_ s1 =? depth_ s); [|discriminate H].
  cbn [bind] in H. injection H as <- <-.
  split; [done|]. split; [done|]. split; [done|]. split; [done|].
  exists c. split; [done|]. exact R.
Qed.

Lemma Stmt_runs_IfStmt cond stmt elseStmt :
  Stmt_runs stmt →
  match elseStmt with Some e => Stmt_runs e | None => True end →
  Stmt_runs (IfStmt cond stmt elseStmt).
Proof.
  intros IHt IHe scope s scope' s' Hs Hc H.
  cbn [simple] in Hs. apply andb_prop in Hs as [Hs Hse].
  apply andb_prop in Hs as [Hsc Hst].
  cbn [LowerStmt] in H. unfold LowerIfStmt in H. cbn [MakeLabel] in H.
  set (L := nextLabel_ s) in *.
  set (s3 := set_nextLabel _ (set_nextLabel _ (set_nextLabel _ s))) in H.
  assert (N3 : nextLabel_ s3 = L + 3) by (cbn; lia).
  change (nextLabel_ (set_nextLabel (L + 1) s) + 1) with (L + 1 + 1) in H.
  change (nextLabel_ (set_nextLabel (L + 1 + 1) (set_nextLabel (L + 1) s)) + 1)
    with (L + 1 + 1 + 1) in H.
  set (s4 := EmitLabel (L + 1) s3) in H.
  destruct (LowerExpr scope cond s4) as [s5|] eqn:E5;
    cbn [bind] in H; [|discriminate H].
  destruct (EmitJumpFalse (L + 1 + 1) s5) as [s6|] eqn:E6;
    cbn [bind] in H; [|discriminate H].
  destruct (LowerStmt scope stmt s6) as [[scope1 s7]|] eqn:E7;
    cbn [bind] in H; [|discriminate H].
  set (s8 := EmitJump (L + 1 + 1 + 1) s7) in H.
  set (s9 := EmitLabel (L + 1 + 1) s8) in H.
  (* the state before the condition *)
  assert (C4 : code_ s4 = code_ s).
  { unfold s4. rewrite code_EmitLabel.
    replace (sites s3 (L + 1)) with (sites s (L + 1)) by done.
    by rewrite (proj2 (Hc (L + 1) ltac:(lia))). }
  assert (S4 : ∀ l, sites s4 l = sites s l).
  { intros l. unfold s4. by rewrite sites_EmitLabel. }
  assert (A4 : ∀ l, l ≠ L + 1 → labelToAddress_ s4 !! l = labelToAddress_ s !! l).
  { intros l Hl. unfold s4. by rewrite labelToAddress_EmitLabel, emplace_lookup_ne. }
  assert (N4 : nextLabel_ s4 = L + 3) by (unfold s4; by rewrite nextLabel_EmitLabel).
  (* the condition *)
  destruct (arith_code _ _ _ _ Hsc E5) as (cc & C5 & F5 & R5).
  destruct (LowerExpr_same_labels _ _ _ _ E5) as [A5 N5].
  assert (S5 : ∀ l, sites s5 l = sites s l).
  { intros l. unfold sites at 1. rewrite F5. apply S4. }
  (* the conditional jump *)
  assert (U5 : labelToAddress_ s5 !! (L + 1 + 1) = None).
  { rewrite A5, A4 by lia. apply Hc. lia. }
  destruct (EmitJumpFalse_unbound _ _ _ U5 E6) as (C6 & S6 & [A6 N6]).
  assert (Hc6 : clean s6).
  { intros l Hl. rewrite N6, N5, N4 in Hl. split.
    - rewrite A6, A5, A4 by lia. apply Hc. lia.
    - rewrite S6, decide_False, S5 by lia. apply Hc. lia. }
  (* the branch taken when the condition holds *)
  destruct (IHt _ _ _ _ Hst Hc6 E7) as (-> & N7 & Hc7 & U7 & ct & C7 & R7).
  assert (N6' : nextLabel_ s6 = L + 3) by (rewrite N6, N5, N4; done).
  assert (U7x : labelToAddress_ s7 !! (L + 1 + 1 + 1) = None).
  { rewrite (proj1 (U7 (L + 1 + 1 + 1) ltac:(lia))), A6, A5, A4 by lia.
    apply Hc. lia. }
  destruct (EmitJump_unbound _ _ U7x) as (C8 & S8 & [A8 N8]).
  fold s8 in C8, S8, A8, N8.
  (* the label of the other branch *)
  assert (Se : sites s8 (L + 1 + 1) = [S (length (code_ s5))]).
  { rewrite S8, decide_False by lia.
    rewrite (proj2 (U7 (L + 1 + 1) ltac:(lia))), S6, decide_True by done.
    rewrite S5. by rewrite (proj2 (Hc (L + 1 + 1) ltac:(lia))). }
  assert (Sx : sites s8 (L + 1 + 1 + 1) = [S (length (code_ s7))]).
  { rewrite S8, decide_True by done.
    rewrite (proj2 (U7 (L + 1 + 1 + 1) ltac:(lia))), S6, decide_False by lia.
    rewrite S5. by rewrite (proj2 (Hc (L + 1 + 1 + 1) ltac:(lia))). }
  assert (C9r : code_ s9 = foldl (patch (length (code_ s8))) (code_ s8)
                             [S (length (code_ s5))]).
  { unfold s9. by rewrite code_EmitLabel, Se. }
  assert (S9 : ∀ l, sites s9 l = sites s8 l)
    by (intros l; unfold s9; by rewrite sites_EmitLabel).
  assert (N9 : nextLabel_ s9 = nextLabel_ s7)
    by (unfold s9; by rewrite nextLabel_EmitLabel, N8).
  assert (A9 : ∀ l, l ≠ L + 1 + 1 →
            labelToAddress_ s9 !! l = labelToAddress_ s7 !! l).
  { intros l Hl. unfold s9.
    by rewrite labelToAddress_EmitLabel, emplace_lookup_ne, A8. }
  assert (Hc9 : clean s9).
  { intros l Hl. rewrite N9 in Hl. destruct (Hc7 l Hl) as [Hu Hsi]. split.
    - by rewrite A9 by lia.
    - by rewrite S9, S8, decide_False by lia. }
  (* the other branch, if there is one *)
  assert (Helse : ∃ s10 ce,
    (scope', s10) = (scope, s10) ∧ s' = EmitLabel (L + 1 + 1 + 1) s10
    ∧ nextLabel_ s9 <= nextLabel_ s10 ∧ clean s10
    ∧ (∀ l, l <= nextLabel_ s9 →
         labelToAddress_ s10 !! l = labelToAddress_ s9 !! l
         ∧ sites s10 l = sites s9 l)
    ∧ code_ s10 = code_ s9 ++ ce
    ∧ (Z.of_nat (length (code_ s10)) < 2 ^ 32 →
       runs_to (match elseStmt with Some e => stmt_stop e | None => None end)
               ce (length (code_ s9)))).
  { destruct elseStmt as [e|].
    - destruct (LowerStmt scope e s9) as [[scope2 s10]|] eqn:E10;
        cbn [bind] in H; [|discriminate H].
      injection H as <- <-.
      destruct (IHe _ _ _ _ Hse Hc9 E10) as (-> & N10 & Hc10 & U10 & ce & C10 & R10).
      by exists s10, ce.
    - cbn [bind] in H. injection H as <- <-. exists s9, [].
      rewrite app_nil_r. split; [done|]. split; [done|]. split; [lia|].
      split; [done|]. split; [done|]. split; [done|].
      intros _. apply runs_to_nil. }
  clear H. destruct Helse as (s10 & ce & Hsc' & -> & N10 & Hc10 & U10 & C10 & R10).
  injection Hsc' as ->.
  assert (Sx10 : sites s10 (L + 1 + 1 + 1) = [S (length (code_ s7))]).
  { rewrite (proj2 (U10 (L + 1 + 1 + 1) ltac:(lia))), S9. done. }
  split; [done|]. split; [rewrite nextLabel_EmitLabel; lia|]. split.
  { intros l Hl. rewrite nextLabel_EmitLabel in Hl. destruct (Hc10 l Hl). split.
    - by rewrite labelToAddress_EmitLabel, emplace_lookup_ne by lia.
    - by rewrite sites_EmitLabel. }
  split.
  { intros l Hl. split.
    - rewrite labelToAddress_EmitLabel, emplace_lookup_ne by lia.
      rewrite (proj1 (U10 l ltac:(lia))), A9 by lia.
      rewrite (proj1 (U7 l ltac:(lia))), A6, A5. apply A4. lia.
    - rewrite sites_EmitLabel, (proj2 (U10 l ltac:(lia))), S9, S8.
      rewrite decide_False by lia.
      rewrite (proj2 (U7 l ltac:(lia))), S6, decide_False by lia. apply S5. }
  (* the stream, with both placeholders patched, below 2^32 *)
  set (a_else := length (code_ s8)) in *.
  set (a_exit := length (code_ s10)).
  assert (Hlen9 : length (code_ s9) = a_else).
  { rewrite C9r. cbn [foldl]. apply length_inserts. }
  assert (C8' : code_ s8
                = (code_ s ++ cc ++ [opcode_byte JUMP_FALSE]) ++ le_bytes 8 0
                  ++ ct ++ opcode_byte JUMP :: le_bytes 8 0).
  { rewrite C8, C7, C6, C5, C4. rewrite <- !app_assoc. done. }
  assert (L5 : S (length (code_ s5))
               = length (code_ s ++ cc ++ [opcode_byte JUMP_FALSE])).
  { rewrite C5, C4, !length_app. cbn [length]. lia. }
  assert (L7 : S (length (code_ s7))
               = length (code_ s ++ cc ++ opcode_byte JUMP_FALSE
                           :: le_bytes 8 (Z.of_nat a_else) ++ ct ++ [opcode_byte JUMP])).
  { rewrite C7, C6, C5, C4, !length_app. cbn [length].
    rewrite !length_app, !length_le_bytes. cbn [length]. lia. }
  rewrite code_EmitLabel, Sx10. cbn [foldl]. fold a_exit.
  assert (G5 : (length (code_ s) ≤ length (code_ s5))%nat)
    by (rewrite C5, C4, length_app; lia).
  assert (G7 : (length (code_ s5) ≤ length (code_ s7))%nat)
    by (rewrite C7, C6, !length_app; lia).
  assert (G8 : (length (code_ s7) ≤ a_else)%nat)
    by (unfold a_else; rewrite C8, length_app; lia).
  destruct (decide (Z.of_nat a_exit < 2 ^ 32)) as [Hsmall|Hbig].
  2:{ eexists. split.
      - rewrite <- (take_drop (length (code_ s)) (patch _ _ _)). f_equal.
        apply list_eq. intros i.
        destruct (decide (i < length (code_ s))%nat) as [Hi|Hi].
        + rewrite lookup_take_lt by done. unfold patch.
          rewrite list_lookup_inserts_lt by lia.
          rewrite C10, C9r. cbn [foldl]. rewrite lookup_app_l
            by (unfold patch; rewrite length_inserts; fold a_else; lia).
          unfold patch. rewrite list_lookup_inserts_lt by lia.
          rewrite C8, C7, C6, C5, C4, <- !app_assoc. by rewrite lookup_app_l.
        + rewrite lookup_take_ge by lia. symmetry. apply lookup_ge_None. lia.
      - intros Hlen. unfold patch in Hlen. rewrite length_inserts in Hlen.
        fold a_exit in Hlen. lia. }
  assert (Hsmall_else : Z.of_nat a_else < 2 ^ 32).
  { unfold a_exit in Hsmall. rewrite C10, length_app, Hlen9 in Hsmall. lia. }
  assert (C9 : code_ s9
               = code_ s ++ cc ++ opcode_byte JUMP_FALSE
                   :: le_bytes 8 (Z.of_nat a_else) ++ ct
                   ++ opcode_byte JUMP :: le_bytes 8 0).
  { rewrite C9r. cbn [foldl]. rewrite C8', L5.
    rewrite patch_placeholder by done. rewrite <- !app_assoc. done. }
  assert (Cfin : patch a_exit (code_ s10) (S (length (code_ s7)))
                 = code_ s ++ cc ++ opcode_byte JUMP_FALSE
                     :: le_bytes 8 (Z.of_nat a_else) ++ ct
                     ++ opcode_byte JUMP :: le_bytes 8 (Z.of_nat a_exit) ++ ce).
  { rewrite C10, C9, L7.
    replace ((code_ s ++ cc ++ opcode_byte JUMP_FALSE
                :: le_bytes 8 (Z.of_nat a_else) ++ ct
                ++ opcode_byte JUMP :: le_bytes 8 0) ++ ce)
      with ((code_ s ++ cc ++ opcode_byte JUMP_FALSE
                :: le_bytes 8 (Z.of_nat a_else) ++ ct ++ [opcode_byte JUMP])
            ++ le_bytes 8 0 ++ ce)
      by (rewrite <- !app_assoc; cbn [app]; by rewrite <- !app_assoc).
    rewrite patch_placeholder by done.
    rewrite <- !app_assoc. cbn [app]. by rewrite <- !app_assoc. }
  rewrite Cfin. eexists. split; [reflexivity|].
  intros _ pre post stk Hpre.
  (* the addresses, as offsets from the start of the statement *)
  assert (Ea : Z.of_nat a_else
               = Z.of_nat (length pre) + Z.of_nat (length cc) + 9
                 + Z.of_nat (length ct) + 9).
  { unfold a_else. rewrite C8', !length_app, !length_le_bytes. cbn [length].
    rewrite length_le_bytes. lia. }
  assert (Ex : Z.of_nat a_exit = Z.of_nat a_else + Z.of_nat (length ce)).
  { unfold a_exit. rewrite C10, length_app, Hlen9. lia. }
  set (c := cc ++ opcode_byte JUMP_FALSE :: le_bytes 8 (Z.of_nat a_else) ++ ct
            ++ opcode_byte JUMP :: le_bytes 8 (Z.of_nat a_exit) ++ ce).
  assert (Lc : Z.of_nat (length c) = Z.of_nat a_exit - Z.of_nat (length pre)).
  { unfold c. rewrite !length_app. cbn [length].
    rewrite !length_app, !length_le_bytes. cbn [length].
    rewrite length_app, length_le_bytes. lia. }
  set (prog := pre ++ c ++ post).
  cbn [stmt_stop].
  (* the condition *)
  destruct (R5 pre ((opcode_byte JUMP_FALSE :: le_bytes 8 (Z.of_nat a_else) ++ ct
                     ++ opcode_byte JUMP :: le_bytes 8 (Z.of_nat a_exit) ++ ce)
                    ++ post) stk) as [n1 S1].
  assert (Eprog : prog = pre ++ cc ++ opcode_byte JUMP_FALSE
                    :: le_bytes 8 (Z.of_nat a_else) ++ ct
                    ++ opcode_byte JUMP :: le_bytes 8 (Z.of_nat a_exit) ++ ce ++ post).
  { unfold prog, c. rewrite <- !app_assoc. cbn [app]. by rewrite <- !app_assoc. }
  norm_app_in S1. rewrite <- Eprog in S1. rewrite <- Hpre.
  destruct (eval cond) as [v|msg|]; cbn [finish] in S1;
    [|by exists n1|by exists n1].
  (* the conditional jump *)
  pose proof (JUMP_FALSE_step (pre ++ cc)
                (ct ++ opcode_byte JUMP :: le_bytes 8 (Z.of_nat a_exit) ++ ce ++ post)
                stk (Z.of_nat a_else) v ltac:(lia)) as SJ.
  unfold at_op in SJ. norm_app_in SJ.
  rewrite <- Eprog, length_app, Nat2Z.inj_add in SJ.
  destruct (Z.eqb_spec v 0) as [Hv|Hv].
  - (* to the other branch *)
    specialize (R10 ltac:(fold a_exit; lia)). rewrite Hlen9 in R10.
    destruct (R10 (pre ++ cc ++ opcode_byte JUMP_FALSE
                     :: le_bytes 8 (Z.of_nat a_else) ++ ct
                     ++ opcode_byte JUMP :: le_bytes 8 (Z.of_nat a_exit))
                  post stk) as [n3 S3].
    { apply Nat2Z.inj. rewrite Ea, !length_app. cbn [length].
      rewrite !length_app, !length_le_bytes. cbn [length].
      rewrite length_le_bytes. lia. }
    norm_app_in S3. rewrite <- Eprog in S3.
    exists (n1 + (1 + n3))%nat. rewrite steps_add, S1, steps_add.
    cbn [steps]. rewrite SJ, S3.
    destruct elseStmt as [e|].
    + destruct (stmt_stop e); [done|]. do 2 f_equal. lia.
    + do 2 f_equal. lia.
  - (* through the first branch, then over the other *)
    assert (Hlen7 : Z.of_nat (length (code_ s7)) < 2 ^ 32) by lia.
    specialize (R7 Hlen7).
    assert (L6 : Z.of_nat (length (code_ s6))
                 = Z.of_nat (length pre) + Z.of_nat (length cc) + 9).
    { rewrite C6, C5, C4, !length_app. cbn [length].
      rewrite length_le_bytes. lia. }
    destruct (R7 (pre ++ cc ++ opcode_byte JUMP_FALSE :: le_bytes 8 (Z.of_nat a_else))
                 (opcode_byte JUMP :: le_bytes 8 (Z.of_nat a_exit) ++ ce ++ post) stk)
      as [n2 S2].
    { apply Nat2Z.inj. rewrite L6, !length_app. cbn [length].
      rewrite length_le_bytes. lia. }
    norm_app_in S2. rewrite <- Eprog, L6 in S2.
    destruct (stmt_stop stmt) as [o|].
    { exists (n1 + (1 + n2))%nat. rewrite steps_add, S1, steps_add.
      cbn [steps]. by rewrite SJ, S2. }
    pose proof (JUMP_step (pre ++ cc ++ opcode_byte JUMP_FALSE
                             :: le_bytes 8 (Z.of_nat a_else) ++ ct)
                  (ce ++ post) stk (Z.of_nat a_exit) ltac:(lia)) as SK.
    unfold at_op in SK. norm_app_in SK. rewrite <- Eprog in SK.
    rewrite !length_app in SK. cbn [length] in SK.
    rewrite length_app, length_le_bytes in SK.
    exists (n1 + (1 + (n2 + 1)))%nat. rewrite steps_add, S1, steps_add.
    cbn [steps]. rewrite SJ, steps_add, S2. cbn [steps].
    replace (Z.of_nat (length pre) + Z.of_nat (length cc) + 9 + Z.of_nat (length ct))
      with (Z.of_nat (length pre + (length cc + S (8 + length ct)))) by lia.
    rewrite SK. do 2 f_equal. lia.
Qed.

Lemma Stmt_runs_all st : Stmt_runs st.
Proof.
  induction st as [body IH|cond stmt IH|cond stmt elseStmt IHt IHe|e|e|name type init]
    using Stmt_nested_ind.
  - by apply Stmt_runs_BlockStmt.
  - by intros ? ? ? ? Hs.
  - by apply Stmt_runs_IfStmt.
  - apply Stmt_runs_ExprStmt.
  - by intros ? ? ? ? Hs.
  - by intros ? ? ? ? Hs.
Qed.

(** A statement made of expression statements, [if] and blocks, lowered by
    a generator that has bound or referred to no label beyond [nextLabel_],
    appends code that runs as the tree walk says, as long as the stream
    stays below 2^32 bytes: placed at its offset, it takes the branch of
    each [if] that the value of the condition selects (zero selects
    [else]), and comes to the end of the code with the stack as it found
    it, or ends with the first fault. *)
Theorem simple_statement_runs scope st s scope' s' :
  simple st = true → clean s →
  LowerStmt scope st s = Ok (scope', s') →
  Z.of_nat (length (code_ s')) < 2 ^ 32 →
  ∃ c, code_ s' = code_ s ++ c ∧ runs_to (stmt_stop st) c (length (code_ s)).
Proof.
  intros Hs Hc H Hlen.
  destruct (Stmt_runs_all st _ _ _ _ Hs Hc H) as (_ & _ & _ & _ & c & C & R).
  exists c. split; [done|]. by apply R.
Qed.

Lemma simple_statement_runs_witness :
  ∃ scope' s' c,
    LowerStmt (GlobalScope ∅ ∅)
      (IfStmt (IntExpr 0) (ExprStmt (IntExpr 1)) (Some (ExprStmt (IntExpr 2))))
      new_Codegen = Ok (scope', s')
    ∧ code_ s' = code_ new_Codegen ++ c
    ∧ runs_to None c 0.
Proof.
  destruct (LowerStmt (GlobalScope ∅ ∅)
              (IfStmt (IntExpr 0) (ExprStmt (IntExpr 1)) (Some (ExprStmt (IntExpr 2))))
              new_Codegen) as [[scope' s']|msg] eqn:E.
  - assert (Hlen : Z.of_nat (length (code_ s')) < 2 ^ 32).
    { pose proof E as E'. vm_compute in E'. injection E' as _ <-.
      vm_compute. reflexivity. }
    assert (Hclean : clean new_Codegen).
    { intros l Hl. split; [apply lookup_empty|]. unfold sites. cbn.
      by rewrite lookup_empty. }
    destruct (simple_statement_runs (GlobalScope ∅ ∅)
                (IfStmt (IntExpr 0) (ExprStmt (IntExpr 1))
                        (Some (ExprStmt (IntExpr 2))))
                new_Codegen scope' s' eq_refl Hclean E Hlen) as (c & C & R).
    by exists scope', s', c.
  - vm_compute in E. discriminate E.
Defined.

End ControlFacts.

(** ** From tokens to a run *)

Module PlainTokens.
Import Parser ParserSpec ParserMore ParserStmt ParserStmtFacts RunSpec PipelineSpec.

Lemma plain_Is tk k : plain tk = true → plain_kind k = false → Token.Is tk k = false.
Proof.
  unfold plain, Token.Is. intros Hp Hk. apply bool_decide_eq_false.
  intros E. rewrite E in Hp. congruence.
Qed.

Lemma plain_lexer_Next lx : plain_lexer lx = true → plain_lexer (Next lx) = true.
Proof.
  unfold plain_lexer, Next. intros [H1 H2]%andb_prop.
  destruct (pending lx) as [|tk rest]; [done|]. done.
Qed.

Lemma plain_lexer_Current lx : plain_lexer lx = true → plain (Current lx) = true.
Proof. unfold plain_lexer. by intros [H1 H2]%andb_prop. Qed.

Section Expressions.

Variable PE : Lexer → Result Expr.

Lemma ParseCallExpr_plain n lx e lx' :
  plain_lexer lx = true →
  ParseCallExpr PE n lx = Ok e lx' → arith e = true ∧ plain_lexer lx' = true.
Proof.
  intros Hp. unfold ParseCallExpr, ParseTermExpr.
  pose proof (plain_lexer_Current _ Hp) as Hc. unfold plain in Hc.
  destruct (Token.GetKind (Current lx)); try discriminate; cbn [bind].
  destruct n as [|n]; [discriminate|]. cbn [CallLoop].
  rewrite (plain_Is _ Token.LPAREN)
    by (done || by apply plain_lexer_Current, plain_lexer_Next).
  intros [= <- <-]. split; [done|]. by apply plain_lexer_Next.
Qed.

Lemma MulDivModLoop_plain n f : ∀ term lx e lx',
  arith term = true → plain_lexer lx = true →
  MulDivModLoop PE n f term lx = Ok e lx' → arith e = true ∧ plain_lexer lx' = true.
Proof.
  induction f as [|f IH]; intros term lx e lx' Ha Hp H; [discriminate H|].
  cbn [MulDivModLoop] in H.
  destruct (Token.Is (Current lx) Token.MUL || Token.Is (Current lx) Token.DIV
            || Token.Is (Current lx) Token.MOD); [|by injection H as <- <-].
  destruct (ParseCallExpr PE n (Next lx)) as [rhs lx1| |] eqn:E;
    [|repeat case_match; discriminate H..].
  destruct (ParseCallExpr_plain _ _ _ _ (plain_lexer_Next _ Hp) E) as [Hr Hp1].
  cbn [bind] in H.
  repeat case_match; apply IH in H; try done; cbn [arith]; by rewrite Ha, Hr.
Qed.

Lemma ParseMulDivModExpr_plain n lx e lx' :
  plain_lexer lx = true →
  ParseMulDivModExpr PE n lx = Ok e lx' → arith e = true ∧ plain_lexer lx' = true.
Proof.
  intros Hp. unfold ParseMulDivModExpr.
  destruct (ParseCallExpr PE n lx) as [term lx1| |] eqn:E; cbn [bind]; try discriminate.
  destruct (ParseCallExpr_plain _ _ _ _ Hp E). by apply MulDivModLoop_plain.
Qed.

Lemma AddSubLoop_plain n f : ∀ term lx e lx',
  arith term = true → plain_lexer lx = true →
  AddSubLoop PE n f term lx = Ok e lx' → arith e = true ∧ plain_lexer lx' = true.
Proof.
  induction f as [|f IH]; intros term lx e lx' Ha Hp H; [discriminate H|].
  cbn [AddSubLoop] in H.
  destruct (Token.Is (Current lx) Token.PLUS || Token.Is (Current lx) Token.MINUS);
    [|by injection H as <- <-].
  destruct (ParseMulDivModExpr PE n (Next lx)) as [rhs lx1| |] eqn:E;
    [|repeat case_match; discriminate H..].
  destruct (ParseMulDivModExpr_plain _ _ _ _ (plain_lexer_Next _ Hp) E) as [Hr Hp1].
  cbn [bind] in H.
  repeat case_match; apply IH in H; try done; cbn [arith]; by rewrite Ha, Hr.
Qed.

Lemma ParseAddSubExpr_plain n lx e lx' :
  plain_lexer lx = true →
  ParseAddSubExpr PE n lx = Ok e lx' → arith e = true ∧ plain_lexer lx' = true.
Proof.
  intros Hp. unfold ParseAddSubExpr.
  destruct (ParseMulDivModExpr PE n lx) as [term lx1| |] eqn:E;
    cbn [bind]; try discriminate.
  destruct (ParseMulDivModExpr_plain _ _ _ _ Hp E). by apply AddSubLoop_plain.
Qed.

Lemma CompLoop_plain n f : ∀ term lx e lx',
  arith term = true → plain_lexer lx = true →
  CompLoop PE n f term lx = Ok e lx' → arith e = true ∧ plain_lexer lx' = true.
Proof.
  induction f as [|f IH]; intros term lx e lx' Ha Hp H; [discriminate H|].
  cbn [CompLoop] in H.
  destruct (is_comparison (Current lx)); [|by injection H as <- <-].
  destruct (ParseAddSubExpr PE n (Next lx)) as [rhs lx1| |] eqn:E;
    cbn [bind] in H; try discriminate H.
  destruct (ParseAddSubExpr_plain _ _ _ _ (plain_lexer_Next _ Hp) E) as [Hr Hp1].
  apply IH in H; try done. cbn [arith]. by rewrite Ha, Hr.
Qed.

Lemma ParseCompExpr_plain n lx e lx' :
  plain_lexer lx = true →
  ParseCompExpr PE n lx = Ok e lx' → arith e = true ∧ plain_lexer lx' = true.
Proof.
  intros Hp. unfold ParseCompExpr.
  destruct (ParseAddSubExpr PE n lx) as [term lx1| |] eqn:E;
    cbn [bind]; try discriminate.
  destruct (ParseAddSubExpr_plain _ _ _ _ Hp E). by apply CompLoop_plain.
Qed.

End Expressions.

Lemma ParseStmt_plain fuel lx st lx' :
  plain_lexer lx = true →
  ParseStmt fuel lx = Ok st lx' →
  literal_item (TStmt st) = true ∧ plain_lexer lx' = true.
Proof.
  intros Hp. destruct fuel as [|f]; [discriminate|].
  cbn [ParseStmt]. unfold ParseStmtAt.
  pose proof (plain_lexer_Current _ Hp) as Hc. unfold plain in Hc.
  destruct (Token.GetKind (Current lx)); try discriminate Hc;
    (destruct (Parser.ParseExpr (S f) lx) as [e lx1| |] eqn:E;
      cbn [bind]; [|discriminate..]);
    intros [= <- <-]; cbn [literal_item];
    cbn [Parser.ParseExpr] in E;
    pose proof (ParseCompExpr_shaped _ (ParseExpr_shaped f) _ _ _ _ E) as Hs;
    destruct (ParseCompExpr_plain _ _ _ _ _ Hp E) as [Ha Hp1];
    by rewrite Ha, Hs.
Qed.

Lemma ModuleLoop_plain n f : ∀ body lx mod_ lx',
  forallb literal_item body = true → plain_lexer lx = true →
  ModuleLoop n f body lx = Parsed mod_ lx' → forallb literal_item mod_ = true.
Proof.
  induction f as [|f IH]; intros body lx mod_ lx' Hb Hp H; [discriminate H|].
  cbn [ModuleLoop] in H.
  destruct (Token.Is (Current lx) Token.END); [by injection H as <- _|].
  rewrite (plain_Is _ Token.FUNC) in H by (done || by apply plain_lexer_Current).
  destruct (ParseStmt n lx) as [st lx1| |] eqn:E; cbn [lift mbind] in H;
    [|discriminate H..].
  destruct (ParseStmt_plain _ _ _ _ Hp E) as [Hl Hp1].
  apply IH in H; [done| |done].
  rewrite forallb_app, Hb. cbn [forallb]. by rewrite Hl.
Qed.

Lemma ParseModule_plain tokens fuel mod_ lx' :
  forallb plain tokens = true →
  ParseModule fuel (lexer_of tokens) = Parsed mod_ lx' →
  forallb literal_item mod_ = true.
Proof.
  intros Hp. apply ModuleLoop_plain; [done|].
  unfold lexer_of, Next, plain_lexer. cbn [pending].
  destruct tokens as [|tk rest]; [done|]. done.
Qed.

End PlainTokens.

Module Pipeline.
Import Bytes BytesFacts Interp InterpFacts Codegen CodegenSpec CodegenFacts
       ParserSpec RunSpec RunFacts PipelineSpec.

Lemma stack_need_shaped e :
  arith e = true → shaped e = true → (stack_need e ≤ level e + 1)%nat.
Proof.
  induction e as [name|k lhs IHl rhs IHr|callee args|n]; intros Ha Hs;
    try discriminate Ha; [|cbn; lia].
  cbn [arith] in Ha. apply andb_prop in Ha as [Hal Har].
  cbn [shaped] in Hs. apply andb_prop in Hs as [Hs Hsr].
  apply andb_prop in Hs as [Hs Hsl]. apply andb_prop in Hs as [Hll Hlr].
  apply Nat.leb_le in Hll. apply Nat.ltb_lt in Hlr.
  specialize (IHl Hal Hsl). specialize (IHr Har Hsr).
  cbn [stack_need level]. lia.
Qed.

(** On expressions over literals and binary operators no assertion of the
    generator fires as long as the depth counter does not wrap. *)
Lemma LowerExpr_arith_Ok scope e : arith e = true → ∀ s,
  0 <= depth_ s → depth_ s + Z.of_nat (stack_need e) < 2 ^ 32 →
  ∃ s', LowerExpr scope e s = Ok s' ∧ depth_ s' = depth_ s + 1.
Proof.
  induction e as [name|k lhs IHl rhs IHr|callee args|n]; intros Ha s H0 Hn;
    try discriminate Ha.
  - cbn [arith] in Ha. apply andb_prop in Ha as [Hal Har].
    cbn [stack_need] in Hn. cbn [LowerExpr]. unfold LowerBinaryExpr.
    destruct (IHl Hal s H0 ltac:(lia)) as (s1 & -> & D1). cbn [bind].
    destruct (IHr Har s1 ltac:(lia) ltac:(lia)) as (s2 & -> & D2). cbn [bind].
    rewrite EmitKind_kind_opcode. unfold EmitBinary, consume_one, assert_.
    destruct (Z.ltb_spec 0 (depth_ s2)); [|lia]. cbn [bind].
    eexists. split; [reflexivity|]. cbn. rewrite u32_small; lia.
  - cbn [stack_need] in Hn. eexists. split; [reflexivity|].
    cbn. rewrite u32_small; lia.
Qed.

Lemma LowerTopLevel_literal_Ok mod_ global : ∀ s,
  forallb literal_item mod_ = true → depth_ s = 0 →
  ∃ s', LowerTopLevel mod_ global s = Ok (global, s') ∧ depth_ s' = 0.
Proof.
  induction mod_ as [|item rest IH]; intros s Hl Hd; [by exists s|].
  cbn [forallb] in Hl. apply andb_prop in Hl as [Hi Hrest].
  destruct item as [| |[| | |e| |]]; try discriminate Hi.
  cbn [literal_item] in Hi. apply andb_prop in Hi as [Ha Hs].
  pose proof (stack_need_shaped e Ha Hs) as Hn. pose proof (ParserMore.level_le_3 e).
  destruct (LowerExpr_arith_Ok global e Ha s ltac:(lia) ltac:(lia))
    as (s1 & E1 & D1).
  cbn [LowerTopLevel LowerStmt]. unfold LowerExprStmt, EmitPop.
  rewrite E1. cbn [bind]. unfold consume_one, assert_.
  destruct (Z.ltb_spec 0 (depth_ s1)); [|lia]. cbn [bind].
  apply IH; [done|]. cbn. rewrite u32_small; lia.
Qed.

Lemma literal_module_items mod_ :
  forallb literal_item mod_ = true →
  forallb arith_top mod_ = true
  ∧ (∀ k protos s, Prepass k mod_ protos s = Ok (protos, s))
  ∧ (∀ global s, LowerFunctions mod_ global s = Ok s).
Proof.
  induction mod_ as [|item rest IH]; [done|].
  cbn [forallb]. intros [Hi Hrest]%andb_prop.
  destruct (IH Hrest) as (Ha & Hp & Hf).
  destruct item as [| |[| | |e| |]]; try discriminate Hi.
  cbn [literal_item] in Hi. apply andb_prop in Hi as [Hae _].
  cbn [arith_top Prepass LowerFunctions]. by rewrite Hae.
Qed.

(** A source made of integer literals and binary operators only goes
    through the whole pipeline: what [ParseModule] returns for it is
    translated without a failed assertion, and the program runs from offset
    0 on an empty stack to [STOP], returning with the stack empty, unless an
    expression faults: then the run ends with the first fault. *)
Theorem literal_source_runs kRuntimeFns tokens fuel mod_ lx' :
  forallb plain tokens = true →
  ParserStmt.ParseModule fuel (Parser.lexer_of tokens) = ParserStmt.Parsed mod_ lx' →
  ∃ prog final n,
    Translate kRuntimeFns mod_ new_Codegen = Ok (prog, final)
    ∧ match module_stop mod_ with
      | None => ∃ pc, Run n (Interp.mkState prog 0 [])
                      = Some (Return_ (Interp.mkState prog pc []))
      | Some o => Run n (Interp.mkState prog 0 []) = Some o
      end.
Proof.
  intros Hp Hparse.
  pose proof (PlainTokens.ParseModule_plain _ _ _ _ Hp Hparse) as Hl.
  destruct (literal_module_items _ Hl) as (Ha & Hpre & Hfun).
  assert (Ht : ∃ prog final,
            Translate kRuntimeFns mod_ new_Codegen = Ok (prog, final)).
  { unfold Translate. cbn [assert_ bind new_Codegen code_].
    rewrite bool_decide_true by done. cbn [bind].
    rewrite Hpre. cbn [bind].
    destruct (LowerTopLevel_literal_Ok mod_
                (GlobalScope (funcs_ new_Codegen) ∅) new_Codegen Hl eq_refl)
      as (s1 & -> & _).
    cbn [bind]. rewrite Hfun. cbn [bind]. eauto. }
  destruct Ht as (prog & final & Ht).
  destruct (Translate_runs_aux kRuntimeFns mod_ new_Codegen prog final
              Ha eq_refl Ht) as [n Hrun].
  by exists prog, final, n.
Qed.

Lemma literal_source_runs_witness :
  ∃ prog final n,
    Translate ∅ [TStmt (ExprStmt (BinaryExpr Kind.ADD (IntExpr 1) (IntExpr 2)))]
      new_Codegen = Ok (prog, final)
    ∧ ∃ pc, Run n (Interp.mkState prog 0 [])
            = Some (Return_ (Interp.mkState prog pc [])).
Proof.
  exact (literal_source_runs ∅
           [Token.Integer 1; Token.Symbol Token.PLUS; Token.Integer 2] 4
           _ (Parser.mkLexer Token.End_ []) eq_refl eq_refl).
Defined.

End Pipeline.

(** ** The layout of a translated module *)

Module TranslateFacts.
Import Bytes BytesFacts Codegen CodegenSpec CodegenFacts CodegenMoreSpec
       CodegenMore RunSpec LayoutSpec.

(** *** Lowering keeps the generator clean *)

Lemma clean_resolved s N :
  nextLabel_ s <= N → clean s → resolved (λ l, l <= N) s.
Proof.
  intros HN Hc l Hl. right. destruct (Z_le_gt_dec l N) as [|Hgt]; [done|].
  destruct (Hc l ltac:(lia)) as [_ Hs]. by rewrite Hs in Hl.
Qed.

Lemma clean_same s s' :
  same_labels s s' →
  (resolved (λ l, l <= nextLabel_ s) s → resolved (λ l, l <= nextLabel_ s) s') →
  clean s → clean s'.
Proof.
  intros [Hl Hn] HR Hc l Hgt. rewrite Hn in Hgt.
  destruct (Hc l Hgt) as [Hu Hs]. split; [by rewrite Hl|].
  destruct (sites s' l) as [|loc locs] eqn:E; [done|]. exfalso.
  destruct (HR (clean_resolved s _ (Z.le_refl _) Hc) l) as [[a Ha]|Hle].
  - by rewrite E.
  - rewrite Hl in Ha. congruence.
  - lia.
Qed.

Lemma clean_lowers s s' :
  same_labels s s' → lowers (λ l, l <= nextLabel_ s) s s' → clean s → clean s'.
Proof. intros Hs (_ & _ & HR & _). by apply clean_same. Qed.

Lemma clean_set_nextLabel n s :
  nextLabel_ s <= n → clean s → clean (set_nextLabel n s).
Proof. intros Hn Hc l Hl. cbn in Hl. apply (Hc l). lia. Qed.

Lemma clean_EmitLabel l s : l <= nextLabel_ s → clean s → clean (EmitLabel l s).
Proof.
  intros Hl Hc l' Hgt. rewrite ControlFacts.nextLabel_EmitLabel in Hgt.
  destruct (Hc l' Hgt) as [Hu Hs]. split.
  - by rewrite labelToAddress_EmitLabel, emplace_lookup_ne by lia.
  - by rewrite sites_EmitLabel.
Qed.

Lemma clean_set_func f s : clean s → clean (set_func f s).
Proof. done. Qed.

Lemma clean_LowerExpr scope e s s' :
  scope_entries scope (λ l, l <= nextLabel_ s) → clean s →
  LowerExpr scope e s = Ok s' → clean s'.
Proof.
  intros HY Hc H. apply (clean_lowers s s'); [|by apply (LowerExpr_lowers _ _ _ HY _ _ H)|done].
  by apply (LowerExpr_same_labels scope e).
Qed.

(** *** Lowering a statement only appends *)

Lemma appends_foldl_patch a locs : ∀ pre c,
  (∀ loc, loc ∈ locs → (length pre ≤ loc)%nat) →
  ∃ c', foldl (patch a) (pre ++ c) locs = pre ++ c'.
Proof.
  induction locs as [|loc locs IH]; intros pre c Hloc; [by exists c|].
  cbn [foldl]. unfold patch at 2.
  assert (Hl : (length pre ≤ loc)%nat) by (apply Hloc; by left).
  replace loc with (length pre + (loc - length pre))%nat by lia.
  rewrite list_inserts_app_r. apply IH. intros loc' Hin. apply Hloc. by right.
Qed.

Lemma appends_EmitLabel l s pre :
  (∃ c, code_ s = pre ++ c) →
  (∀ loc, loc ∈ sites s l → (length pre ≤ loc)%nat) →
  ∃ c, code_ (EmitLabel l s) = pre ++ c.
Proof.
  intros [c Hc] Hloc. rewrite code_EmitLabel, Hc. by apply appends_foldl_patch.
Qed.

Lemma appends_consume_one s s1 bs :
  consume_one s = Ok s1 → code_ (Emit bs s1) = code_ s ++ bs.
Proof. by intros [-> _]%consume_one_Ok. Qed.

Lemma appends_EmitJumpFalse l s s' :
  EmitJumpFalse l s = Ok s' → ∃ c, code_ s' = code_ s ++ c.
Proof.
  unfold EmitJumpFalse. intros H. inv_bind H. injection H as <-.
  apply consume_one_Ok in E as [-> _].
  eapply appends_trans; [|apply appends_EmitFixup]. by eexists.
Qed.

Lemma appends_EmitJump l s : ∃ c, code_ (EmitJump l s) = code_ s ++ c.
Proof.
  unfold EmitJump. eapply appends_trans; [|apply appends_EmitFixup]. by eexists.
Qed.

Lemma appends_EmitReturn s s' : EmitReturn s = Ok s' → ∃ c, code_ s' = code_ s ++ c.
Proof.
  unfold EmitReturn. intros H. inv_bind H. injection H as <-.
  apply consume_one_Ok in E as [-> _]. cbn. rewrite <- !app_assoc. by eexists.
Qed.

Lemma appends_EmitPops n : ∀ s s', EmitPops n s = Ok s' → ∃ c, code_ s' = code_ s ++ c.
Proof.
  induction n as [|n IH]; intros s s' H.
  - injection H as <-. apply appends_refl.
  - cbn [EmitPops] in H. inv_bind H.
    eapply appends_trans; [by apply (appends_EmitBinary POP s)|by apply IH].
Qed.

Lemma entries_later scope N N' :
  N <= N' → scope_entries scope (λ l, l <= N) → scope_entries scope (λ l, l <= N').
Proof. intros HN. apply scope_entries_weaken. intros l. cbn. lia. Qed.

Lemma Stmt_appends_ExprStmt e : Stmt_appends (ExprStmt e).
Proof.
  intros scope s scope' s' Hc HY H. cbn [LowerStmt] in H.
  unfold LowerExprStmt in H.
  destruct (LowerExpr scope e s) as [s0|] eqn:E; cbn [bind] in H; [|discriminate H].
  destruct (EmitPop s0) as [s1|] eqn:E0; cbn [bind] in H; [|discriminate H].
  injection H as <- <-.
  pose proof (clean_LowerExpr _ _ _ _ HY Hc E) as Hc1. split.
  - apply (clean_lowers s0 s1); [by apply (same_labels_EmitBinary POP)| |done].
    by apply (lowers_EmitPop _ _ _ E0).
  - eapply appends_trans; [by eapply LowerExpr_appends_code|].
    by apply (appends_EmitBinary POP).
Qed.

Lemma Stmt_appends_ReturnStmt e : Stmt_appends (ReturnStmt e).
Proof.
  intros scope s scope' s' Hc HY H. cbn [LowerStmt] in H.
  unfold LowerReturnStmt in H.
  destruct (LowerExpr scope e s) as [s0|] eqn:E; cbn [bind] in H; [|discriminate H].
  destruct (EmitReturn s0) as [s1|] eqn:E0; cbn [bind] in H; [|discriminate H].
  injection H as <- <-.
  pose proof (clean_LowerExpr _ _ _ _ HY Hc E) as Hc1. split.
  - apply (clean_lowers s0 s1); [by apply same_labels_EmitReturn| |done].
    by apply (lowers_EmitReturn _ _ _ E0).
  - eapply appends_trans; [by eapply LowerExpr_appends_code|].
    by apply appends_EmitReturn.
Qed.

Lemma Stmt_appends_LetStmt name type init : Stmt_appends (LetStmt name type init).
Proof.
  intros scope s scope' s' Hc HY H. cbn [LowerStmt] in H.
  unfold LowerLetStmt in H. destruct init as [e|].
  - destruct (LowerExpr scope e s) as [s0|] eqn:E; cbn [bind] in H; [|discriminate H].
    injection H as <- <-.
    split; [by eapply clean_LowerExpr|by eapply LowerExpr_appends_code].
  - cbn [bind] in H. injection H as <- <-. split; [done|apply appends_refl].
Qed.

Lemma LowerStmts_appends body : Forall Stmt_appends body →
  ∀ scope s scope' s',
    clean s → scope_entries scope (λ l, l <= nextLabel_ s) →
    LowerStmts LowerStmt body scope s = Ok (scope', s') →
    clean s' ∧ ∃ c, code_ s' = code_ s ++ c.
Proof.
  induction 1 as [|stmt rest Hst _ IH]; intros scope s scope' s' Hc HY H.
  - injection H as <- <-. split; [done|apply appends_refl].
  - cbn [LowerStmts] in H.
    destruct (LowerStmt scope stmt s) as [[scope1 s1]|] eqn:E1;
      cbn [bind] in H; [|discriminate H].
    destruct (Hst _ _ _ _ Hc HY E1) as [Hc1 A1].
    destruct (LowerStmt_lowers stmt _ _ _ _ _ HY E1) as [_ HY1].
    destruct (LowerStmt_binds_above (nextLabel_ s) stmt _ _ _ _ (Z.le_refl _) E1)
      as [N1 _].
    destruct (IH _ _ _ _ Hc1 (entries_later _ _ _ N1 HY1) H) as [Hc' A'].
    split; [done|]. by eapply appends_trans.
Qed.

Lemma Stmt_appends_BlockStmt body :
  Forall Stmt_appends body → Stmt_appends (BlockStmt body).
Proof.
  intros Hbody scope s scope' s' Hc HY H. cbn [LowerStmt] in H.
  unfold LowerBlockStmtWith in H.
  destruct (LowerStmts LowerStmt body (BlockScope scope ∅) s)
    as [[blockScope s1]|] eqn:E1; cbn [bind] in H; [|discriminate H].
  destruct (EmitPops (NumberOfLocals blockScope) s1) as [s2|] eqn:E2;
    cbn [bind] in H; [|discriminate H].
  unfold assert_ in H. destruct (depth_ s2 =? depth_ s); [|discriminate H].
  cbn [bind] in H. injection H as <- <-.
  destruct (LowerStmts_appends body Hbody _ _ _ _ Hc
              (scope_entries_BlockScope _ _ HY) E1) as [Hc1 A1].
  split.
  - apply (clean_lowers s1 s2); [by eapply same_labels_EmitPops| |done].
    by apply (EmitPops_lowers _ _ _ _ E2).
  - eapply appends_trans; [exact A1|by eapply appends_EmitPops].
Qed.

Lemma Stmt_appends_WhileStmt cond body :
  Stmt_appends body → Stmt_appends (WhileStmt cond body).
Proof.
  intros IH scope s scope' s' Hc HY H.
  destruct (LowerStmt_lowers (WhileStmt cond body) (λ _, True) scope s scope' s'
              (λ _ _ _, I) H) as [(_ & G & _) _].
  cbn [LowerStmt] in H. unfold LowerWhileStmt in H. cbn [MakeLabel] in H.
  set (L := nextLabel_ s) in *.
  change (nextLabel_ (set_nextLabel (L + 1) s) + 1) with (L + 1 + 1) in H.
  set (s2 := set_nextLabel (L + 1 + 1) (set_nextLabel (L + 1) s)) in H.
  set (s3 := EmitLabel (L + 1) s2) in H.
  destruct (LowerExpr scope cond s3) as [s4|] eqn:E1;
    cbn [bind] in H; [|discriminate H].
  destruct (EmitJumpFalse (L + 1 + 1) s4) as [s5|] eqn:E2;
    cbn [bind] in H; [|discriminate H].
  destruct (LowerStmt scope body s5) as [[scope1 s6]|] eqn:E3;
    cbn [bind] in H; [|discriminate H].
  injection H as <- <-.
  set (s7 := EmitJump (L + 1) s6) in *.
  assert (C2 : clean s2).
  { apply clean_set_nextLabel; [cbn; lia|]. apply clean_set_nextLabel; [lia|done]. }
  assert (N3 : nextLabel_ s3 = L + 2)
    by (unfold s3; rewrite ControlFacts.nextLabel_EmitLabel; cbn; lia).
  assert (C3 : clean s3) by (apply clean_EmitLabel; [cbn; lia|done]).
  assert (A3 : code_ s3 = code_ s).
  { unfold s3. rewrite code_EmitLabel.
    replace (sites s2 (L + 1)) with (sites s (L + 1)) by done.
    by rewrite (proj2 (Hc (L + 1) ltac:(lia))). }
  assert (HY3 : scope_entries scope (λ l, l <= nextLabel_ s3))
    by (apply (entries_later _ L); [lia|done]).
  pose proof (clean_LowerExpr _ _ _ _ HY3 C3 E1) as C4.
  destruct (LowerExpr_same_labels _ _ _ _ E1) as [_ N4].
  assert (C5 : clean s5).
  { assert (HL : L + 1 + 1 <= nextLabel_ s4) by lia.
    apply (clean_lowers s4 s5); [by eapply same_labels_EmitJumpFalse| |done].
    apply (lowers_EmitJumpFalse (λ l, l <= nextLabel_ s4) (L + 1 + 1) s4 s5
             (or_intror HL) E2). }
  destruct (same_labels_EmitJumpFalse _ _ _ E2) as [_ N5].
  assert (HY5 : scope_entries scope (λ l, l <= nextLabel_ s5))
    by (apply (entries_later _ L); [lia|done]).
  destruct (IH _ _ _ _ C5 HY5 E3) as [C6 A6].
  destruct (LowerStmt_binds_above (nextLabel_ s5) body _ _ _ _ (Z.le_refl _) E3)
    as [N6 _].
  assert (C7 : clean s7).
  { assert (HL : L + 1 <= nextLabel_ s6) by lia.
    apply (clean_lowers s6 s7); [apply same_labels_EmitJump| |done].
    apply (lowers_EmitJump (λ l, l <= nextLabel_ s6) (L + 1) s6 (or_intror HL)). }
  assert (N7 : nextLabel_ s7 = nextLabel_ s6) by apply (same_labels_EmitJump (L + 1) s6).
  split; [apply clean_EmitLabel; [lia|done]|].
  apply appends_EmitLabel.
  - eapply appends_trans; [|apply appends_EmitJump].
    eapply appends_trans; [|exact A6].
    eapply appends_trans; [|by eapply appends_EmitJumpFalse].
    rewrite <- A3. by eapply LowerExpr_appends_code.
  - intros loc Hloc. rewrite <- (sites_EmitLabel (L + 1 + 1)) in Hloc.
    destruct (grows_sites _ _ G _ _ Hloc) as [Hold|Hnew]; [|done].
    rewrite (proj2 (Hc (L + 1 + 1) ltac:(lia))) in Hold. by apply elem_of_nil in Hold.
Qed.

Lemma Stmt_appends_IfStmt cond stmt elseStmt :
  Stmt_appends stmt →
  match elseStmt with Some e => Stmt_appends e | None => True end →
  Stmt_appends (IfStmt cond stmt elseStmt).
Proof.
  intros IHt IHe scope s scope' s' Hc HY H.
  destruct (LowerStmt_lowers (IfStmt cond stmt elseStmt) (λ _, True) scope s
              scope' s' (λ _ _ _, I) H) as [(_ & G & _) _].
  cbn [LowerStmt] in H. unfold LowerIfStmt in H. cbn [MakeLabel] in H.
  set (L := nextLabel_ s) in *.
  change (nextLabel_ (set_nextLabel (L + 1) s) + 1) with (L + 1 + 1) in H.
  change (nextLabel_ (set_nextLabel (L + 1 + 1) (set_nextLabel (L + 1) s)) + 1)
    with (L + 1 + 1 + 1) in H.
  set (s3 := set_nextLabel (L + 1 + 1 + 1)
               (set_nextLabel (L + 1 + 1) (set_nextLabel (L + 1) s))) in H.
  set (s4 := EmitLabel (L + 1) s3) in H.
  destruct (LowerExpr scope cond s4) as [s5|] eqn:E5;
    cbn [bind] in H; [|discriminate H].
  destruct (EmitJumpFalse (L + 1 + 1) s5) as [s6|] eqn:E6;
    cbn [bind] in H; [|discriminate H].
  destruct (LowerStmt scope stmt s6) as [[scope1 s7]|] eqn:E7;
    cbn [bind] in H; [|discriminate H].
  set (s8 := EmitJump (L + 1 + 1 + 1) s7) in H.
  set (s9 := EmitLabel (L + 1 + 1) s8) in H.
  assert (C3 : clean s3).
  { repeat (apply clean_set_nextLabel; [cbn; lia|]). done. }
  assert (N4 : nextLabel_ s4 = L + 3)
    by (unfold s4; rewrite ControlFacts.nextLabel_EmitLabel; cbn; lia).
  assert (C4 : clean s4) by (apply clean_EmitLabel; [cbn; lia|done]).
  assert (A4 : code_ s4 = code_ s).
  { unfold s4. rewrite code_EmitLabel.
    replace (sites s3 (L + 1)) with (sites s (L + 1)) by done.
    by rewrite (proj2 (Hc (L + 1) ltac:(lia))). }
  assert (HY4 : scope_entries scope (λ l, l <= nextLabel_ s4))
    by (apply (entries_later _ L); [lia|done]).
  pose proof (clean_LowerExpr _ _ _ _ HY4 C4 E5) as C5.
  destruct (LowerExpr_same_labels _ _ _ _ E5) as [_ N5].
  assert (C6 : clean s6).
  { assert (HL : L + 1 + 1 <= nextLabel_ s5) by lia.
    apply (clean_lowers s5 s6); [by eapply same_labels_EmitJumpFalse| |done].
    apply (lowers_EmitJumpFalse (λ l, l <= nextLabel_ s5) (L + 1 + 1) s5 s6
             (or_intror HL) E6). }
  destruct (same_labels_EmitJumpFalse _ _ _ E6) as [_ N6].
  assert (HY6 : scope_entries scope (λ l, l <= nextLabel_ s6))
    by (apply (entries_later _ L); [lia|done]).
  destruct (IHt _ _ _ _ C6 HY6 E7) as [C7 A7].
  destruct (LowerStmt_binds_above (nextLabel_ s6) stmt _ _ _ _ (Z.le_refl _) E7)
    as [N7 _].
  destruct (LowerStmt_lowers stmt _ _ _ _ _ HY6 E7) as [_ HY7].
  assert (C8 : clean s8).
  { assert (HL : L + 1 + 1 + 1 <= nextLabel_ s7) by lia.
    apply (clean_lowers s7 s8); [apply same_labels_EmitJump| |done].
    apply (lowers_EmitJump (λ l, l <= nextLabel_ s7) (L + 1 + 1 + 1) s7
             (or_intror HL)). }
  assert (N8 : nextLabel_ s8 = nextLabel_ s7)
    by apply (same_labels_EmitJump (L + 1 + 1 + 1) s7).
  assert (A8 : ∃ c, code_ s8 = code_ s ++ c).
  { eapply appends_trans; [|apply appends_EmitJump].
    eapply appends_trans; [|exact A7].
    eapply appends_trans; [|by eapply appends_EmitJumpFalse].
    rewrite <- A4. by eapply LowerExpr_appends_code. }
  (* the sites of the second label lie in the code of this statement *)
  assert (G8 : grows s s8).
  { apply (lowers_grows (λ _, True)).
    eapply lowers_trans; [apply (lowers_set_nextLabel _ (L + 1))|].
    eapply lowers_trans; [apply (lowers_set_nextLabel _ (L + 1 + 1))|].
    eapply lowers_trans; [apply (lowers_set_nextLabel _ (L + 1 + 1 + 1))|].
    eapply lowers_trans; [apply (lowers_EmitLabel _ (L + 1))|].
    eapply lowers_trans;
      [apply (LowerExpr_lowers (λ _, True) _ _ (λ _ _ _, I) _ _ E5)|].
    eapply lowers_trans;
      [apply (lowers_EmitJumpFalse (λ _, True) _ _ _ (or_intror I) E6)|].
    eapply lowers_trans;
      [apply (LowerStmt_lowers stmt (λ _, True) _ _ _ _ (λ _ _ _, I) E7)|].
    apply (lowers_EmitJump (λ _, True) _ _ (or_intror I)). }
  assert (C9 : clean s9) by (apply clean_EmitLabel; [lia|done]).
  assert (N9 : nextLabel_ s9 = nextLabel_ s7)
    by (unfold s9; by rewrite ControlFacts.nextLabel_EmitLabel).
  assert (A9 : ∃ c, code_ s9 = code_ s ++ c).
  { apply appends_EmitLabel; [done|]. intros loc Hloc.
    destruct (grows_sites _ _ G8 _ _ Hloc) as [Hold|Hnew]; [|done].
    rewrite (proj2 (Hc (L + 1 + 1) ltac:(lia))) in Hold.
    by apply elem_of_nil in Hold. }
  assert (Helse : ∃ s10, s' = EmitLabel (L + 1 + 1 + 1) s10
            ∧ clean s10 ∧ nextLabel_ s9 <= nextLabel_ s10
            ∧ ∃ c, code_ s10 = code_ s ++ c).
  { destruct elseStmt as [e|].
    - destruct (LowerStmt scope1 e s9) as [[scope2 s10]|] eqn:E10;
        cbn [bind] in H; [|discriminate H].
      injection H as <- <-. exists s10. split; [done|].
      assert (HY9 : scope_entries scope1 (λ l, l <= nextLabel_ s9))
        by (apply (entries_later _ (nextLabel_ s6)); [lia|done]).
      destruct (IHe _ _ _ _ C9 HY9 E10) as [C10 A10].
      destruct (LowerStmt_binds_above (nextLabel_ s9) e _ _ _ _ (Z.le_refl _) E10)
        as [N10 _].
      split; [done|]. split; [done|]. by eapply appends_trans.
    - cbn [bind] in H. injection H as <- <-. exists s9.
      split; [done|]. split; [done|]. split; [lia|done]. }
  destruct Helse as (s10 & -> & C10 & N10 & A10).
  split; [apply clean_EmitLabel; [lia|done]|].
  apply appends_EmitLabel; [done|].
  intros loc Hloc. rewrite <- (sites_EmitLabel (L + 1 + 1 + 1)) in Hloc.
  destruct (grows_sites _ _ G _ _ Hloc) as [Hold|Hnew]; [|done].
  rewrite (proj2 (Hc (L + 1 + 1 + 1) ltac:(lia))) in Hold.
  by apply elem_of_nil in Hold.
Qed.

Lemma LowerStmt_appends stmt : Stmt_appends stmt.
Proof.
  induction stmt as [body IH|cond stmt IH|cond stmt elseStmt IHt IHe|e|e|name type init]
    using Stmt_nested_ind.
  - by apply Stmt_appends_BlockStmt.
  - by apply Stmt_appends_WhileStmt.
  - by apply Stmt_appends_IfStmt.
  - apply Stmt_appends_ExprStmt.
  - apply Stmt_appends_ReturnStmt.
  - apply Stmt_appends_LetStmt.
Qed.

(** *** No fixup site is forgotten *)

Lemma keeps_sites_refl s : keeps_sites s s.
Proof. by intros l loc. Qed.

Lemma keeps_sites_trans s1 s2 s3 :
  keeps_sites s1 s2 → keeps_sites s2 s3 → keeps_sites s1 s3.
Proof. intros H1 H2 l loc Hloc. by apply H2, H1. Qed.

Lemma keeps_sites_same s s' : fixups_ s' = fixups_ s → keeps_sites s s'.
Proof. intros Hf l loc. unfold sites. by rewrite Hf. Qed.

Lemma keeps_sites_EmitFixup l s : keeps_sites s (EmitFixup l s).
Proof.
  intros l' loc Hloc. destruct (labelToAddress_ s !! l) as [a|] eqn:E.
  - by rewrite (EmitFixup_bound _ _ _ E).
  - rewrite (sites_EmitFixup_unbound _ _ _ E). case_decide as Hl; [|done].
    subst l'. apply elem_of_app. by left.
Qed.

Lemma keeps_sites_EmitLabel l s : keeps_sites s (EmitLabel l s).
Proof. intros l' loc. by rewrite sites_EmitLabel. Qed.

Lemma keeps_sites_EmitBinary op s s' : EmitBinary op s = Ok s' → keeps_sites s s'.
Proof.
  unfold EmitBinary. intros H. inv_bind H. injection H as <-.
  apply consume_one_Ok in E as [-> _]. by apply keeps_sites_same.
Qed.

Lemma keeps_sites_EmitReturn s s' : EmitReturn s = Ok s' → keeps_sites s s'.
Proof.
  unfold EmitReturn. intros H. inv_bind H. injection H as <-.
  apply consume_one_Ok in E as [-> _]. by apply keeps_sites_same.
Qed.

Lemma keeps_sites_EmitJumpFalse l s s' :
  EmitJumpFalse l s = Ok s' → keeps_sites s s'.
Proof.
  unfold EmitJumpFalse. intros H. inv_bind H. injection H as <-.
  apply consume_one_Ok in E as [-> _].
  eapply keeps_sites_trans; [|apply keeps_sites_EmitFixup].
  by apply keeps_sites_same.
Qed.

Lemma keeps_sites_EmitJump l s : keeps_sites s (EmitJump l s).
Proof.
  unfold EmitJump. eapply keeps_sites_trans; [|apply keeps_sites_EmitFixup].
  by apply keeps_sites_same.
Qed.

Lemma keeps_sites_EmitPops n : ∀ s s', EmitPops n s = Ok s' → keeps_sites s s'.
Proof.
  induction n as [|n IH]; intros s s' H.
  - injection H as <-. apply keeps_sites_refl.
  - cbn [EmitPops] in H. inv_bind H.
    eapply keeps_sites_trans; [by apply (keeps_sites_EmitBinary POP s)|by apply IH].
Qed.

Lemma LowerArgsReversed_keeps_sites scope args :
  Forall (λ e, ∀ s s', LowerExpr scope e s = Ok s' → keeps_sites s s') args →
  ∀ s s', LowerArgsReversed (LowerExpr scope) args s = Ok s' → keeps_sites s s'.
Proof.
  induction 1 as [|a rest Ha _ IH]; intros s s' H.
  - injection H as <-. apply keeps_sites_refl.
  - cbn [LowerArgsReversed] in H. inv_bind H.
    eapply keeps_sites_trans; [by apply IH|by apply Ha].
Qed.

Lemma LowerExpr_keeps_sites scope e :
  ∀ s s', LowerExpr scope e s = Ok s' → keeps_sites s s'.
Proof.
  induction e as [name|kind lhs rhs IHl IHr|callee args IHc IHa|n]
    using Expr_nested_ind; intros s s' H.
  - cbn [LowerExpr] in H. unfold LowerRefExpr in H.
    destruct (Lookup scope name) as [[entry|fn|index|index]|];
      [|injection H as <-; by apply keeps_sites_same..|discriminate H].
    injection H as <-. unfold EmitPushFunc.
    eapply keeps_sites_trans; [|apply keeps_sites_EmitFixup].
    by apply keeps_sites_same.
  - cbn [LowerExpr] in H. unfold LowerBinaryExpr in H. inv_bind H.
    eapply keeps_sites_trans; [by apply IHl|].
    eapply keeps_sites_trans; [by apply IHr|].
    destruct kind; by eapply keeps_sites_EmitBinary.
  - cbn [LowerExpr] in H. unfold LowerCallExpr in H. inv_bind H.
    injection H as <-.
    eapply keeps_sites_trans;
      [by apply (LowerArgsReversed_keeps_sites scope args IHa _ _ E)|].
    eapply keeps_sites_trans; [by apply IHc|]. by apply keeps_sites_same.
  - injection H as <-. by apply keeps_sites_same.
Qed.

Lemma LowerStmts_keeps_sites body :
  Forall (λ stmt, ∀ scope s scope' s',
            LowerStmt scope stmt s = Ok (scope', s') → keeps_sites s s') body →
  ∀ scope s scope' s',
    LowerStmts LowerStmt body scope s = Ok (scope', s') → keeps_sites s s'.
Proof.
  induction 1 as [|stmt rest Hst _ IH]; intros scope s scope' s' H.
  - injection H as <- <-. apply keeps_sites_refl.
  - cbn [LowerStmts] in H.
    destruct (LowerStmt scope stmt s) as [[scope1 s1]|] eqn:E1;
      cbn [bind] in H; [|discriminate H].
    eapply keeps_sites_trans; [by eapply Hst|by eapply IH].
Qed.

Lemma LowerStmt_keeps_sites stmt :
  ∀ scope s scope' s',
    LowerStmt scope stmt s = Ok (scope', s') → keeps_sites s s'.
Proof.
  induction stmt as [body IH|cond stmt IH|cond stmt elseStmt IHt IHe|e|e|name type init]
    using Stmt_nested_ind; intros scope s scope' s' H.
  - cbn [LowerStmt] in H. unfold LowerBlockStmtWith in H.
    destruct (LowerStmts LowerStmt body (BlockScope scope ∅) s)
      as [[blockScope s1]|] eqn:E1; cbn [bind] in H; [|discriminate H].
    destruct (EmitPops (NumberOfLocals blockScope) s1) as [s2|] eqn:E2;
      cbn [bind] in H; [|discriminate H].
    unfold assert_ in H. destruct (depth_ s2 =? depth_ s); [|discriminate H].
    cbn [bind] in H. injection H as <- <-.
    eapply keeps_sites_trans;
      [by eapply LowerStmts_keeps_sites|by eapply keeps_sites_EmitPops].
  - cbn [LowerStmt] in H. unfold LowerWhileStmt in H. cbn [MakeLabel] in H.
    destruct (LowerExpr scope cond _) as [s4|] eqn:E1 in H;
      cbn [bind] in H; [|discriminate H].
    destruct (EmitJumpFalse _ s4) as [s5|] eqn:E2;
      cbn [bind] in H; [|discriminate H].
    destruct (LowerStmt scope stmt s5) as [[scope1 s6]|] eqn:E3;
      cbn [bind] in H; [|discriminate H].
    injection H as <- <-.
    eapply keeps_sites_trans; [|apply keeps_sites_EmitLabel].
    eapply keeps_sites_trans; [|apply keeps_sites_EmitJump].
    eapply keeps_sites_trans; [|by eapply IH].
    eapply keeps_sites_trans; [|by eapply keeps_sites_EmitJumpFalse].
    eapply keeps_sites_trans; [|by eapply LowerExpr_keeps_sites].
    eapply keeps_sites_trans; [|apply keeps_sites_EmitLabel].
    by apply keeps_sites_same.
  - cbn [LowerStmt] in H. unfold LowerIfStmt in H. cbn [MakeLabel] in H.
    destruct (LowerExpr scope cond _) as [s5|] eqn:E5 in H;
      cbn [bind] in H; [|discriminate H].
    destruct (EmitJumpFalse _ s5) as [s6|] eqn:E6;
      cbn [bind] in H; [|discriminate H].
    destruct (LowerStmt scope stmt s6) as [[scope1 s7]|] eqn:E7;
      cbn [bind] in H; [|discriminate H].
    assert (K9 : keeps_sites s
              (EmitLabel (nextLabel_ s + 1 + 1) (EmitJump (nextLabel_ s + 1 + 1 + 1) s7))).
    { eapply keeps_sites_trans; [|apply keeps_sites_EmitLabel].
      eapply keeps_sites_trans; [|apply keeps_sites_EmitJump].
      eapply keeps_sites_trans; [|by eapply IHt].
      eapply keeps_sites_trans; [|by eapply keeps_sites_EmitJumpFalse].
      eapply keeps_sites_trans; [|by eapply LowerExpr_keeps_sites].
      eapply keeps_sites_trans; [|apply keeps_sites_EmitLabel].
      by apply keeps_sites_same. }
    destruct elseStmt as [e|].
    + destruct (LowerStmt scope1 e _) as [[scope2 s10]|] eqn:E10 in H;
        cbn [bind] in H; [|discriminate H].
      injection H as <- <-.
      eapply keeps_sites_trans; [|apply keeps_sites_EmitLabel].
      eapply keeps_sites_trans; [exact K9|by eapply IHe].
    + cbn [bind] in H. injection H as <- <-.
      by eapply keeps_sites_trans; [|apply keeps_sites_EmitLabel].
  - cbn [LowerStmt] in H. unfold LowerExprStmt in H.
    destruct (LowerExpr scope e s) as [s0|] eqn:E; cbn [bind] in H; [|discriminate H].
    destruct (EmitPop s0) as [s1|] eqn:E0; cbn [bind] in H; [|discriminate H].
    injection H as <- <-.
    eapply keeps_sites_trans; [by eapply LowerExpr_keeps_sites|].
    by apply (keeps_sites_EmitBinary POP).
  - cbn [LowerStmt] in H. unfold LowerReturnStmt in H.
    destruct (LowerExpr scope e s) as [s0|] eqn:E; cbn [bind] in H; [|discriminate H].
    destruct (EmitReturn s0) as [s1|] eqn:E0; cbn [bind] in H; [|discriminate H].
    injection H as <- <-.
    eapply keeps_sites_trans; [by eapply LowerExpr_keeps_sites|].
    by apply keeps_sites_EmitReturn.
  - cbn [LowerStmt] in H. unfold LowerLetStmt in H. destruct init as [e|].
    + destruct (LowerExpr scope e s) as [s0|] eqn:E; cbn [bind] in H; [|discriminate H].
      injection H as <- <-. by eapply LowerExpr_keeps_sites.
    + cbn [bind] in H. injection H as <- <-. apply keeps_sites_refl.
Qed.

(** *** The two loops of [Translate], statement by statement *)

Lemma LowerTopLevel_in_order mod_ : ∀ global s global1 s1,
  clean s → scope_entries global (λ l, l <= nextLabel_ s) →
  LowerTopLevel mod_ global s = Ok (global1, s1) →
  clean s1 ∧ nextLabel_ s <= nextLabel_ s1
  ∧ scope_entries global1 (λ l, l <= nextLabel_ s1)
  ∧ ∃ cs, stmts_in_order (module_stmts mod_) global s cs global1 s1
          ∧ code_ s1 = code_ s ++ concat cs.
Proof.
  induction mod_ as [|[f|p|st] rest IH]; intros global s global1 s1 Hc HY H.
  - injection H as <- <-. split; [done|]. split; [lia|]. split; [done|].
    exists []. split; [done|]. cbn. by rewrite app_nil_r.
  - by apply (IH _ _ _ _ Hc HY H).
  - by apply (IH _ _ _ _ Hc HY H).
  - cbn [LowerTopLevel] in H.
    destruct (LowerStmt global st s) as [[global0 s0]|] eqn:E;
      cbn [bind] in H; [|discriminate H].
    destruct (LowerStmt_appends st _ _ _ _ Hc HY E) as [Hc0 [c A0]].
    destruct (LowerStmt_lowers st _ _ _ _ _ HY E) as [_ HY0].
    destruct (LowerStmt_binds_above (nextLabel_ s) st _ _ _ _ (Z.le_refl _) E)
      as [N0 _].
    destruct (IH _ _ _ _ Hc0 (entries_later _ _ _ N0 HY0) H)
      as (Hc1 & N1 & HY1 & cs & Hcs & A1).
    split; [done|]. split; [lia|]. split; [done|].
    exists (c :: cs). split.
    + change (module_stmts (TStmt st :: rest)) with (st :: module_stmts rest).
      cbn [stmts_in_order]. by exists global0, s0.
    + rewrite A1, A0. cbn [concat]. by rewrite app_assoc.
Qed.

Lemma LowerFuncDecl_in_order scope decl s s' :
  clean s → scope_entries scope (λ l, l <= nextLabel_ s) →
  (∀ n l, funcs_ s !! n = Some l → l <= nextLabel_ s) →
  LowerFuncDecl scope decl s = Ok s' →
  clean s' ∧ nextLabel_ s <= nextLabel_ s' ∧ funcs_ s' = funcs_ s
  ∧ keeps_sites s s'
  ∧ ∃ label f,
      funcs_ s !! fd_name decl = Some label
      ∧ code_ s' = code_ (EmitLabel label s) ++ f
      ∧ labelToAddress_ s' !! label
        = Some (default (length (code_ s)) (labelToAddress_ s !! label)).
Proof.
  intros Hc HY Hle H. unfold LowerFuncDecl in H.
  destruct (funcs_ s !! fd_name decl) as [label|] eqn:El; [|discriminate H].
  destruct (assert_ _ _) in H; cbn [bind] in H; [|discriminate H].
  destruct (LowerBlockStmt _ _ _) as [s3|] eqn:E in H;
    cbn [bind] in H; [|discriminate H].
  destruct (assert_ _ _) in H; cbn [bind] in H; [|discriminate H].
  injection H as <-.
  set (s2 := set_func (Some decl) (EmitLabel label s)) in *.
  set (fscope := FuncScope scope (func_args decl)) in *.
  assert (E' : LowerStmt fscope (BlockStmt (fd_body decl)) s2 = Ok (fscope, s3)).
  { cbn [LowerStmt]. unfold LowerBlockStmt in E. by rewrite E. }
  assert (C2 : clean s2).
  { apply clean_set_func, clean_EmitLabel; [by eapply Hle|done]. }
  assert (N2 : nextLabel_ s2 = nextLabel_ s)
    by (unfold s2; cbn; apply ControlFacts.nextLabel_EmitLabel).
  assert (HY2 : scope_entries fscope (λ l, l <= nextLabel_ s2)).
  { apply scope_entries_FuncScope. by rewrite N2. }
  destruct (LowerStmt_appends _ _ _ _ _ C2 HY2 E') as [C3 [f A3]].
  destruct (LowerStmt_binds_above (nextLabel_ s2) _ _ _ _ _ (Z.le_refl _) E')
    as [N3 _].
  destruct (LowerStmt_lowers _ (λ _, True) _ _ _ _ (λ _ _ _, I) E')
    as [(_ & G & _) _].
  pose proof (LowerStmt_keeps_sites _ _ _ _ _ E') as K3.
  split; [done|]. split; [cbn; lia|].
  split.
  { cbn. rewrite (grows_funcs _ _ G). unfold s2. cbn.
    pose proof (lowers_EmitLabel (λ _, True) label s) as (_ & GL & _).
    apply (grows_funcs _ _ GL). }
  split.
  { intros l loc Hloc. apply K3. unfold s2.
    by apply (keeps_sites_EmitLabel label s). }
  exists label, f. split; [done|]. split; [exact A3|].
  cbn [labelToAddress_ set_func]. apply (grows_bound _ _ G). unfold s2.
  cbn [labelToAddress_ set_func].
  rewrite labelToAddress_EmitLabel. apply emplace_lookup_eq.
Qed.

Lemma LowerFunctions_in_order mod_ global : ∀ s s',
  clean s → scope_entries global (λ l, l <= nextLabel_ s) →
  (∀ n l, funcs_ s !! n = Some l → l <= nextLabel_ s) →
  LowerFunctions mod_ global s = Ok s' →
  ∃ fs, funcs_in_order (module_funcs mod_) global s fs s'.
Proof.
  induction mod_ as [|[f|p|st] rest IH]; intros s s' Hc HY Hle H.
  - injection H as <-. by exists [].
  - cbn [LowerFunctions] in H.
    destruct (LowerFuncDecl global f s) as [s1|] eqn:E;
      cbn [bind] in H; [|discriminate H].
    destruct (LowerFuncDecl_in_order _ _ _ _ Hc HY Hle E)
      as (C1 & N1 & F1 & _ & label & c & Hl & A1 & B1).
    destruct (IH s1 s' C1) as [fs Hfs]; [| |done|].
    + by apply (entries_later _ (nextLabel_ s)).
    + intros n l. rewrite F1. intros Hn. apply Hle in Hn. lia.
    + exists (c :: fs).
      change (module_funcs (TFunc f :: rest)) with (f :: module_funcs rest).
      cbn [funcs_in_order]. by exists label, s1.
  - by apply (IH _ _ Hc HY Hle H).
  - by apply (IH _ _ Hc HY Hle H).
Qed.

(** What the chain of functions leaves in the stream: the bodies one after
    the other, behind the stream it started from; only the operands of
    references to functions are written afterwards. *)
Lemma funcs_in_order_code decls : ∀ scope s fs s',
  funcs_in_order decls scope s fs s' →
  funcs_ s' = funcs_ s ∧ keeps_sites s s'
  ∧ (∀ l a, labelToAddress_ s !! l = Some a → labelToAddress_ s' !! l = Some a)
  ∧ length (code_ s') = (length (code_ s) + length (concat fs))%nat
  ∧ ∀ i, ¬ in_call_site s' i → code_ s' !! i = (code_ s ++ concat fs) !! i.
Proof.
  induction decls as [|decl rest IH]; intros scope s fs s' H.
  - destruct fs as [|f fs]; [|done]. cbn in H. subst s'. cbn.
    rewrite app_nil_r. repeat split; [apply keeps_sites_refl|done|lia].
  - destruct fs as [|f fs]; [done|]. cbn [funcs_in_order] in H.
    destruct H as (label & s1 & Hl & E & A1 & _ & Hrest).
    destruct (IH _ _ _ _ Hrest) as (F' & K' & B' & Len' & Hcode).
    destruct (LowerFuncDecl_streams (λ _, True) _ _ _ _ (λ _ _ _, I) E)
      as [(_ & G & _) _].
    assert (K1 : keeps_sites s s1).
    { unfold LowerFuncDecl in E. rewrite Hl in E.
      destruct (assert_ _ _) in E; cbn [bind] in E; [|discriminate E].
      destruct (LowerBlockStmt _ _ _) as [s3|] eqn:E3 in E;
        cbn [bind] in E; [|discriminate E].
      destruct (assert_ _ _) in E; cbn [bind] in E; [|discriminate E].
      injection E as <-.
      assert (E' : LowerStmt (FuncScope scope (func_args decl))
                     (BlockStmt (fd_body decl))
                     (set_func (Some decl) (EmitLabel label s))
                   = Ok (FuncScope scope (func_args decl), s3)).
      { cbn [LowerStmt]. unfold LowerBlockStmt in E3. by rewrite E3. }
      intros l loc Hloc.
      apply (LowerStmt_keeps_sites _ _ _ _ _ E').
      by apply (keeps_sites_EmitLabel label s). }
    assert (Len1 : length (code_ s1) = (length (code_ s) + length f)%nat).
    { rewrite A1, length_app, code_EmitLabel. by rewrite length_foldl_patch. }
    split; [by rewrite F', (grows_funcs _ _ G)|].
    split; [by eapply keeps_sites_trans|].
    split; [intros l a Ha; by apply B', (grows_bound _ _ G)|].
    cbn [concat]. split; [rewrite Len', Len1, length_app; lia|].
    intros i Hi. rewrite (Hcode i Hi), A1, code_EmitLabel, <- !app_assoc.
    destruct (decide (i < length (code_ s))%nat) as [Hlt|Hge].
    + rewrite !lookup_app_l by (rewrite ?length_foldl_patch; done).
      apply lookup_foldl_patch. intros loc Hloc Hin. apply Hi.
      exists (fd_name decl), label, loc. split; [|split; [|done]].
      * by rewrite F', (grows_funcs _ _ G).
      * by apply K', K1.
    + rewrite (lookup_app_r (foldl _ _ _)) by (rewrite length_foldl_patch; lia).
      rewrite (lookup_app_r (code_ s)) by lia.
      by rewrite length_foldl_patch.
Qed.

(** *** Where the functions begin *)

Lemma LowerFuncDecl_binds L0 scope decl s s' label :
  L0 <= nextLabel_ s → funcs_ s !! fd_name decl = Some label →
  LowerFuncDecl scope decl s = Ok s' →
  L0 <= nextLabel_ s'
  ∧ ∀ l a, labelToAddress_ s' !! l = Some a →
      labelToAddress_ s !! l = Some a ∨ l = label ∨ L0 < l.
Proof.
  intros HL El H. unfold LowerFuncDecl in H. rewrite El in H.
  destruct (assert_ _ _) in H; cbn [bind] in H; [|discriminate H].
  destruct (LowerBlockStmt _ _ _) as [s3|] eqn:E in H;
    cbn [bind] in H; [|discriminate H].
  destruct (assert_ _ _) in H; cbn [bind] in H; [|discriminate H].
  injection H as <-.
  set (s2 := set_func (Some decl) (EmitLabel label s)) in *.
  set (fscope := FuncScope scope (func_args decl)) in *.
  assert (E' : LowerStmt fscope (BlockStmt (fd_body decl)) s2 = Ok (fscope, s3)).
  { cbn [LowerStmt]. unfold LowerBlockStmt in E. by rewrite E. }
  assert (HL2 : L0 <= nextLabel_ s2).
  { unfold s2. cbn [nextLabel_ set_func].
    by rewrite ControlFacts.nextLabel_EmitLabel. }
  destruct (LowerStmt_binds_above L0 _ _ _ _ _ HL2 E') as [Hnext Hbind].
  split; [cbn [nextLabel_ set_func]; lia|].
  intros l addr Ha. cbn [labelToAddress_ set_func] in Ha.
  destruct (Hbind l addr Ha) as [H2|Habove]; [|auto].
  unfold s2 in H2. cbn [labelToAddress_ set_func] in H2.
  rewrite labelToAddress_EmitLabel in H2.
  destruct (decide (label = l)) as [<-|Hne]; [auto|].
  rewrite emplace_lookup_ne in H2 by done. auto.
Qed.

Lemma funcs_in_order_entries L0 decls : ∀ scope s fs s',
  funcs_in_order decls scope s fs s' →
  NoDup (fd_name <$> decls) →
  L0 <= nextLabel_ s →
  (∀ n l, funcs_ s !! n = Some l → l <= L0) →
  (∀ n1 n2 l, funcs_ s !! n1 = Some l → funcs_ s !! n2 = Some l → n1 = n2) →
  (∀ f l, f ∈ decls → funcs_ s !! fd_name f = Some l →
          labelToAddress_ s !! l = None) →
  ∀ k f, decls !! k = Some f →
    ∃ label, funcs_ s !! fd_name f = Some label
      ∧ labelToAddress_ s' !! label
        = Some (length (code_ s) + length (concat (take k fs)))%nat.
Proof.
  induction decls as [|decl rest IH];
    intros scope s fs s' H Hnd HL Hle Hinj Hun k f Hk; [done|].
  destruct fs as [|c fs]; [done|]. cbn [funcs_in_order] in H.
  destruct H as (label & s1 & Hl & E & A1 & B1 & Hrest).
  rewrite fmap_cons in Hnd. apply NoDup_cons in Hnd as [Hnotin Hnd].
  destruct (funcs_in_order_code _ _ _ _ _ Hrest) as (_ & _ & B' & _).
  destruct (LowerFuncDecl_streams (λ _, True) _ _ _ _ (λ _ _ _, I) E)
    as [(_ & G & _) _].
  destruct (LowerFuncDecl_binds L0 _ _ _ _ _ HL Hl E) as [HL1 Hb1].
  destruct k as [|k].
  - injection Hk as <-. exists label. split; [done|].
    apply B'. rewrite B1, (Hun decl label) by (done || by left).
    cbn [take concat length default]. f_equal. lia.
  - cbn [lookup list_lookup] in Hk.
    destruct (IH scope s1 fs s' Hrest Hnd HL1) with (k := k) (f := f)
      as (label' & Hl' & Ha'); try done.
    + intros n l. rewrite (grows_funcs _ _ G). apply Hle.
    + intros n1 n2 l. rewrite (grows_funcs _ _ G). apply Hinj.
    + intros f' l Hf'. rewrite (grows_funcs _ _ G). intros Hn.
      destruct (labelToAddress_ s1 !! l) as [a|] eqn:Ea; [exfalso|done].
      destruct (Hb1 l a Ea) as [H0|[->|Habove]].
      * rewrite (Hun f' l) in H0; [done|by right|done].
      * apply Hnotin. rewrite <- (Hinj _ _ _ Hn Hl).
        apply list_elem_of_fmap. by exists f'.
      * specialize (Hle _ _ Hn). lia.
    + exists label'. rewrite (grows_funcs _ _ G) in Hl'. split; [done|].
      rewrite Ha'. f_equal. cbn [take concat]. rewrite length_app.
      rewrite A1, length_app, code_EmitLabel, length_foldl_patch. lia.
Qed.

(** C6: [Translate] first records every prototype and mints a fresh label
    for every function (label i + 1 for the i-th function, and the runtime
    function of its primitive for every prototype, when names are declared
    once).  The top-level statements are then lowered in source order, each
    appending its code [cs_j] where the previous one stopped, so that the
    stream is [concat cs] when the STOP is emitted; the functions follow in
    source order, each binding its label at the end of the stream and
    appending its body [fs_k].  The program has the length of
    [concat cs ++ STOP :: concat fs] and holds its bytes everywhere but in
    the operands of references to functions, which binding their labels
    overwrites.  At the end every function label is bound to an offset
    beyond the STOP (the k-th to the offset where [fs_k] begins, when
    names are declared once), and every label with a fixup site is bound. *)
Theorem Translate_layout kRuntimeFns mod_ prog final :
  Translate kRuntimeFns mod_ new_Codegen = Ok (prog, final) →
  ∃ protos s0 global1 s1 cs fs,
    Prepass kRuntimeFns mod_ ∅ new_Codegen = Ok (protos, s0)
    ∧ code_ s0 = []
    ∧ nextLabel_ s0 = Z.of_nat (length (module_funcs mod_))
    ∧ funcs_fresh s0
    ∧ (∀ f, f ∈ module_funcs mod_ → is_Some (funcs_ s0 !! fd_name f))
    ∧ (NoDup (fd_name <$> module_funcs mod_) →
       ∀ i f, module_funcs mod_ !! i = Some f →
         funcs_ s0 !! fd_name f = Some (Z.of_nat i + 1))
    ∧ (∀ p, p ∈ module_protos mod_ → is_Some (protos !! pd_name p))
    ∧ protos_from kRuntimeFns mod_ protos
    ∧ (NoDup (pd_name <$> module_protos mod_) →
       ∀ p, p ∈ module_protos mod_ →
         protos !! pd_name p = kRuntimeFns !! pd_primitive p)
    ∧ LowerTopLevel mod_ (GlobalScope (funcs_ s0) protos) s0 = Ok (global1, s1)
    ∧ LowerFunctions mod_ global1 (Emit_Opcode STOP s1) = Ok final
    ∧ stmts_in_order (module_stmts mod_) (GlobalScope (funcs_ s0) protos) s0
        cs global1 s1
    ∧ code_ s1 = concat cs
    ∧ funcs_in_order (module_funcs mod_) global1 (Emit_Opcode STOP s1) fs final
    ∧ prog = code_ final
    ∧ length prog = length (concat cs ++ opcode_byte STOP :: concat fs)
    ∧ (∀ i, ¬ in_call_site final i →
         prog !! i = (concat cs ++ opcode_byte STOP :: concat fs) !! i)
    ∧ (∃ top funcs_code,
         prog = top ++ opcode_byte STOP :: funcs_code
         ∧ length top = length (code_ s1)
         ∧ ∀ i, ¬ in_site s1 i → top !! i = code_ s1 !! i)
    ∧ (∀ f, f ∈ module_funcs mod_ →
         ∃ label a, funcs_ final !! fd_name f = Some label
                    ∧ labelToAddress_ final !! label = Some a
                    ∧ (length (code_ s1) < a)%nat)
    ∧ (NoDup (fd_name <$> module_funcs mod_) →
       ∀ k f, module_funcs mod_ !! k = Some f →
         funcs_ final !! fd_name f = Some (Z.of_nat k + 1)
         ∧ labelToAddress_ final !! (Z.of_nat k + 1)
           = Some (length (concat cs) + 1 + length (concat (take k fs)))%nat)
    ∧ (∀ l, sites final l ≠ [] → is_Some (labelToAddress_ final !! l)).
Proof.
  intros H.
  destruct (Translate_stream _ _ _ _ H)
    as (protos & s0 & global1 & s1 & E0 & Hc0 & Hn0 & Hfresh & Hdef & Hlab
        & Hpdef & Hfrom & Hprim & E1 & E2 & Hprog & Htop & Hbound & Hres).
  destruct (Prepass_stream _ _ _ _ _ _ E0) as (_ & Hf0 & Hl0 & _).
  assert (C0 : clean s0).
  { intros l _. unfold sites. rewrite Hl0, Hf0. cbn. by rewrite !lookup_empty. }
  assert (HY0 : scope_entries (GlobalScope (funcs_ s0) protos)
                  (λ l, l <= nextLabel_ s0)).
  { eapply scope_entries_weaken; [|apply scope_entries_GlobalScope].
    intros l [name Hl]. destruct Hfresh as (_ & Hle & _).
    by apply Hle in Hl as [_ ?]. }
  destruct (LowerTopLevel_in_order _ _ _ _ _ C0 HY0 E1)
    as (C1 & N1 & HY1 & cs & Hcs & A1).
  rewrite Hc0, app_nil_l in A1.
  destruct (LowerTopLevel_lowers (λ _, True) _ _ _ _ _ (λ _ _ _, I) E1)
    as [(_ & G1 & _) _].
  set (s2 := Emit_Opcode STOP s1) in *.
  assert (C2 : clean s2) by (intros l Hl; apply (C1 l Hl)).
  assert (Hle2 : ∀ n l, funcs_ s2 !! n = Some l → l <= nextLabel_ s0).
  { intros n l. change (funcs_ s2) with (funcs_ s1).
    rewrite (grows_funcs _ _ G1). destruct Hfresh as (_ & Hle & _).
    intros Hl. by apply Hle in Hl as [_ ?]. }
  assert (Hle2' : ∀ n l, funcs_ s2 !! n = Some l → l <= nextLabel_ s2).
  { intros n l Hl. apply Hle2 in Hl. change (nextLabel_ s2) with (nextLabel_ s1).
    lia. }
  destruct (LowerFunctions_in_order mod_ global1 s2 final C2 HY1 Hle2' E2)
    as [fs Hfs].
  destruct (funcs_in_order_code _ _ _ _ _ Hfs) as (F2 & K2 & B2 & Len2 & Hcode).
  assert (A2 : code_ s2 = concat cs ++ [opcode_byte STOP]).
  { unfold s2, Emit_Opcode, Emit. cbn [code_ set_code]. by rewrite A1. }
  exists protos, s0, global1, s1, cs, fs.
  do 11 (split; [done|]).
  split; [done|]. split; [done|]. split; [done|]. split; [done|].
  split.
  { rewrite Hprog, Len2, A2, !length_app. cbn [length]. lia. }
  split.
  { intros i Hi. rewrite Hprog, (Hcode i Hi), A2, <- app_assoc. done. }
  split; [done|]. split; [done|]. split; [|done].
  intros Hnd k f Hk.
  assert (Hfk : funcs_ final !! fd_name f = Some (Z.of_nat k + 1)).
  { rewrite F2. change (funcs_ s2) with (funcs_ s1).
    rewrite (grows_funcs _ _ G1). by apply Hlab. }
  split; [done|].
  destruct (LowerTopLevel_binds_above (nextLabel_ s0) _ _ _ _ _ (Z.le_refl _) E1)
    as [_ Hb1].
  assert (HL2 : nextLabel_ s0 <= nextLabel_ s2)
    by (change (nextLabel_ s2) with (nextLabel_ s1); lia).
  assert (Hinj2 : ∀ n1 n2 l,
            funcs_ s2 !! n1 = Some l → funcs_ s2 !! n2 = Some l → n1 = n2).
  { intros n1 n2 l. change (funcs_ s2) with (funcs_ s1).
    rewrite (grows_funcs _ _ G1). destruct Hfresh as (_ & _ & Hinj).
    apply Hinj. }
  assert (Hun2 : ∀ f' l, f' ∈ module_funcs mod_ →
            funcs_ s2 !! fd_name f' = Some l → labelToAddress_ s2 !! l = None).
  { intros f' l _ Hl. destruct (labelToAddress_ s2 !! l) as [a|] eqn:Ea; [|done].
    exfalso. change (labelToAddress_ s2) with (labelToAddress_ s1) in Ea.
    destruct (Hb1 l a Ea) as [H0|Habove].
    + rewrite Hl0 in H0. cbn in H0. by rewrite lookup_empty in H0.
    + apply Hle2 in Hl. lia. }
  destruct (funcs_in_order_entries (nextLabel_ s0) _ _ _ _ _ Hfs Hnd HL2 Hle2
              Hinj2 Hun2 k f Hk) as (label & Hl & Ha).
  rewrite <- F2, Hfk in Hl. injection Hl as <-.
  rewrite Ha, A2, length_app. cbn [length]. done.
Qed.

Lemma Translate_layout_witness :
  ∃ final cs fs,
    Translate ∅ layout_demo new_Codegen
    = Ok (opcode_byte PUSH_FUNC :: le_bytes 8 22
            ++ [opcode_byte CALL; opcode_byte POP]
            ++ opcode_byte PUSH_INT :: le_bytes 8 8 ++ [opcode_byte POP]
            ++ opcode_byte STOP
            :: opcode_byte PUSH_INT :: le_bytes 8 1
            ++ opcode_byte RET :: le_bytes 4 0 ++ le_bytes 4 0,
          final)
    ∧ cs = [ opcode_byte PUSH_FUNC :: le_bytes 8 0
               ++ [opcode_byte CALL; opcode_byte POP];
             opcode_byte PUSH_INT :: le_bytes 8 8 ++ [opcode_byte POP] ]
    ∧ fs = [ opcode_byte PUSH_INT :: le_bytes 8 1
               ++ opcode_byte RET :: le_bytes 4 0 ++ le_bytes 4 0 ]
    ∧ (∀ i, ¬ in_call_site final i →
         code_ final !! i = (concat cs ++ opcode_byte STOP :: concat fs) !! i)
    ∧ sites final 1 = [1%nat]
    ∧ labelToAddress_ final !! 1 = Some (length (concat cs) + 1)%nat.
Proof.
  destruct (Translate ∅ layout_demo new_Codegen) as [[prog final]|msg] eqn:E.
  - destruct (Translate_layout ∅ layout_demo prog final E)
      as (protos & s0 & global1 & s1 & cs & fs & E0 & H).
    destruct H as (_ & _ & _ & _ & _ & _ & _ & _ & _ & _ & Hcs & _ & Hfs & H).
    destruct H as (Hprog & _ & Hcode & _ & _ & Hentry & _).
    vm_compute in E0. injection E0 as <- <-.
    unfold layout_demo, module_stmts in Hcs. cbn [omap list_omap] in Hcs.
    destruct cs as [|c1 [|c2 [|c3 cs]]]; cbn [stmts_in_order] in Hcs;
      [ destruct Hcs
      | by destruct Hcs as (? & ? & _ & _ & [])
      |
      | by destruct Hcs as (? & ? & _ & _ & ? & ? & _ & _ & []) ].
    destruct Hcs as (scope1 & st1 & L1 & A1 & scope2 & st2 & L2 & A2 & -> & ->).
    vm_compute in L1. injection L1 as <- <-.
    vm_compute in A1. subst c1.
    vm_compute in L2. injection L2 as <- <-.
    vm_compute in A2. repeat (injection A2 as A2). subst c2.
    unfold layout_demo, module_funcs in Hfs. cbn [omap list_omap] in Hfs.
    destruct fs as [|f1 [|f2 fs]]; cbn [funcs_in_order] in Hfs;
      [ destruct Hfs
      |
      | by destruct Hfs as (? & ? & _ & _ & _ & _ & []) ].
    destruct Hfs as (label & st3 & Hl & L3 & A3 & _ & ->).
    vm_compute in Hl. injection Hl as <-.
    vm_compute in L3. injection L3 as <-.
    vm_compute in A3. repeat (injection A3 as A3). subst f1.
    vm_compute in E. injection E as <-.
    eexists _, _, _. split; [reflexivity|]. split; [reflexivity|].
    split; [reflexivity|]. split; [exact Hcode|]. split; reflexivity.
  - vm_compute in E. discriminate E.
Defined.

End TranslateFacts.
